(** * ts-compress-tool: the compression pipeline, its statistics and its batch output

    A shallow embedding of [src/compressor.ts], [src/utils.ts] and the
    selection path of [src/interactive.ts], with the properties of the
    specification stated and settled over it. *)

From Stdlib Require Import List Bool Arith ZArith NArith Lia String Ascii SpecFloat.
From Stdlib Require Import Sorted Permutation DecimalString DecimalPos.
Import ListNotations.

Set Warnings "-register-all".

(** ** JavaScript strings

    A JavaScript string is a sequence of UTF-16 code units; [length],
    [split], [trim], [endsWith] and a regular expression without the [u]
    flag all work on code units. *)

Module JS.

Definition char := N.
Definition jsstring := list char.

Definition chr (a : ascii) : char := N_of_ascii a.
Definition lit (s : string) : jsstring := map N_of_ascii (list_ascii_of_string s).

Definition LF : char := 10%N.
Definition CR : char := 13%N.

(** ECMAScript LineTerminator: LF, CR, LS, PS. *)
Definition isLineTerminator (c : char) : bool :=
  ((c =? 10) || (c =? 13) || (c =? 8232) || (c =? 8233))%N.

(** ECMAScript WhiteSpace: TAB, VT, FF, ZWNBSP and the space separators
    (SP, NBSP, U+1680, U+2000..U+200A, U+202F, U+205F, U+3000). *)
Definition isWhiteSpace (c : char) : bool :=
  ((c =? 9) || (c =? 11) || (c =? 12) || (c =? 32) || (c =? 160)
   || (c =? 5760) || ((8192 <=? c) && (c <=? 8202))
   || (c =? 8239) || (c =? 8287) || (c =? 12288) || (c =? 65279))%N.

(** What [\s] matches and what [trim] strips: WhiteSpace or LineTerminator. *)
Definition isSpace (c : char) : bool := isWhiteSpace c || isLineTerminator c.

(** [\w] is [A-Za-z0-9_]. *)
Definition isAlpha (c : char) : bool :=
  (((65 <=? c) && (c <=? 90)) || ((97 <=? c) && (c <=? 122)))%N.
Definition isWord (c : char) : bool :=
  (isAlpha c || ((48 <=? c) && (c <=? 57)) || (c =? 95))%N.

(** [s.split(sep)] for a one-character separator. *)
Fixpoint split (sep : char) (s : jsstring) : list jsstring :=
  match s with
  | [] => [[]]
  | c :: t =>
      if (c =? sep)%N then [] :: split sep t
      else match split sep t with
           | l :: ls => (c :: l) :: ls
           | [] => [[c]]
           end
  end.

Fixpoint dropWhile (p : char -> bool) (s : jsstring) : jsstring :=
  match s with
  | [] => []
  | c :: t => if p c then dropWhile p t else s
  end.

Fixpoint takeWhile (p : char -> bool) (s : jsstring) : jsstring :=
  match s with
  | [] => []
  | c :: t => if p c then c :: takeWhile p t else []
  end.

Definition trimStart (s : jsstring) : jsstring := dropWhile isSpace s.
Definition trimEnd (s : jsstring) : jsstring := rev (dropWhile isSpace (rev s)).
Definition trim (s : jsstring) : jsstring := trimEnd (trimStart s).

(** [a.join(sep)]. *)
Fixpoint join (sep : jsstring) (parts : list jsstring) : jsstring :=
  match parts with
  | [] => []
  | [p] => p
  | p :: rest => p ++ sep ++ join sep rest
  end.

Fixpoint startsWith (s p : jsstring) : bool :=
  match p, s with
  | [], _ => true
  | _ :: _, [] => false
  | x :: p', c :: s' => (c =? x)%N && startsWith s' p'
  end.

Definition endsWith (s p : jsstring) : bool := startsWith (rev s) (rev p).

(** [s.length] of a string or an array as a JavaScript number; it is an
    integer below 2^53. *)
Definition length {A : Type} (s : list A) : Z := Z.of_nat (List.length s).

(** Equality and order of strings by code units. *)
Fixpoint list_eq_b (a b : jsstring) : bool :=
  match a, b with
  | [], [] => true
  | x :: a', y :: b' => (x =? y)%N && list_eq_b a' b'
  | _, _ => false
  end.

Fixpoint ltb (a b : jsstring) : bool :=
  match a, b with
  | _, [] => false
  | [], _ :: _ => true
  | x :: a', y :: b' => (x <? y)%N || ((x =? y)%N && ltb a' b')
  end.

Fixpoint insertPath (p : jsstring) (l : list jsstring) : list jsstring :=
  match l with
  | [] => [p]
  | q :: t => if ltb q p then q :: insertPath p t else p :: l
  end.

(** A parameter with a default value: [undefined] takes the default. *)
Definition orDefault {A} (o : option A) (d : A) : A :=
  match o with Some a => a | None => d end.

End JS.

Import JS.

(** ** The regular expressions of the source

    The fragment of ECMAScript regular expressions that the rule table
    uses: literal characters, character classes, greedy [*] and [+] over a
    class, the multi-line assertions [^] and [$], and one capture group.
    Matching is the backtracking search of the language: the first
    alternative that succeeds, longest repetition first. *)

Module RegExp.

Inductive node :=
| Char (c : char)
| Class (p : char -> bool)
| Star (p : char -> bool)
| Plus (p : char -> bool)
| Bol
| Eol
| GroupOpen
| GroupClose.

Definition regex := list node.

(** A literal run of characters, as in [/import/]. *)
Definition str (s : string) : regex := map Char (lit s).

(** The state of a match: the characters consumed so far and the extent
    (start and end offset) of capture group 1. *)
Definition extent := (nat * nat)%type.
Definition outcome := option (nat * extent).

(** [^] with the [m] flag: at the start of input or after a LineTerminator. *)
Definition atLineStart (prev : option char) : bool :=
  match prev with None => true | Some c => isLineTerminator c end.

(** [$] with the [m] flag: at the end of input or before a LineTerminator. *)
Definition atLineEnd (s : jsstring) : bool :=
  match s with [] => true | c :: _ => isLineTerminator c end.

(** Greedy repetition of a class, then the continuation [k]; gives back
    one character at a time when [k] fails. *)
Fixpoint star (p : char -> bool) (k : option char -> jsstring -> nat -> outcome)
    (prev : option char) (s : jsstring) (n : nat) : outcome :=
  match s with
  | c :: t =>
      if p c then
        match star p k (Some c) t (S n) with
        | Some m => Some m
        | None => k prev s n
        end
      else k prev s n
  | [] => k prev s n
  end.

Fixpoint run (r : regex) (prev : option char) (s : jsstring) (n : nat) (g : extent)
    : outcome :=
  match r with
  | [] => Some (n, g)
  | Char c :: r' =>
      match s with
      | x :: t => if (x =? c)%N then run r' (Some x) t (S n) g else None
      | [] => None
      end
  | Class p :: r' =>
      match s with
      | x :: t => if p x then run r' (Some x) t (S n) g else None
      | [] => None
      end
  | Star p :: r' => star p (fun prev' s' n' => run r' prev' s' n' g) prev s n
  | Plus p :: r' =>
      match s with
      | x :: t =>
          if p x then star p (fun prev' s' n' => run r' prev' s' n' g) (Some x) t (S n)
          else None
      | [] => None
      end
  | Bol :: r' => if atLineStart prev then run r' prev s n g else None
  | Eol :: r' => if atLineEnd s then run r' prev s n g else None
  | GroupOpen :: r' => run r' prev s n (n, n)
  | GroupClose :: r' => run r' prev s n (fst g, n)
  end.

(** A match attempt at the current position: the length of the match and
    the extent of group 1, or no match. *)
Definition exec (r : regex) (prev : option char) (s : jsstring) : outcome :=
  run r prev s 0 (0, 0).

(** Replacement strings: literal text and [$1]. *)
Inductive piece :=
| Lit (s : jsstring)
| Ref1.

Definition template := list piece.

Definition substring (s : jsstring) (g : extent) : jsstring :=
  firstn (snd g - fst g) (skipn (fst g) s).

Definition expand (tpl : template) (s : jsstring) (g : extent) : jsstring :=
  flat_map (fun p => match p with Lit l => l | Ref1 => substring s g end) tpl.

(** [s.replace(/r/g, tpl)]: matches are searched left to right, each from
    the end of the previous one; [skip] counts the characters of the
    current match still to be passed over, [prev] is the character before
    the current position. An empty match advances by one character. *)
Fixpoint replaceFrom (r : regex) (tpl : template) (skip : nat) (prev : option char)
    (s : jsstring) : jsstring :=
  match s with
  | [] =>
      match skip with
      | 0 => match exec r prev [] with
             | Some (_, g) => expand tpl [] g
             | None => []
             end
      | S _ => []
      end
  | c :: t =>
      match skip with
      | S k => replaceFrom r tpl k (Some c) t
      | 0 =>
          match exec r prev s with
          | Some (0, g) => expand tpl s g ++ c :: replaceFrom r tpl 0 (Some c) t
          | Some (S k, g) => expand tpl s g ++ replaceFrom r tpl k (Some c) t
          | None => c :: replaceFrom r tpl 0 (Some c) t
          end
      end
  end.

Definition replace (r : regex) (tpl : template) (s : jsstring) : jsstring :=
  replaceFrom r tpl 0 None s.

End RegExp.

Import RegExp.

(** ** Failure

    A rejected promise or a thrown exception ends the computation with the
    error; nothing is returned beside it. *)

Module Effect.

Inductive exn :=
| Error (message : jsstring)      (* [new Error(message)] *)
| TypeError                       (* raised by the language itself *)
| SyntaxError                     (* [new RegExp] on an invalid pattern *)
| SystemError (path : jsstring).  (* a rejected file-system call *)

Inductive result (A : Type) :=
| Ok (a : A)
| Throw (e : exn).

Arguments Ok {A} a.
Arguments Throw {A} e.

Definition bind {A B} (m : result A) (k : A -> result B) : result B :=
  match m with
  | Ok a => k a
  | Throw e => Throw e
  end.

(** Run [f] over a list, stopping at the first failure. *)
Fixpoint traverse {A B} (f : A -> result B) (l : list A) : result (list B) :=
  match l with
  | [] => Ok []
  | a :: t => bind (f a) (fun b => bind (traverse f t) (fun bs => Ok (b :: bs)))
  end.

End Effect.

Import Effect.

Notation "x <- m ;; k" := (bind m (fun x => k))
  (at level 61, m at next level, right associativity).

(** ** The host: what the program imports and does not define

    The TypeScript compiler API, [node:path], [node:fs/promises] and the
    [RegExp] objects compiled from the user's patterns. *)

Module Host.

(** An entry of a directory. A directory comes with what the [readdir]
    call for it gives: its entries, or the error that rejects the call. *)
Inductive Dirent :=
| FileEntry (name : jsstring)
| DirEntry (name : jsstring) (listing : result (list Dirent)).

Class Platform := {
  (* typescript *)
  SourceFile : Type;
  createSourceFile : jsstring -> jsstring -> SourceFile;
  printFile : bool -> SourceFile -> jsstring;   (* the flag is [removeComments] *)
  (* node:path *)
  relative : jsstring -> jsstring -> jsstring;
  pathJoin : jsstring -> jsstring -> jsstring;
  (* node:fs/promises *)
  readFile : jsstring -> result jsstring;
  readdir : jsstring -> result (list Dirent);
  (* RegExp *)
  RegExpObject : Type;
  newRegExp : jsstring -> result RegExpObject;
  test : RegExpObject -> jsstring -> bool
}.

End Host.

Import Host.

(** ** JavaScript numbers

    A number is an IEEE 754 binary64 value. Sizes are string lengths and sums
    of them: integers below 2^53, on which the arithmetic of numbers is the
    arithmetic of integers, so they are kept as [Z]; the ratio is computed
    in binary64. *)

Module Number.

Definition number := spec_float.

Definition prec : Z := 53.
Definition emax : Z := 1024.

Definition ofZ (n : Z) : number := binary_normalize prec emax n 0 false.

Definition div (x y : number) : number := SFdiv prec emax x y.
Definition sub (x y : number) : number := SFsub prec emax x y.
Definition mul (x y : number) : number := SFmul prec emax x y.

(** [Math.round]: the nearest integer, a tie going towards +infinity;
    an integral, infinite or NaN argument is returned as it is, and a result
    of zero keeps the sign of the argument. *)
Definition Math_round (x : number) : number :=
  match x with
  | S754_finite s m e =>
      if (0 <=? e)%Z then x
      else
        let twice := (2 * (if s then Z.neg m else Z.pos m))%Z in
        let r := ((twice + 2 ^ (- e)) / 2 ^ (1 - e))%Z in
        if (r =? 0)%Z then S754_zero s else ofZ r
  | _ => x
  end.

End Number.

Import Number.

(** ** utils.ts *)

Module Utils.

Section WithPlatform.
Context {P : Platform}.

(** [new RegExp(pattern.replace(/\*/g, '.*'))] *)
Definition patternToRegex (pattern : jsstring) : result RegExpObject :=
  newRegExp (replace [Char (chr "*")] [Lit (lit ".*")] pattern).

Definition FileFilter := jsstring -> bool.

Definition createFileFilter (includePatterns excludePatterns : list jsstring)
    : result FileFilter :=
  includeRegexes <- traverse patternToRegex includePatterns ;;
  excludeRegexes <- traverse patternToRegex excludePatterns ;;
  Ok (fun fileName =>
        if negb (endsWith fileName (lit ".ts")) then false
        else if existsb (fun regex => test regex fileName) excludeRegexes then false
        else existsb (fun regex => test regex fileName) includeRegexes).

Definition shouldSkipDirectory (name : jsstring) : bool :=
  list_eq_b name (lit "node_modules") || startsWith name (lit ".")
  || list_eq_b name (lit "dist").

(** [Array.prototype.sort] without a comparator: by code units. *)
Definition sortPaths (l : list jsstring) : list jsstring :=
  fold_right (fun p acc => insertPath p acc) [] l.

(** What [getFilesRecursiveIO] does with one entry of [dir]. For a
    directory that is not skipped it is the recursive call: the [readdir]
    of the directory, which may be rejected, and the entries in their turn. *)
Fixpoint filesOfEntry (dir : jsstring) (filter : FileFilter) (entry : Dirent)
    : result (list jsstring) :=
  match entry with
  | FileEntry name => Ok (if filter name then [pathJoin dir name] else [])
  | DirEntry name listing =>
      if shouldSkipDirectory name then Ok []
      else
        entries <- listing ;;
        results <- traverse (filesOfEntry (pathJoin dir name) filter) entries ;;
        Ok (sortPaths (List.concat results))
  end.

Definition getFilesRecursiveIO (dir : jsstring) (filter : FileFilter)
    : result (list jsstring) :=
  entries <- readdir dir ;;
  results <- traverse (filesOfEntry dir filter) entries ;;
  Ok (sortPaths (List.concat results)).

Definition defaultInclude : list jsstring := [lit "*.ts"].
Definition defaultExclude : list jsstring :=
  [lit "*.d.ts"; lit "*.test.ts"; lit "*.spec.ts"].

Definition getTypeScriptFiles (dir : jsstring)
    (includePatterns excludePatterns : option (list jsstring))
    : result (list jsstring) :=
  filter <- createFileFilter (orDefault includePatterns defaultInclude)
                             (orDefault excludePatterns defaultExclude) ;;
  getFilesRecursiveIO dir filter.

(** [relative(baseDir, filePath).replace(/\\/g, '/')] *)
Definition getRelativePath (filePath baseDir : jsstring) : jsstring :=
  replace [Char (chr "\")] [Lit (lit "/")] (relative baseDir filePath).

End WithPlatform.

Record FileStats := {
  originalSize : Z;
  compressedSize : Z;
  ratio : number
}.

Definition calculateStats (originalSize compressedSize : Z) : FileStats :=
  {| originalSize := originalSize;
     compressedSize := compressedSize;
     ratio :=
       if (0 <? originalSize)%Z
       then Math_round
              (mul (sub (ofZ 1) (div (ofZ compressedSize) (ofZ originalSize)))
                   (ofZ 100))
       else ofZ 0 |}.

Definition pipe {A B C} (f : A -> B) (g : B -> C) : A -> C :=
  fun a => g (f a).

End Utils.

Import Utils.

(** ** compressor.ts: the textual normalizer *)

Module Compressor.

(** The class [[{}:;,=()[\]<>]] of the fourth rule. *)
Definition isPunct (c : char) : bool :=
  existsb (N.eqb c) (lit "{}:;,=()[]<>").

Definition compressionRules : list (regex * template) :=
  [ ([Char LF; Star isSpace; Char LF], [Lit [LF]]);
    ([Bol; Plus isSpace], []);
    ([Plus isSpace; Eol], []);
    ([Star isSpace; GroupOpen; Class isPunct; GroupClose; Star isSpace], [Ref1]);
    (str "import" ++ [Star isSpace; Char (chr "{")], [Lit (lit "import{")]);
    ([Char (chr "}"); Star isSpace] ++ str "from", [Lit (lit "}from")]);
    (str "export" ++ [Star isSpace; Char (chr "{")], [Lit (lit "export{")]);
    (str "export" ++ [Plus isSpace] ++ str "type", [Lit (lit "export type")]);
    (str "export" ++ [Plus isSpace] ++ str "const", [Lit (lit "export const")]);
    (str "export" ++ [Plus isSpace] ++ str "enum", [Lit (lit "export enum")]);
    (str "export" ++ [Plus isSpace] ++ str "interface", [Lit (lit "export interface")]);
    (str "type" ++ [Plus isSpace; GroupOpen; Plus isWord; GroupClose; Star isSpace;
                    Char (chr "=")],
     [Lit (lit "type "); Ref1; Lit (lit "=")]);
    ([Char (chr ":"); Star isSpace; GroupOpen; Class isAlpha; GroupClose],
     [Lit (lit ":"); Ref1]) ].

Definition applyRule (content : jsstring) (rule : regex * template) : jsstring :=
  let '(pattern, replacement) := rule in
  replace pattern replacement content.

Definition processLines (content : jsstring) : jsstring :=
  join [] (filter (fun line => (0 <? JS.length line)%Z) (map trim (split LF content))).

Definition advancedCompress (content : jsstring) : jsstring :=
  let afterRules := fold_left applyRule compressionRules content in
  processLines afterRules.

Definition CompressFunction := jsstring -> jsstring.

Record ProcessedFile := {
  path : jsstring;
  originalContent : jsstring;
  compressedContent : jsstring;
  stats : FileStats
}.

Record CompressResult := {
  files : list ProcessedFile;
  totalStats : FileStats;
  output : jsstring
}.

Record CompressOptions := {
  targetDir : jsstring;
  outputFile : option jsstring;
  includePatterns : option (list jsstring);
  excludePatterns : option (list jsstring);
  preserveStructure : option bool;
  verbose : option bool;
  interactive : option bool
}.

Record Totals := {
  totalOriginalSize : Z;
  totalCompressedSize : Z
}.

(** [functions.reduce((acc, fn) => pipe(acc, fn))]: a reduction without an
    initial value, which the language refuses on an empty array. *)
Definition createCompressionPipeline (functions : list CompressFunction)
    : result CompressFunction :=
  match functions with
  | [] => Throw TypeError
  | first :: rest => Ok (fold_left (fun acc fn => pipe acc fn) rest first)
  end.

Section WithPlatform.
Context {P : Platform}.

Definition removeCommentsWithAST : CompressFunction :=
  fun content =>
    let sourceFile := createSourceFile (lit "temp.ts") content in
    printFile true sourceFile.

(** The module constant; the call has two arguments, so it returns. *)
Definition defaultCompressionPipeline : CompressFunction :=
  match createCompressionPipeline [removeCommentsWithAST; advancedCompress] with
  | Ok pipeline => pipeline
  | Throw _ => fun content => content
  end.

Definition processFile (filePath : jsstring) (compress : option CompressFunction)
    : result ProcessedFile :=
  let compress := orDefault compress defaultCompressionPipeline in
  originalContent <- readFile filePath ;;
  let compressedContent := compress originalContent in
  let stats := calculateStats (JS.length originalContent) (JS.length compressedContent) in
  Ok {| path := filePath;
        originalContent := originalContent;
        compressedContent := compressedContent;
        stats := stats |}.

Definition formatFileOutput (file : ProcessedFile) (baseDir : jsstring)
    (preserveStructure : bool) : jsstring :=
  let relativePath := getRelativePath (path file) baseDir in
  if preserveStructure
  then [LF] ++ lit "/*=== " ++ relativePath ++ lit " ===*/" ++ [LF]
       ++ compressedContent file ++ [LF]
  else lit "/*" ++ relativePath ++ lit "*/" ++ compressedContent file.

Definition aggregateStats (files : list ProcessedFile) : Totals :=
  fold_left
    (fun acc file =>
       {| totalOriginalSize := totalOriginalSize acc + originalSize (stats file);
          totalCompressedSize := totalCompressedSize acc + compressedSize (stats file) |})
    files
    {| totalOriginalSize := 0; totalCompressedSize := 0 |}.

Definition generateOutput (files : list ProcessedFile) (baseDir : jsstring)
    (preserveStructure : bool) : jsstring :=
  join (if preserveStructure then [LF] else [])
       (map (fun file => formatFileOutput file baseDir preserveStructure) files).

(** The reads are issued together and awaited jointly; the result keeps
    the order of the list. The [verbose] message goes to the console
    and is not part of the result. *)
Definition compressTypeScriptFiles (options : CompressOptions) : result CompressResult :=
  let preserveStructure := orDefault (preserveStructure options) false in
  files <- getTypeScriptFiles (targetDir options) (includePatterns options)
                              (excludePatterns options) ;;
  if (JS.length files =? 0)%Z
  then Throw (Error (lit "No TypeScript files found in " ++ targetDir options))
  else
    processedFiles <- traverse (fun file => processFile file None) files ;;
    let output := generateOutput processedFiles (targetDir options) preserveStructure in
    let totalOriginalSize := totalOriginalSize (aggregateStats processedFiles) in
    let totalCompressedSize := JS.length output in
    let totalStats := calculateStats totalOriginalSize totalCompressedSize in
    Ok {| files := processedFiles; totalStats := totalStats; output := output |}.

End WithPlatform.

End Compressor.

Import Compressor.

(** ** interactive.ts: compressing a selection *)

Module Interactive.

(** [ReadonlySet<number>]: distinct indices in insertion order. *)
Definition SelectionState := list nat.

Fixpoint insertIndex (i : nat) (l : list nat) : list nat :=
  match l with
  | [] => [i]
  | j :: t => if (j <=? i)%nat then j :: insertIndex i t else i :: l
  end.

(** [.sort((a, b) => a - b)] *)
Definition sortIndices (l : list nat) : list nat :=
  fold_right insertIndex [] l.

(** [.filter(Boolean)] on an array of strings and [undefined]: keeps the
    strings that are not empty. *)
Definition filterBoolean (l : list (option jsstring)) : list jsstring :=
  flat_map (fun v => match v with
                     | Some (c :: t) => [c :: t]
                     | _ => []
                     end) l.

Record Selected := {
  path : jsstring;
  original : jsstring;
  compressed : jsstring
}.

Record Compressed := {
  output : jsstring;
  stats : FileStats;
  fileCount : Z
}.

Section WithPlatform.
Context {P : Platform}.

Definition selectedFiles (files : list jsstring) (selectedIndices : SelectionState)
    : list jsstring :=
  filterBoolean (map (fun i => nth_error files i) (sortIndices selectedIndices)).

Definition compressSelectedFiles (files : list jsstring)
    (selectedIndices : SelectionState) (baseDir : jsstring)
    (preserveStructure : option bool) : result Compressed :=
  let preserveStructure := orDefault preserveStructure false in
  let selectedFiles := selectedFiles files selectedIndices in
  if (JS.length selectedFiles =? 0)%Z
  then Throw (Error (lit "No files selected"))
  else
    results <- traverse
                 (fun file =>
                    content <- readFile file ;;
                    Ok {| path := file;
                          original := content;
                          compressed := defaultCompressionPipeline content |})
                 selectedFiles ;;
    let output :=
      join (if preserveStructure then [LF] else [])
           (map (fun r =>
                   let relativePath := getRelativePath (path r) baseDir in
                   if preserveStructure
                   then [LF] ++ lit "/*=== " ++ relativePath ++ lit " ===*/" ++ [LF]
                        ++ compressed r ++ [LF]
                   else lit "/*" ++ relativePath ++ lit "*/" ++ compressed r)
                results) in
    let totalOriginal :=
      fold_left (fun sum r => (sum + JS.length (original r))%Z) results 0%Z in
    let stats := calculateStats totalOriginal (JS.length output) in
    Ok {| output := output; stats := stats; fileCount := JS.length selectedFiles |}.

End WithPlatform.

End Interactive.


(** ** More of the language: case, numbers in text, splitting by a pattern *)

Module Text.

(** [String(n)] for an integral number: its decimal digits. *)
Definition decimal (n : Z) : jsstring := lit (NilZero.string_of_int (Z.to_int n)).

(** The value of a digit of the radix, which is at most 36. *)
Definition digitValue (radix : Z) (c : char) : option Z :=
  let v := if ((48 <=? c) && (c <=? 57))%N then Some (Z.of_N c - 48)%Z
           else if ((97 <=? c) && (c <=? 122))%N then Some (Z.of_N c - 87)%Z
           else if ((65 <=? c) && (c <=? 90))%N then Some (Z.of_N c - 55)%Z
           else None in
  match v with
  | Some d => if (d <? radix)%Z then Some d else None
  | None => None
  end.

(** The value of the longest prefix of digits; [acc] is the value read so
    far, [None] before the first digit. *)
Fixpoint digits (radix : Z) (s : jsstring) (acc : option Z) : option Z :=
  match s with
  | c :: t =>
      match digitValue radix c with
      | Some d =>
          digits radix t (Some (match acc with
                                | Some a => a * radix + d
                                | None => d
                                end)%Z)
      | None => acc
      end
  | [] => acc
  end.

(** A number that is an integer, an infinity or NaN: what [parseInt]
    returns and what [- 1] makes of it. The sign of a zero is left out:
    one is subtracted before anything is done with the number. *)
Inductive integral :=
| NaN
| Infinity (negative : bool)
| Integer (value : Z).

(** The number of the integer [z]: the nearest binary64 value, a tie going
    to the even significand, and an infinity beyond the largest finite
    number. Every integer up to 2^53 is a number; beyond, 53 bits are
    kept. *)
Definition toNumber (z : Z) : integral :=
  let a := Z.abs z in
  if (a <=? 2 ^ 53)%Z then Integer z
  else
    let e := (Z.log2 a - 52)%Z in
    let q := (a / 2 ^ e)%Z in
    let r := (a mod 2 ^ e)%Z in
    let half := (2 ^ (e - 1))%Z in
    let kept := if ((half <? r) || ((r =? half) && Z.odd q))%Z then (q + 1)%Z else q in
    if (kept * 2 ^ e <? 2 ^ 1024)%Z
    then Integer (Z.sgn z * (kept * 2 ^ e))
    else Infinity (z <? 0)%Z.

(** The integer that [parseInt(string)] reads, with no radix given: leading
    white space is skipped, a sign is read, [0x] or [0X] selects radix 16,
    and the longest prefix of digits is the value; [None] when there is no
    digit. *)
Definition mathInt (string : jsstring) : option Z :=
  let inputString := trimStart string in
  let '(sign, unsigned) :=
    match inputString with
    | c :: t => if (c =? chr "-")%N then ((-1)%Z, t)
                else if (c =? chr "+")%N then (1%Z, t)
                else (1%Z, inputString)
    | [] => (1%Z, inputString)
    end in
  let '(radix, numeral) :=
    match unsigned with
    | a :: b :: t =>
        if ((a =? chr "0") && ((b =? chr "x") || (b =? chr "X")))%N
        then (16%Z, t) else (10%Z, unsigned)
    | _ => (10%Z, unsigned)
    end in
  option_map (Z.mul sign) (digits radix numeral None).

(** [parseInt(string)]: the number of that integer, NaN when there is no
    digit. *)
Definition parseInt (string : jsstring) : integral :=
  match mathInt string with
  | Some z => toNumber z
  | None => NaN
  end.

(** [n - 1] *)
Definition minusOne (n : integral) : integral :=
  match n with
  | Integer z => toNumber (z - 1)
  | Infinity _ | NaN => n
  end.

(** [s.split(r)] for a regular expression [r] without a capture group and
    no limit: the text between the matches; a match is looked for at every
    position after the end of the previous one, and an empty match at the
    end of the previous one does not split. [skip] counts the characters of
    the current match still to be passed over and [cur] holds, last
    character first, the text since the previous match. *)
Fixpoint splitFrom (r : regex) (skip : nat) (prev : option char) (cur : jsstring)
    (s : jsstring) : list jsstring :=
  match s with
  | [] => [rev cur]
  | c :: t =>
      match skip with
      | S k => splitFrom r k (Some c) cur t
      | 0 =>
          match exec r prev s with
          | Some (S k, _) => rev cur :: splitFrom r k (Some c) [] t
          | Some (0, _) =>
              match cur with
              | [] => splitFrom r 0 (Some c) [c] t
              | _ :: _ => rev cur :: splitFrom r 0 (Some c) [c] t
              end
          | None => splitFrom r 0 (Some c) (c :: cur) t
          end
      end
  end.

Definition splitRegExp (r : regex) (s : jsstring) : list jsstring :=
  match s with
  | [] => match exec r None [] with Some _ => [] | None => [[]] end
  | _ :: _ => splitFrom r 0 None [] s
  end.

End Text.

Import Text.


(** ** The terminal: what the interactive part takes from its host

    The case mapping of strings, the name of the platform and the child
    process that receives the clipboard text. *)

Module Process.

(** [NodeJS.Platform], the type of [process.platform]. *)
Inductive NodePlatform :=
| aix | android | darwin | freebsd | haiku | linux | openbsd | sunos
| win32 | cygwin | netbsd.

Definition platformName (p : NodePlatform) : jsstring :=
  match p with
  | aix => lit "aix" | android => lit "android" | darwin => lit "darwin"
  | freebsd => lit "freebsd" | haiku => lit "haiku" | linux => lit "linux"
  | openbsd => lit "openbsd" | sunos => lit "sunos" | win32 => lit "win32"
  | cygwin => lit "cygwin" | netbsd => lit "netbsd"
  end.

(** How the child process of [exec] ends: it has no [stdin], it exits with
    a code ([null] when a signal ended it), it emits [error], or the text
    cannot be written to it (the command is not there and the pipe is
    closed) and [child.stdin] emits [error], to which nothing listens. *)
Inductive Child :=
| NoStdin
| Exited (code : option Z)
| Failed (error : exn)
| Broken (error : exn).

(** How a call ends for its caller: it returns or is rejected, or an error
    that nothing handles ends the whole process, past every [catch] and
    [finally]. *)
Inductive completion (A : Type) :=
| Settled (outcome : result A)
| Uncaught (error : exn).

Arguments Settled {A} outcome.
Arguments Uncaught {A} error.

Class Terminal := {
  toLowerCase : jsstring -> jsstring;
  processPlatform : NodePlatform;
  runChild : jsstring -> jsstring -> Child   (* the command, the text written to it *)
}.

End Process.

Import Process.

(** ** utils.ts: the clipboard *)

Module Clipboard.

Section WithTerminal.
Context {T : Terminal}.

(** [commands[platform] ?? 'xclip -selection clipboard'] on the object
    literal with the keys [darwin], [win32] and [linux]. *)
Definition getClipboardCommand (platform : NodePlatform) : jsstring :=
  let commands :=
    [ (lit "darwin", lit "pbcopy");
      (lit "win32", lit "clip");
      (lit "linux", lit "xclip -selection clipboard") ] in
  match find (fun entry => list_eq_b (fst entry) (platformName platform)) commands with
  | Some entry => snd entry
  | None => lit "xclip -selection clipboard"
  end.

Definition copyToClipboard (text : jsstring) : completion unit :=
  let command := getClipboardCommand processPlatform in
  match runChild command text with
  | NoStdin => Settled (Throw (Error (lit "Failed to access clipboard command stdin")))
  | Exited (Some 0%Z) => Settled (Ok tt)
  | Exited (Some code) => Settled (Throw (Error (lit "Exit code: " ++ decimal code)))
  | Exited None => Settled (Throw (Error (lit "Exit code: null")))
  | Failed error => Settled (Throw error)
  | Broken error => Uncaught error
  end.

End WithTerminal.

End Clipboard.

Import Clipboard.

(** ** interactive.ts: the menu *)

Module Menu.

Import Interactive.

Inductive MenuChoice :=
| File (index : nat)
| All
| Multi
| CompressSelected
| Clear
| Quit.

(** [MenuChoice | readonly number[] | null] *)
Inductive Parsed :=
| Choice (choice : MenuChoice)
| Indices (indices : list nat)
| Null.

(** The class [[,\s]] of the separator of a multiple choice. *)
Definition isSeparator (c : char) : bool := (c =? chr ",")%N || isSpace c.

(** [n >= 0 && n < fileCount], which is false for NaN and for an
    infinity. *)
Definition inRange (fileCount : Z) (n : integral) : bool :=
  match n with
  | Integer n => (0 <=? n)%Z && (n <? fileCount)%Z
  | Infinity _ | NaN => false
  end.

(** A number that passed the range test, as an index. *)
Definition asIndex (n : integral) : nat :=
  match n with Integer n => Z.to_nat n | Infinity _ | NaN => 0 end.

(** [has], [delete] and [add] of a [Set<number>]. *)
Definition has (s : SelectionState) (i : nat) : bool := existsb (Nat.eqb i) s.
Definition delete (s : SelectionState) (i : nat) : SelectionState :=
  filter (fun j => negb (j =? i)%nat) s.
Definition add (s : SelectionState) (i : nat) : SelectionState :=
  if has s i then s else s ++ [i].

Definition toggleSelection (currentSelection : SelectionState) (indices : list nat)
    : SelectionState :=
  fold_left
    (fun newSelection index =>
       if has newSelection index then delete newSelection index
       else add newSelection index)
    indices currentSelection.

Record Single := {
  content : jsstring;
  singleStats : FileStats
}.

Section WithHost.
Context {P : Platform} {T : Terminal}.

Definition parseChoice (choice : jsstring) (fileCount : Z)
    (isMultiSelectMode hasSelection : bool) : Parsed :=
  let lowerChoice := trim (toLowerCase choice) in
  if list_eq_b lowerChoice (lit "q") then Choice Quit
  else if list_eq_b lowerChoice (lit "a") then Choice All
  else if list_eq_b lowerChoice (lit "m") && negb isMultiSelectMode then Choice Multi
  else if list_eq_b lowerChoice (lit "c") && hasSelection then Choice CompressSelected
  else if list_eq_b lowerChoice (lit "x") && hasSelection then Choice Clear
  else if isMultiSelectMode then
    let indices :=
      filter (inRange fileCount)
             (map (fun s => minusOne (parseInt (trim s)))
                  (splitRegExp [Plus isSeparator] choice)) in
    if (0 <? JS.length indices)%Z then Indices (map asIndex indices) else Null
  else
    let index := minusOne (parseInt choice) in
    if inRange fileCount index then Choice (File (asIndex index)) else Null.

Definition processSingleFile (filePath baseDir : jsstring) : result Single :=
  originalContent <- readFile filePath ;;
  let compressedContent := defaultCompressionPipeline originalContent in
  let relativePath := getRelativePath filePath baseDir in
  let output := lit "/*" ++ relativePath ++ lit "*/" ++ compressedContent in
  let stats := calculateStats (JS.length originalContent) (JS.length output) in
  Ok {| content := output; singleStats := stats |}.

Definition compressAllFiles (options : CompressOptions) : result Compressed :=
  result <- compressTypeScriptFiles options ;;
  Ok {| Interactive.output := Compressor.output result;
        Interactive.stats := totalStats result;
        fileCount := JS.length (files result) |}.

(** What the loop prints, by the function or the template that renders it;
    the rendering itself is the work of [chalk] and of the display
    functions. *)
Inductive Message :=
| MenuDisplay (files : list jsstring) (baseDir : jsstring)
              (selectedIndices : SelectionState) (isMultiSelectMode : bool)
| InvalidSelection
| SelectionUpdated (size : Z)
| Goodbye
| SelectionCleared
| CompressingSelected (size : Z)
| CompressingAll
| CompressingFile (relativePath : jsstring)
| SuccessMessage (action : jsstring)
| StatsDisplay (stats : FileStats) (fileCount : option Z)
| ErrorMessage (error : exn)
| NoFilesFound.

Inductive Prompt :=
| SelectFiles      (* 'Select files (comma-separated) or m to exit: ' *)
| SelectOption     (* 'Select option: ' *)
| PressEnter.      (* 'Press Enter to continue...' *)

Inductive Event :=
| ConsoleClear
| ConsoleLog (message : Message)
| ConsoleError (message : Message)
| Question (prompt : Prompt)
| ClipboardWrite (text : jsstring)      (* [copyToClipboard(text)] is called *)
| Close.

(** How a run over the lines typed so far stands: the loop has returned, it
    has failed, an error that nothing handles has ended the process, or the
    loop waits for the next line. *)
Inductive Outcome :=
| Returned
| Rejected (error : exn)
| Crashed (error : exn)
| Waiting.

(** The two values that the loop hands to its next turn. *)
Record State := {
  selectedIndices : SelectionState;
  isMultiSelectMode : bool
}.

(** How a turn ends: the loop returns or fails, or it calls itself, after
    [promptContinue] or at once. *)
Inductive Next :=
| Stop (outcome : Outcome)
| Again (pause : bool) (state : State).

(** The rest of a [try] block from [copyToClipboard] on: the messages of
    success, or the message of the error caught, and then [next]; an error
    that nothing handles is not caught and ends the turn. *)
Definition copyAndReport (text : jsstring) (success : list Event) (next : Next)
    : list Event * Next :=
  match copyToClipboard text with
  | Settled (Ok _) => (ClipboardWrite text :: success, next)
  | Settled (Throw error) =>
      ([ClipboardWrite text; ConsoleError (ErrorMessage error)], next)
  | Uncaught error => ([ClipboardWrite text], Stop (Crashed error))
  end.

(** A [try] block that compresses, copies and reports. *)
Definition compressAndCopy (compressed : result Compressed) (action : jsstring)
    (next : Next) : list Event * Next :=
  match compressed with
  | Ok result =>
      copyAndReport (Interactive.output result)
                    [ConsoleLog (SuccessMessage action);
                     ConsoleLog (StatsDisplay (Interactive.stats result)
                                              (Some (fileCount result)))]
                    next
  | Throw error => ([ConsoleError (ErrorMessage error)], next)
  end.

(** One turn of [menuLoop] after the menu is shown and [choice] is read. *)
Definition menuTurn (files : list jsstring) (options : CompressOptions)
    (state : State) (choice : jsstring) : list Event * Next :=
  let selectedIndices := selectedIndices state in
  let isMultiSelectMode := isMultiSelectMode state in
  let size := JS.length selectedIndices in
  match parseChoice choice (JS.length files) isMultiSelectMode (0 <? size)%Z with
  | Null =>
      ([ConsoleLog InvalidSelection], Again true state)
  | Indices parsed =>
      let newSelection := toggleSelection selectedIndices parsed in
      ([ConsoleLog (SelectionUpdated (JS.length newSelection))],
       Again true {| selectedIndices := newSelection;
                     isMultiSelectMode := isMultiSelectMode |})
  | Choice Quit =>
      ([ConsoleLog Goodbye], Stop Returned)
  | Choice Multi =>
      ([], Again false {| selectedIndices := selectedIndices;
                          isMultiSelectMode := true |})
  | Choice Clear =>
      ([ConsoleLog SelectionCleared],
       Again true {| selectedIndices := []; isMultiSelectMode := isMultiSelectMode |})
  | Choice CompressSelected =>
      let '(events, next) :=
        compressAndCopy
          (compressSelectedFiles files selectedIndices (targetDir options)
                                 (preserveStructure options))
          (lit "Selected files compressed and copied to clipboard")
          (Again true {| selectedIndices := []; isMultiSelectMode := false |}) in
      (ConsoleLog (CompressingSelected size) :: events, next)
  | Choice All =>
      let '(events, next) :=
        compressAndCopy (compressAllFiles options)
                        (lit "All files compressed and copied to clipboard")
                        (Again true state) in
      (ConsoleLog CompressingAll :: events, next)
  | Choice (File index) =>
      if isMultiSelectMode then ([], Again false state)
      else
        match nth_error files index with
        | None => ([], Stop (Rejected TypeError))
        | Some filePath =>
            let relativePath := getRelativePath filePath (targetDir options) in
            let '(events, next) :=
              match processSingleFile filePath (targetDir options) with
              | Ok result =>
                  copyAndReport
                    (content result)
                    [ConsoleLog (SuccessMessage
                                   (relativePath
                                    ++ lit " compressed and copied to clipboard"));
                     ConsoleLog (StatsDisplay (singleStats result) None)]
                    (Again true state)
              | Throw error => ([ConsoleError (ErrorMessage error)], Again true state)
              end in
            (ConsoleLog (CompressingFile relativePath) :: events, next)
        end
  end.

(** What every turn starts with: the screen is cleared, the menu is shown
    and the choice is asked for. *)
Definition showMenu (files : list jsstring) (options : CompressOptions) (state : State)
    : list Event :=
  [ ConsoleClear;
    ConsoleLog (MenuDisplay files (targetDir options) (selectedIndices state)
                            (isMultiSelectMode state));
    Question (if isMultiSelectMode state then SelectFiles else SelectOption) ].

(** [menuLoop] over the lines that [rl.question] is answered with, the
    choices and the lines that end a pause alike. *)
Fixpoint menuLoop (files : list jsstring) (options : CompressOptions)
    (answers : list jsstring) (state : State) : list Event * Outcome :=
  match answers with
  | [] => (showMenu files options state, Waiting)
  | choice :: rest =>
      let '(events, next) := menuTurn files options state choice in
      let shown := showMenu files options state ++ events in
      match next with
      | Stop outcome => (shown, outcome)
      | Again false state' =>
          let '(later, outcome) := menuLoop files options rest state' in
          (shown ++ later, outcome)
      | Again true state' =>
          match rest with
          | [] => (shown ++ [Question PressEnter], Waiting)
          | _ :: rest' =>
              let '(later, outcome) := menuLoop files options rest' state' in
              (shown ++ Question PressEnter :: later, outcome)
          end
      end
  end.


End WithHost.

End Menu.

Import Menu.

(** ** The regular expressions of the patterns

    What [new RegExp] and [test] do on the sources that [patternToRegex]
    makes of patterns written with ordinary characters, [.] and [*]. *)

Module Patterns.

(** What [.] matches: any character but a line terminator. *)
Definition isDot (c : char) : bool := negb (isLineTerminator c).

(** The characters with a meaning of their own in a regular expression. *)
Definition isSyntaxCharacter (c : char) : bool :=
  existsb (N.eqb c) (lit "^$\.*+?()[]{}|").

(** The regular expression of a source in which the only syntax characters
    are [.] and a [*] that follows a [.]. *)
Fixpoint parse (source : jsstring) : option regex :=
  match source with
  | [] => Some []
  | c :: t =>
      if (c =? chr ".")%N then
        match t with
        | q :: t' =>
            if (q =? chr "*")%N then option_map (cons (Star isDot)) (parse t')
            else option_map (cons (Class isDot)) (parse t)
        | [] => Some [Class isDot]
        end
      else if isSyntaxCharacter c then None
      else option_map (cons (Char c)) (parse t)
  end.

(** [r.test(s)] for an expression without the [g] and [y] flags: a match
    is looked for at every position, from the first on. *)
Fixpoint searchFrom (r : regex) (prev : option char) (s : jsstring) : bool :=
  match exec r prev s with
  | Some _ => true
  | None =>
      match s with
      | [] => false
      | c :: t => searchFrom r (Some c) t
      end
  end.

Definition search (r : regex) (s : jsstring) : bool := searchFrom r None s.

(** A host whose [RegExp] follows the language on these sources. *)
Definition EcmaScript (P : Platform) : Prop :=
  forall source r,
    parse source = Some r ->
    exists object,
      newRegExp source = Ok object /\ forall s, test object s = search r s.

(** The text [m] is matched by the expression [r] of characters, classes
    and repeated classes. *)
Inductive Fits : regex -> jsstring -> Prop :=
| Fits_nil : Fits [] []
| Fits_char c r m : Fits r m -> Fits (Char c :: r) (c :: m)
| Fits_class p r x m : p x = true -> Fits r m -> Fits (Class p :: r) (x :: m)
| Fits_star p r w m :
    Forall (fun x => p x = true) w -> Fits r m -> Fits (Star p :: r) (w ++ m).

(** The pattern occurs somewhere in the name. *)
Definition Occurs (r : regex) (name : jsstring) : Prop :=
  exists a m b, name = a ++ m ++ b /\ Fits r m.

(** The source that [patternToRegex] makes of a pattern. *)
Definition sourceOf (pattern : jsstring) : jsstring :=
  flat_map (fun c => if (c =? chr "*")%N then lit ".*" else [c]) pattern.

(** The pattern is one of those sources and occurs in the name. *)
Definition Matches (pattern name : jsstring) : Prop :=
  exists r, parse (sourceOf pattern) = Some r /\ Occurs r name.

(** The name holds [w] between two characters that are not line
    terminators, followed by [ts]. *)
Definition Between (w name : jsstring) : Prop :=
  exists a x y b,
    name = a ++ [x] ++ w ++ [y] ++ lit "ts" ++ b
    /\ isDot x = true /\ isDot y = true.

(** Expressions of characters, classes and repeated classes. *)
Definition plain (r : regex) : bool :=
  forallb (fun node => match node with
                       | Char _ | Class _ | Star _ => true
                       | _ => false
                       end) r.

End Patterns.

Import Patterns.

(** ** utils.ts: the combinators *)

Module Combinators.

(** [arrays.reduce((acc, arr) => [...acc, ...arr], [])] *)
Definition concat {T : Type} (arrays : list (list T)) : list T :=
  fold_left (fun acc arr => acc ++ arr) arrays [].

(** An object by its own enumerable properties: the value of each key
    that it has. *)
Definition object (V : Type) := jsstring -> option V.

Definition empty {V : Type} : object V := fun _ => None.

(** [Object.assign(target, source)]: every property of the source is set on
    the target; setting [__proto__] reaches the setter of [Object.prototype]
    and makes no property. *)
Definition assign {V : Type} (target source : object V) : object V :=
  fun key =>
    if list_eq_b key (lit "__proto__") then target key
    else match source key with
         | Some v => Some v
         | None => target key
         end.

(** [Object.assign({}, ...objects)] *)
Definition merge {V : Type} (objects : list (object V)) : object V :=
  fold_left assign objects empty.

End Combinators.

(** ** index.ts *)

Module Api.

(** [Partial<Omit<CompressOptions, 'targetDir'>>] *)
Record CompressApiOptions := {
  outputFile : option jsstring;
  includePatterns : option (list jsstring);
  excludePatterns : option (list jsstring);
  preserveStructure : option bool;
  verbose : option bool;
  interactive : option bool
}.

Section WithHost.
Context {P : Platform} {T : Terminal}.

(** [{ targetDir, ...options }] *)
Definition fullOptions (targetDir : jsstring) (options : option CompressApiOptions)
    : CompressOptions :=
  match options with
  | Some o =>
      {| Compressor.targetDir := targetDir;
         Compressor.outputFile := outputFile o;
         Compressor.includePatterns := includePatterns o;
         Compressor.excludePatterns := excludePatterns o;
         Compressor.preserveStructure := preserveStructure o;
         Compressor.verbose := verbose o;
         Compressor.interactive := interactive o |}
  | None =>
      {| Compressor.targetDir := targetDir;
         Compressor.outputFile := None;
         Compressor.includePatterns := None;
         Compressor.excludePatterns := None;
         Compressor.preserveStructure := None;
         Compressor.verbose := None;
         Compressor.interactive := None |}
  end.

Definition compress (targetDir : jsstring) (options : option CompressApiOptions)
    : result CompressResult :=
  compressTypeScriptFiles (fullOptions targetDir options).

Definition compressToClipboard (targetDir : jsstring) (options : option CompressApiOptions)
    : completion CompressResult :=
  match compress targetDir options with
  | Ok result =>
      match copyToClipboard (Compressor.output result) with
      | Settled (Ok _) => Settled (Ok result)
      | Settled (Throw error) => Settled (Throw error)
      | Uncaught error => Uncaught error
      end
  | Throw error => Settled (Throw error)
  end.

Definition compressSync (targetDir : jsstring) (options : option CompressApiOptions)
    : result CompressResult :=
  compress targetDir options.

Definition compressToClipboardSync (targetDir : jsstring)
    (options : option CompressApiOptions) : completion CompressResult :=
  compressToClipboard targetDir options.

End WithHost.

End Api.

(** ** Vocabulary of the properties *)

Module Spec.

(** [t] occurs in [s] as a contiguous run of characters. *)
Definition Infix (t s : jsstring) : Prop := exists a b, s = a ++ t ++ b.

(** [s.includes(t)] *)
Fixpoint includes (s t : jsstring) : bool :=
  startsWith s t || match s with [] => false | _ :: s' => includes s' t end.

(** The characters of [s] that are not white space, in order. *)
Definition nonSpace (s : jsstring) : jsstring :=
  filter (fun c => negb (isSpace c)) s.

Definition sumZ (l : list Z) : Z := fold_right Z.add 0%Z l.

(** Left-to-right application of a sequence of stages. *)
Definition applyInOrder (stages : list CompressFunction) (s : jsstring) : jsstring :=
  fold_left (fun text stage => stage text) stages s.

(** The block tag as the specification words it: no line break before the
    tag. *)
Definition blockTagAsSpecified {P : Platform} (file : ProcessedFile) (baseDir : jsstring)
    : jsstring :=
  lit "/*=== " ++ getRelativePath (Compressor.path file) baseDir ++ lit " ===*/" ++ [LF]
  ++ compressedContent file ++ [LF].

(** Parts written one after the other with a line feed between two of them. *)
Fixpoint newlineJoined (parts : list jsstring) : jsstring :=
  match parts with
  | [] => []
  | p :: rest =>
      p ++ match rest with [] => [] | _ :: _ => LF :: newlineJoined rest end
  end.

(** The percentage of the specification, evaluated as the source evaluates
    it: each operation in binary64. *)
Definition reductionPercent (originalSize compressedSize : Z) : number :=
  mul (sub (ofZ 1) (div (ofZ compressedSize) (ofZ originalSize))) (ofZ 100).

(** The ratio as the specification words it, on the integers:
    [round((1 - compressedSize / originalSize) * 100)] with nothing rounded
    before the end, [round] being the nearest integer with a tie going up,
    as [Math.round] has it. *)
Definition roundedPercent (originalSize compressedSize : Z) : Z :=
  ((200 * (originalSize - compressedSize) + originalSize) / (2 * originalSize))%Z.

(** The character before the position reached by reading [w] from a
    position that [prev] precedes. *)
Definition after (prev : option char) (w : jsstring) : option char :=
  fold_left (fun _ c => Some c) w prev.

(** A regular expression that cannot match the empty string. *)
Fixpoint consuming (r : regex) : bool :=
  match r with
  | [] => false
  | (Char _ | Class _ | Plus _) :: _ => true
  | _ :: r' => consuming r'
  end.

(** The course of a global replacement as a derivation: a character where no
    match starts is kept, a match is replaced by the expansion of the
    template and the scan resumes after it. *)
Inductive Scan (r : regex) (tpl : template) : option char -> jsstring -> jsstring -> Prop :=
| Scan_nil prev : Scan r tpl prev [] []
| Scan_keep prev c t o :
    exec r prev (c :: t) = None ->
    Scan r tpl (Some c) t o ->
    Scan r tpl prev (c :: t) (c :: o)
| Scan_match prev c m t o g :
    exec r prev (c :: m ++ t) = Some (S (List.length m), g) ->
    Scan r tpl (after (Some c) m) t o ->
    Scan r tpl prev (c :: m ++ t) (expand tpl (c :: m ++ t) g ++ o).

Definition allSpace (w : jsstring) : Prop := Forall (fun c => isSpace c = true) w.

(** The pattern of the fourth rule. *)
Definition punctuationRule : regex :=
  [Star isSpace; GroupOpen; Class isPunct; GroupClose; Star isSpace].

(** Every two neighbours of [s] satisfy [ok]. *)
Fixpoint chain (ok : char -> char -> bool) (s : jsstring) : bool :=
  match s with
  | [] => true
  | x :: t => match t with [] => true | y :: _ => ok x y end && chain ok t
  end.

(** No white space next to a punctuation character of the fourth rule. *)
Definition tight (x y : char) : bool :=
  negb (isSpace x && isPunct y) && negb (isPunct x && isSpace y).

(** The only white space is the space character, never two in a row. *)
Definition isolated (x y : char) : bool := negb (isSpace x && isSpace y).

Definition plainSpace (c : char) : bool := negb (isSpace c) || (c =? 32)%N.

Definition singleSpaced (s : jsstring) : bool :=
  forallb plainSpace s && chain isolated s.

(** The first and the last character of [s] are not white space. *)
Definition trimmed (s : jsstring) : bool :=
  match hd_error s with Some c => negb (isSpace c) | None => true end
  && match after None s with Some c => negb (isSpace c) | None => true end.

(** The text around a scan position: the character before it, if any, and
    what is left to read. *)
Definition around (prev : option char) (s : jsstring) : jsstring :=
  match prev with Some c => c :: s | None => s end.

(** A position inside a text that is already normalized: no white space
    next to punctuation, single spaces only, and no white space at either
    end. *)
Definition normalAt (prev : option char) (s : jsstring) : Prop :=
  chain tight (around prev s) = true
  /\ singleSpaced (around prev s) = true
  /\ (prev = None -> match s with c :: _ => isSpace c = false | [] => True end)
  /\ match after None s with Some c => isSpace c = false | None => True end.

Definition spaceBefore (prev : option char) : Prop :=
  match prev with None => True | Some p => isSpace p = true end.

Definition spaceAfter (s : jsstring) : Prop :=
  match s with [] => True | d :: _ => isSpace d = true end.

(** [o] is [s] with some runs of white space rewritten, where a run is
    replaced by a single space, or is longer than one character, or touches
    other white space or an end of the text: a lone white-space character
    between two other characters is at most turned into a space. *)
Inductive Respace : option char -> jsstring -> jsstring -> Prop :=
| Respace_nil prev : Respace prev [] []
| Respace_keep prev c s o :
    Respace (Some c) s o -> Respace prev (c :: s) (c :: o)
| Respace_run prev c w x s o :
    allSpace (c :: w) -> allSpace x ->
    x = [32%N] \/ w <> [] \/ spaceBefore prev \/ spaceAfter s ->
    Respace (after (Some c) w) s o ->
    Respace prev ((c :: w) ++ s) (x ++ o).

(** A stretch of text in which every white-space character is a single
    space between two other characters of the stretch. *)
Fixpoint solid (prevSpace : bool) (u : jsstring) : bool :=
  match u with
  | [] => true
  | c :: u' =>
      if isSpace c
      then (c =? 32)%N && negb prevSpace
           && match u' with d :: _ => negb (isSpace d) | [] => false end
           && solid true u'
      else solid false u'
  end.

Definition isSpaceBefore (prev : option char) : bool :=
  match prev with None => true | Some p => isSpace p end.

(** The position is inside a text with no white space next to punctuation. *)
Definition tightAt (prev : option char) (s : jsstring) : Prop :=
  chain tight (around prev s) = true.

(** A rule whose every replacement is such a rewriting of white space, at
    the positions that satisfy [Q]. *)
Definition respaces (Q : option char -> jsstring -> Prop) (rule : regex * template) : Prop :=
  forall prev s n g,
    Q prev s -> exec (fst rule) prev s = Some (n, g) ->
    forall o,
      Respace (after prev (firstn n s)) (skipn n s) o ->
      Respace prev s (expand (snd rule) s g ++ o).

(** The import line of the scenario, and what the normalizer makes of it. *)
Definition importLine : jsstring := lit "import { foo } from 'bar';".
Definition importLineTight : jsstring := lit "import{foo}from 'bar';".

(** A rule that puts no white space next to punctuation where there was
    none. *)
Definition keepsTight (rule : regex * template) : Prop :=
  forall s, chain tight s = true -> chain tight (applyRule s rule) = true.

(** A rule that changes nothing in an already normalized text. *)
Definition fixesNormal (rule : regex * template) : Prop :=
  forall s, normalAt None s -> applyRule s rule = s.

(** A rule that leaves the characters other than white space as they are. *)
Definition keepsNonSpace (rule : regex * template) : Prop :=
  forall s, nonSpace (applyRule s rule) = nonSpace s.







(** [o] is [s] with its white space rewritten: a white-space character is
    left out or replaced by white space, every other character is kept, and
    nothing is put between two characters. *)
Inductive Reflow : jsstring -> jsstring -> Prop :=
| Reflow_nil : Reflow [] []
| Reflow_keep c s o : Reflow s o -> Reflow (c :: s) (c :: o)
| Reflow_space c x s o :
    isSpace c = true -> allSpace x -> Reflow s o -> Reflow (c :: s) (x ++ o).



End Spec.

Import Spec.

(** ** Vocabulary of the further properties *)

Module Terms.

(** Ascending order of strings by code units. *)
Definition pathLe (a b : jsstring) : Prop := ltb b a = false.

(** [p] is the path of a file below [entry], itself an entry of [dir]: the
    file's name passes the filter and no directory on the way to it is one
    that [shouldSkipDirectory] names. *)
Inductive Listed {P : Platform} (filter : FileFilter) : jsstring -> Dirent -> jsstring -> Prop :=
| Listed_file dir name :
    filter name = true ->
    Listed filter dir (FileEntry name) (pathJoin dir name)
| Listed_below dir name entries entry p :
    shouldSkipDirectory name = false ->
    In entry entries ->
    Listed filter (pathJoin dir name) entry p ->
    Listed filter dir (DirEntry name (Ok entries)) p.

(** The discovery reads, at or below [entry], a directory whose [readdir]
    is rejected with [e]: the directory is not below one that
    [shouldSkipDirectory] names. *)
Inductive Unreadable : Dirent -> exn -> Prop :=
| Unreadable_here name e :
    shouldSkipDirectory name = false ->
    Unreadable (DirEntry name (Throw e)) e
| Unreadable_below name entries entry e :
    shouldSkipDirectory name = false ->
    In entry entries ->
    Unreadable entry e ->
    Unreadable (DirEntry name (Ok entries)) e.

(** A selection of files of the list: no index twice, every index below
    the length of the list. *)
Definition valid (files : list jsstring) (selection : Interactive.SelectionState) : Prop :=
  NoDup selection /\ Forall (fun i => (i < List.length files)%nat) selection.

(** A processed file as the selection run records it. *)
Definition asSelected (f : ProcessedFile) : Interactive.Selected :=
  {| Interactive.path := Compressor.path f;
     Interactive.original := originalContent f;
     Interactive.compressed := compressedContent f |}.

(** The event that shows the menu. *)
Definition isMenu (e : Event) : bool :=
  match e with ConsoleLog (MenuDisplay _ _ _ _) => true | _ => false end.

(** The event that closes the readline interface. *)
Definition isClose (e : Event) : bool :=
  match e with Close => true | _ => false end.

End Terms.

Import Terms.

(** ** A small host to run the program on *)

Module Sample.

Definition tree : list Dirent :=
  [ FileEntry (lit "b.ts");
    DirEntry (lit "lib") (Ok [FileEntry (lit "c.ts"); FileEntry (lit "notes.md")]);
    DirEntry (lit "node_modules") (Ok [FileEntry (lit "dep.ts")]);
    DirEntry (lit ".git") (Throw (SystemError (lit "src/.git")));
    FileEntry (lit "a.ts") ].

Definition contentOf (p : jsstring) : jsstring :=
  if list_eq_b p (lit "src/a.ts") then lit "import { foo } from 'bar';" ++ [LF]
  else if list_eq_b p (lit "src/b.ts") then lit "const x = 1;" ++ [LF]
  else lit "export   type  T = { a : string } ;" ++ [LF].

(** The printer of this host prints the text it was given; the directory
    [src] holds [tree], every other directory is empty; a compiled pattern
    accepts a name exactly when it is [.*.ts]. *)
Definition host : Platform := {|
  SourceFile := jsstring;
  createSourceFile := fun _ content => content;
  printFile := fun _ sourceFile => sourceFile;
  relative := fun baseDir filePath => skipn (S (List.length baseDir)) filePath;
  pathJoin := fun dir name => dir ++ lit "/" ++ name;
  readFile := fun p => Ok (contentOf p);
  readdir := fun dir => if list_eq_b dir (lit "src") then Ok tree else Ok [];
  RegExpObject := jsstring;
  newRegExp := fun source => Ok source;
  test := fun regex _ => list_eq_b regex (lit ".*.ts")
|}.



Definition options (dir : string) (preserve : bool) : CompressOptions :=
  {| targetDir := lit dir; outputFile := None; includePatterns := None;
     excludePatterns := None; preserveStructure := Some preserve;
     verbose := None; interactive := None |}.

Definition file : ProcessedFile :=
  {| Compressor.path := lit "src/a.ts";
     originalContent := lit "const x = 1;" ++ [LF];
     compressedContent := lit "const x=1;";
     Compressor.stats := calculateStats 13 10 |}.

End Sample.

Module Desk.

(** [toLowerCase] on the letters A to Z, which is all of it on a text of
    ASCII characters. *)
Definition asciiLower (c : char) : char :=
  if ((65 <=? c) && (c <=? 90))%N then (c + 32)%N else c.

Definition isDigit (c : char) : bool := ((48 <=? c) && (c <=? 57))%N.

(** A terminal on Linux whose clipboard command succeeds. *)
Definition terminal : Terminal := {|
  toLowerCase := map asciiLower;
  processPlatform := linux;
  runChild := fun _ _ => Exited (Some 0%Z)
|}.

End Desk.

Import Desk.

(** ** A host with regular expressions *)

Module Script.

(** The sample host with a [RegExp] that reads these sources and refuses
    the others. *)
Definition host : Platform := {|
  SourceFile := jsstring;
  createSourceFile := fun _ content => content;
  printFile := fun _ sourceFile => sourceFile;
  relative := fun baseDir filePath => skipn (S (List.length baseDir)) filePath;
  pathJoin := fun dir name => dir ++ lit "/" ++ name;
  readFile := fun p => Ok (Sample.contentOf p);
  readdir := fun dir => if list_eq_b dir (lit "src") then Ok Sample.tree else Ok [];
  RegExpObject := regex;
  newRegExp := fun source =>
                 match parse source with
                 | Some r => Ok r
                 | None => Throw SyntaxError
                 end;
  test := search
|}.

End Script.

(** ** Lists, lines and failure *)

Section Basics.

Lemma dropWhile_In (p : char -> bool) (c : char) (s : jsstring) :
  In c (dropWhile p s) -> In c s.
Proof.
  induction s as [|x t IH]; simpl; auto.
  destruct (p x); simpl; tauto.
Qed.

Lemma trim_In (c : char) (s : jsstring) : In c (trim s) -> In c s.
Proof.
  unfold trim, trimEnd, trimStart. intro H.
  apply in_rev in H. apply dropWhile_In in H.
  apply in_rev in H. now apply dropWhile_In in H.
Qed.

Lemma split_no_separator (sep : char) (s : jsstring) :
  forall line, In line (split sep s) -> ~ In sep line.
Proof.
  induction s as [|x t IH]; simpl; intros line H.
  - destruct H as [<-|[]]. auto.
  - destruct (N.eqb_spec x sep) as [->|Hne].
    + destruct H as [<-|H]; auto.
    + destruct (split sep t) as [|l ls] eqn:E.
      * destruct H as [<-|[]]. simpl. intros [H|[]]. congruence.
      * destruct H as [<-|H].
        -- simpl. intros [H|H]; [congruence|]. apply (IH l); simpl; auto.
        -- apply IH. simpl. auto.
Qed.

Lemma join_empty_concat (parts : list jsstring) : join [] parts = List.concat parts.
Proof.
  induction parts as [|p rest IH]; simpl; auto.
  destruct rest as [|q rest'].
  - now rewrite app_nil_r.
  - now rewrite IH.
Qed.

Lemma join_newline (parts : list jsstring) : join [LF] parts = newlineJoined parts.
Proof.
  induction parts as [|p rest IH]; auto.
  destruct rest as [|q rest']; [simpl; now rewrite app_nil_r|].
  change (p ++ LF :: join [LF] (q :: rest') = p ++ LF :: newlineJoined (q :: rest')).
  now rewrite IH.
Qed.

Lemma join_length_ge (sep : jsstring) (parts : list jsstring) :
  (sumZ (map (@JS.length char) parts) <= JS.length (join sep parts))%Z.
Proof.
  unfold JS.length.
  induction parts as [|p rest IH]; simpl; [lia|].
  destruct rest as [|q rest']; [simpl in *; lia|].
  rewrite !length_app. simpl in IH |- *. lia.
Qed.

Lemma bind_Ok {A B} (m : result A) (k : A -> result B) (b : B) :
  bind m k = Ok b -> exists a, m = Ok a /\ k a = Ok b.
Proof. destruct m; simpl; [eauto|discriminate]. Qed.

Lemma traverse_Ok {A B} (f : A -> result B) (l : list A) (bs : list B) :
  traverse f l = Ok bs -> Forall2 (fun a b => f a = Ok b) l bs.
Proof.
  revert bs. induction l as [|a t IH]; simpl; intros bs H.
  - injection H as <-. constructor.
  - apply bind_Ok in H as (b & Hb & H).
    apply bind_Ok in H as (bs' & Hbs & H).
    injection H as <-. constructor; auto.
Qed.

Lemma traverse_total {A B} (f : A -> result B) (l : list A) :
  (forall a, In a l -> exists b, f a = Ok b) ->
  exists bs, traverse f l = Ok bs.
Proof.
  induction l as [|a t IH]; simpl; intro H; [eauto|].
  destruct (H a) as [b Hb]; auto.
  destruct IH as [bs Hbs]; auto.
  exists (b :: bs). now rewrite Hb, Hbs.
Qed.

End Basics.

(** ** The pipeline is a composition (C7) *)

Lemma fold_pipe (rest : list CompressFunction) (first : CompressFunction) (s : jsstring) :
  fold_left (fun acc fn => pipe acc fn) rest first s = applyInOrder rest (first s).
Proof.
  revert first. induction rest as [|g rest IH]; intro first; simpl.
  - reflexivity.
  - apply IH.
Qed.

(** C7. The default pipeline is the normalizer applied to the output of the
    comment stripper, and a pipeline created from the stages f1, ..., fn is
    returned and applies every stage, in order: fn (... (f2 (f1 s))). *)
Theorem pipeline_is_left_to_right_composition :
  forall (P : Platform) (s : jsstring),
    defaultCompressionPipeline s = advancedCompress (removeCommentsWithAST s)
    /\ createCompressionPipeline [removeCommentsWithAST; advancedCompress]
       = Ok defaultCompressionPipeline
    /\ forall (f1 : CompressFunction) (rest : list CompressFunction),
         exists pipeline,
           createCompressionPipeline (f1 :: rest) = Ok pipeline
           /\ forall text, pipeline text = applyInOrder (f1 :: rest) text.
Proof.
  intros P s. split; [reflexivity|]. split; [reflexivity|].
  intros f1 rest. eexists. split; [reflexivity|].
  intro text. apply fold_pipe.
Qed.

(** ** The output is one line (C9) *)

Lemma processLines_no_LF (content : jsstring) : ~ In LF (processLines content).
Proof.
  unfold processLines. rewrite join_empty_concat. intro H.
  apply in_concat in H as (line & Hline & Hc).
  apply filter_In in Hline as [Hline _].
  apply in_map_iff in Hline as (raw & <- & Hraw).
  apply trim_In in Hc. exact (split_no_separator LF content raw Hraw Hc).
Qed.

(** C9. The output of the normalizer contains no line feed: it is a single
    line, whatever the input. *)
Theorem advancedCompress_single_line :
  forall content : jsstring, ~ In LF (advancedCompress content).
Proof. intro content. apply processLines_no_LF. Qed.

(** A line feed is the only line break that [split] sees: a carriage
    return inside a line is white space like any other and is kept. *)
Remark carriage_return_is_kept :
  advancedCompress (lit "a" ++ [CR] ++ lit "b") = lit "a" ++ [CR] ++ lit "b".
Proof. reflexivity. Qed.

(** ** Empty batches fail (C8) *)

(** C8. When the file discovery returns no file, the batch run throws
    "No TypeScript files found in <targetDir>", and when a selection resolves
    to no file, the selection run throws "No files selected"; either way the
    run ends with the error and returns no result. *)
Theorem empty_input_is_an_error :
  forall (P : Platform) (options : CompressOptions)
         (files : list jsstring) (selectedIndices : Interactive.SelectionState)
         (baseDir : jsstring) (preserve : option bool),
    (getTypeScriptFiles (targetDir options) (includePatterns options)
                        (excludePatterns options) = Ok [] ->
     compressTypeScriptFiles options
     = Throw (Error (lit "No TypeScript files found in " ++ targetDir options)))
    /\ (Interactive.selectedFiles files selectedIndices = [] ->
        Interactive.compressSelectedFiles files selectedIndices baseDir preserve
        = Throw (Error (lit "No files selected"))).
Proof.
  intros P options files sel baseDir preserve. split; intro H.
  - unfold compressTypeScriptFiles. now rewrite H.
  - unfold Interactive.compressSelectedFiles. now rewrite H.
Qed.

Lemma empty_input_is_an_error_witness :
  @getTypeScriptFiles Sample.host (lit "attic") None None = Ok []
  /\ Interactive.selectedFiles [lit "src/a.ts"; lit ""] [5; 1]%nat = []
  /\ @compressTypeScriptFiles Sample.host (Sample.options "attic" false)
     = Throw (Error (lit "No TypeScript files found in attic"))
  /\ @Interactive.compressSelectedFiles Sample.host [lit "src/a.ts"; lit ""] [5; 1]%nat
       (lit "src") None
     = Throw (Error (lit "No files selected")).
Proof.
  split; [reflexivity|]. split; [reflexivity|].
  split.
  - apply (proj1 (@empty_input_is_an_error Sample.host (Sample.options "attic" false)
                    [] [] [] None)).
    reflexivity.
  - apply (proj2 (@empty_input_is_an_error Sample.host (Sample.options "attic" false)
                    [lit "src/a.ts"; lit ""] [5; 1]%nat (lit "src") None)).
    reflexivity.
Defined.

(** ** Only .ts names pass the filter (C10) *)

Section FileFilter.
Context {P : Platform}.

Lemma insertPath_In (p q : jsstring) (l : list jsstring) :
  In p (insertPath q l) <-> p = q \/ In p l.
Proof.
  induction l as [|x l IH]; simpl; [intuition congruence|].
  destruct (ltb x q); simpl; [rewrite IH|]; intuition congruence.
Qed.

Lemma sortPaths_In (p : jsstring) (l : list jsstring) : In p (sortPaths l) <-> In p l.
Proof.
  induction l as [|x l IH]; simpl; [tauto|].
  rewrite insertPath_In, IH. intuition congruence.
Qed.

(** Induction on an entry, with the property at hand for the entries of a
    directory. *)
Lemma Dirent_nested_ind (Q : Dirent -> Prop) :
  (forall name, Q (FileEntry name)) ->
  (forall name e, Q (DirEntry name (Throw e))) ->
  (forall name entries, Forall Q entries -> Q (DirEntry name (Ok entries))) ->
  forall entry, Q entry.
Proof.
  intros Hfile Hthrow Hdir. fix IH 1.
  intros [name|name [entries|e]]; [apply Hfile| |apply Hthrow].
  apply Hdir. induction entries as [|x l IHl]; constructor; [apply IH|exact IHl].
Qed.

(** A path among the sorted results of the entries is a path of one of
    them, and the other way round. *)
Lemma found_below {A} (f : A -> result (list jsstring)) (entries : list A)
    (results : list (list jsstring)) (p : jsstring) :
  traverse f entries = Ok results ->
  In p (sortPaths (List.concat results))
  <-> exists entry found, In entry entries /\ f entry = Ok found /\ In p found.
Proof.
  intro H. apply traverse_Ok in H. rewrite sortPaths_In.
  induction H as [|entry found entries results Hf _ IH]; cbn [List.concat].
  - split; [intros []|intros (_ & _ & [] & _)].
  - rewrite in_app_iff, IH. split.
    + intros [Hp|(entry' & found' & Hin & Hf' & Hp)].
      * exists entry, found. split; [now left|auto].
      * exists entry', found'. split; [now right|auto].
    + intros (entry' & found' & [<-|Hin] & Hf' & Hp).
      * left. rewrite Hf in Hf'. now injection Hf' as ->.
      * right. eauto.
Qed.

(** Every path found below an entry is the path of a file whose name passed
    the filter. *)
Lemma filesOfEntry_passed (filter : FileFilter) :
  forall (entry : Dirent) (dir : jsstring) (found : list jsstring) (p : jsstring),
    filesOfEntry dir filter entry = Ok found ->
    In p found ->
    exists d name, p = pathJoin d name /\ filter name = true.
Proof.
  induction entry as [name|name e|name entries IH] using Dirent_nested_ind;
    intros dir found p H Hp; cbn [filesOfEntry] in H.
  - injection H as <-. destruct (filter name) eqn:E; [|destruct Hp].
    destruct Hp as [<-|[]]. exists dir, name. auto.
  - destruct (shouldSkipDirectory name); [|discriminate H].
    injection H as <-. destruct Hp.
  - destruct (shouldSkipDirectory name); [injection H as <-; destruct Hp|].
    cbn [bind] in H. apply bind_Ok in H as (results & Hr & H). injection H as <-.
    apply (found_below _ _ _ _ Hr) in Hp as (entry & found & Hin & Hf & Hp).
    rewrite Forall_forall in IH. exact (IH entry Hin _ _ _ Hf Hp).
Qed.

End FileFilter.

(** C10. Whatever the include and exclude patterns, a filter that
    [createFileFilter] returns rejects every file name that does not end in
    ".ts", and every path that the file discovery returns is the path of a
    file whose name ends in ".ts". *)
Theorem file_filter_rejects_other_extensions :
  forall (P : Platform) (includePatterns excludePatterns : list jsstring),
    (forall (filter : FileFilter) (fileName : jsstring),
        createFileFilter includePatterns excludePatterns = Ok filter ->
        endsWith fileName (lit ".ts") = false ->
        filter fileName = false)
    /\ (forall (dir : jsstring) (found : list jsstring) (p : jsstring),
           getTypeScriptFiles dir (Some includePatterns) (Some excludePatterns) = Ok found ->
           In p found ->
           exists d name, p = pathJoin d name /\ endsWith name (lit ".ts") = true).
Proof.
  intros P inc exc.
  assert (Hfilter : forall filter fileName,
             createFileFilter inc exc = Ok filter ->
             endsWith fileName (lit ".ts") = false -> filter fileName = false).
  { intros filter fileName H Hext. unfold createFileFilter in H.
    apply bind_Ok in H as (incs & _ & H).
    apply bind_Ok in H as (excs & _ & H).
    injection H as <-. now rewrite Hext. }
  split; [exact Hfilter|].
  intros dir found p H Hp. unfold getTypeScriptFiles in H. cbn [orDefault] in H.
  apply bind_Ok in H as (filter & Hf & H).
  unfold getFilesRecursiveIO in H. apply bind_Ok in H as (entries & _ & H).
  apply bind_Ok in H as (results & Hr & H). injection H as <-.
  apply (found_below _ _ _ _ Hr) in Hp as (entry & below & _ & Hbelow & Hp).
  apply (filesOfEntry_passed _ _ _ _ _ Hbelow) in Hp as (d & name & -> & Hname).
  exists d, name. split; [reflexivity|].
  destruct (endsWith name (lit ".ts")) eqn:E; [reflexivity|].
  rewrite (Hfilter filter name Hf E) in Hname. discriminate.
Qed.

Lemma file_filter_rejects_other_extensions_witness :
  (exists filter,
      @createFileFilter Sample.host [lit "*"; lit "*.ts"] [] = Ok filter
      /\ endsWith (lit "notes.md") (lit ".ts") = false
      /\ filter (lit "notes.md") = false)
  /\ @getTypeScriptFiles Sample.host (lit "src") (Some [lit "*"; lit "*.ts"]) (Some [])
     = Ok [lit "src/a.ts"; lit "src/b.ts"; lit "src/lib/c.ts"]
  /\ exists d name,
       lit "src/lib/c.ts" = @pathJoin Sample.host d name
       /\ endsWith name (lit ".ts") = true.
Proof.
  pose proof (@file_filter_rejects_other_extensions Sample.host [lit "*"; lit "*.ts"] [])
    as [Hfilter Hfound].
  split; [|split; [reflexivity|]].
  - destruct (@createFileFilter Sample.host [lit "*"; lit "*.ts"] []) as [filter|e] eqn:E;
      [|discriminate E].
    exists filter. split; [reflexivity|]. split; [reflexivity|].
    apply (Hfilter filter (lit "notes.md") eq_refl). reflexivity.
  - apply (Hfound (lit "src") [lit "src/a.ts"; lit "src/b.ts"; lit "src/lib/c.ts"]).
    + reflexivity.
    + right. right. left. reflexivity.
Defined.

(** ** Statistics (C2) *)

(** [Math.round] of a number [v * 2^e] with [e < 0] is the integer [r] with
    [r - 1/2 <= v * 2^e < r + 1/2] (the bounds are scaled by [2^(1-e)]
    below), a zero result keeping the sign. *)
Lemma Math_round_nearest (s : bool) (m : positive) (e : Z) :
  (e < 0)%Z ->
  let v := if s then Z.neg m else Z.pos m in
  exists r : Z,
    Math_round (S754_finite s m e) = (if (r =? 0)%Z then S754_zero s else ofZ r)
    /\ ((2 * r - 1) * 2 ^ (- e) <= 2 * v < (2 * r + 1) * 2 ^ (- e))%Z.
Proof.
  intros He v. exists ((2 * v + 2 ^ (- e)) / 2 ^ (1 - e))%Z. split.
  - unfold Math_round. destruct (Z.leb_spec 0 e); [lia|]. reflexivity.
  - assert (Hpow : (2 ^ (1 - e) = 2 * 2 ^ (- e))%Z).
    { replace (1 - e)%Z with (Z.succ (- e)) by lia. apply Z.pow_succ_r. lia. }
    assert (Hpos : (0 < 2 ^ (- e))%Z) by (apply Z.pow_pos_nonneg; lia).
    pose proof (Z.div_mod (2 * v + 2 ^ (- e)) (2 ^ (1 - e)) ltac:(lia)) as Hdm.
    pose proof (Z.mod_pos_bound (2 * v + 2 ^ (- e)) (2 ^ (1 - e)) ltac:(lia)) as Hb.
    nia.
Qed.

(** C2. For non-negative sizes, [calculateStats] returns the two sizes as
    given; the ratio is exactly 0 when the original size is 0 (nothing is
    divided), and otherwise it is [Math.round] of (1 - compressed/original)
    * 100, evaluated in the arithmetic of JavaScript numbers. *)
Theorem calculateStats_formula :
  forall originalSize compressedSize : Z,
    (0 <= originalSize)%Z -> (0 <= compressedSize)%Z ->
    let stats := calculateStats originalSize compressedSize in
    Utils.originalSize stats = originalSize
    /\ Utils.compressedSize stats = compressedSize
    /\ (originalSize = 0%Z -> ratio stats = ofZ 0)
    /\ ((0 < originalSize)%Z ->
        ratio stats = Math_round (reductionPercent originalSize compressedSize)).
Proof.
  intros o c Ho Hc stats. subst stats. unfold calculateStats. simpl.
  split; [reflexivity|]. split; [reflexivity|]. split.
  - intros ->. reflexivity.
  - intro Hpos. apply Z.ltb_lt in Hpos. now rewrite Hpos.
Qed.

Lemma calculateStats_formula_witness :
  (0 <= 27)%Z /\ (0 <= 22)%Z
  /\ ratio (calculateStats 27 22) = ofZ 19
  /\ ratio (calculateStats 0 22) = ofZ 0.
Proof.
  split; [lia|]. split; [lia|]. split.
  - rewrite (proj2 (proj2 (proj2 (calculateStats_formula 27 22 ltac:(lia) ltac:(lia))))
               ltac:(lia)).
    reflexivity.
  - apply (proj1 (proj2 (proj2 (calculateStats_formula 0 22 ltac:(lia) ltac:(lia))))).
    reflexivity.
Defined.

(** C2, as stated, fails. For the sizes 200 and 185 the percentage is 7.5,
    which rounds to 8; the source computes it in binary64, where it comes
    out as 7.499999999999996 (8444249301319675 * 2^-50), and returns 7. *)
Lemma ratio_is_not_the_rounded_percentage :
  roundedPercent 200 185 = 8%Z
  /\ reductionPercent 200 185 = S754_finite false 8444249301319675 (-50)
  /\ ratio (calculateStats 200 185) = ofZ 7
  /\ ratio (calculateStats 200 185) <> ofZ (roundedPercent 200 185).
Proof.
  split; [reflexivity|]. split; [reflexivity|]. split; [reflexivity|].
  vm_compute. discriminate.
Qed.

(** ** Tags and concatenation (C4) *)

(** C4, as stated, fails: in block mode the formatted output of
    [src/a.ts] under [src] is a line feed followed by the tag, not the
    tag itself. *)
Lemma block_tag_has_a_leading_line_break :
  @formatFileOutput Sample.host Sample.file (lit "src") true
  = [LF] ++ lit "/*=== a.ts ===*/" ++ [LF] ++ lit "const x=1;" ++ [LF]
  /\ @formatFileOutput Sample.host Sample.file (lit "src") true
     <> @blockTagAsSpecified Sample.host Sample.file (lit "src").
Proof. split; [reflexivity|]. vm_compute. discriminate. Qed.

(** C4, amended. In compact mode a file is formatted as
    [/*relativePath*/compressedContent]; in block mode as a line feed, the
    tag [/*=== relativePath ===*/], a line feed, the compressed content and a
    line feed. The outputs are concatenated with nothing between them in
    compact mode and with a line feed between them in block mode. *)
Theorem output_format :
  forall (P : Platform) (file : ProcessedFile) (files : list ProcessedFile)
         (baseDir : jsstring),
    formatFileOutput file baseDir false
    = lit "/*" ++ getRelativePath (Compressor.path file) baseDir ++ lit "*/"
      ++ compressedContent file
    /\ formatFileOutput file baseDir true
       = [LF] ++ lit "/*=== " ++ getRelativePath (Compressor.path file) baseDir
         ++ lit " ===*/" ++ [LF] ++ compressedContent file ++ [LF]
    /\ generateOutput files baseDir false
       = List.concat (map (fun f => formatFileOutput f baseDir false) files)
    /\ generateOutput files baseDir true
       = newlineJoined (map (fun f => formatFileOutput f baseDir true) files).
Proof.
  intros P file files baseDir.
  split; [reflexivity|]. split; [reflexivity|]. split.
  - unfold generateOutput. apply join_empty_concat.
  - unfold generateOutput. apply join_newline.
Qed.

(** ** Batch totals (C3) *)

Section BatchTotals.
Context {P : Platform}.

Lemma aggregateStats_sums (files : list ProcessedFile) :
  totalOriginalSize (aggregateStats files)
  = sumZ (map (fun f => originalSize (Compressor.stats f)) files)
  /\ totalCompressedSize (aggregateStats files)
     = sumZ (map (fun f => compressedSize (Compressor.stats f)) files).
Proof.
  unfold aggregateStats.
  set (step := fun acc file => _).
  assert (H : forall acc,
             totalOriginalSize (fold_left step files acc)
             = (totalOriginalSize acc
                + sumZ (map (fun f => originalSize (Compressor.stats f)) files))%Z
             /\ totalCompressedSize (fold_left step files acc)
                = (totalCompressedSize acc
                   + sumZ (map (fun f => compressedSize (Compressor.stats f)) files))%Z).
  { induction files as [|f t IH]; intro acc; simpl.
    - lia.
    - destruct (IH (step acc f)) as [Ho Hc]. rewrite Ho, Hc.
      subst step. simpl. lia. }
  destruct (H {| totalOriginalSize := 0; totalCompressedSize := 0 |}) as [Ho Hc].
  rewrite Ho, Hc. simpl. lia.
Qed.

Lemma processFile_stats (filePath : jsstring) (file : ProcessedFile) :
  processFile filePath None = Ok file ->
  Compressor.stats file
  = calculateStats (JS.length (originalContent file)) (JS.length (compressedContent file)).
Proof.
  unfold processFile. intro H.
  apply bind_Ok in H as (content & _ & H). injection H as <-. reflexivity.
Qed.

Lemma formatFileOutput_length (file : ProcessedFile) (baseDir : jsstring) (b : bool) :
  (JS.length (compressedContent file) + 4 <= JS.length (formatFileOutput file baseDir b))%Z.
Proof.
  unfold formatFileOutput, JS.length. destruct b; rewrite !length_app; simpl; lia.
Qed.

Lemma tagged_sum (files : list ProcessedFile) (baseDir : jsstring) (b : bool) :
  (sumZ (map (fun f => JS.length (compressedContent f)) files) + 4 * JS.length files
   <= sumZ (map (@JS.length char) (map (fun f => formatFileOutput f baseDir b) files)))%Z.
Proof.
  induction files as [|f t IH]; [cbn; lia|].
  pose proof (formatFileOutput_length f baseDir b) as Hf.
  unfold JS.length in *. cbn [map sumZ fold_right List.length] in *.
  rewrite Nat2Z.inj_succ. unfold sumZ in *. lia.
Qed.

(** C3. When the batch run returns, its file list is not empty; the
    aggregate's compressed size is exactly the length of the concatenated
    output, which exceeds the sum of the files' compressed sizes by at
    least the four characters of each tag's delimiters; and the aggregate's
    original size is the sum of the files' original sizes. *)
Theorem batch_totals_measure_the_output :
  forall (options : CompressOptions) (result : CompressResult),
    compressTypeScriptFiles options = Ok result ->
    files result <> []
    /\ compressedSize (totalStats result) = JS.length (output result)
    /\ originalSize (totalStats result)
       = sumZ (map (fun f => originalSize (Compressor.stats f)) (files result))
    /\ (sumZ (map (fun f => compressedSize (Compressor.stats f)) (files result))
        + 4 * JS.length (files result)
        <= compressedSize (totalStats result))%Z
    /\ compressedSize (totalStats result)
       <> sumZ (map (fun f => compressedSize (Compressor.stats f)) (files result)).
Proof.
  intros options result H. unfold compressTypeScriptFiles in H.
  apply bind_Ok in H as (paths & _ & H).
  destruct (JS.length paths =? 0)%Z eqn:Hlen; [discriminate|].
  apply bind_Ok in H as (processed & Htr & H).
  injection H as <-. simpl.
  apply traverse_Ok in Htr.
  assert (Hne : processed <> []).
  { intros ->. inversion Htr; subst. discriminate. }
  assert (Hstats : map (fun f => compressedSize (Compressor.stats f)) processed
                   = map (fun f => JS.length (compressedContent f)) processed).
  { clear Hne Hlen. induction Htr as [|p f ps fs Hf _ IH]; simpl; [reflexivity|].
    rewrite IH. now rewrite (processFile_stats p f Hf). }
  assert (Hle : (sumZ (map (fun f => compressedSize (Compressor.stats f)) processed)
                 + 4 * JS.length processed
                 <= JS.length (generateOutput processed (targetDir options)
                                 (orDefault (preserveStructure options) false)))%Z).
  { rewrite Hstats. unfold generateOutput.
    eapply Z.le_trans; [apply tagged_sum|apply join_length_ge]. }
  split; [assumption|]. split; [reflexivity|].
  split; [apply aggregateStats_sums|]. split; [assumption|].
  assert (0 < JS.length processed)%Z.
  { destruct processed; [congruence|]. unfold JS.length.
    cbn [List.length]. rewrite Nat2Z.inj_succ. lia. }
  lia.
Qed.

End BatchTotals.

Lemma batch_totals_measure_the_output_witness :
  exists result,
    @compressTypeScriptFiles Sample.host (Sample.options "src" false) = Ok result
    /\ output result
       = lit "/*a.ts*/import{foo}from 'bar';/*b.ts*/const x=1;/*lib/c.ts*/export type T={a:string};"
    /\ compressedSize (totalStats result) = JS.length (output result)
    /\ compressedSize (totalStats result) = 85%Z
    /\ originalSize (totalStats result) = 76%Z.
Proof.
  destruct (@compressTypeScriptFiles Sample.host (Sample.options "src" false))
    as [result|e] eqn:E; [|discriminate E].
  exists result. split; [reflexivity|].
  pose proof (@batch_totals_measure_the_output Sample.host
                (Sample.options "src" false) result E) as (_ & Hc & _).
  vm_compute in E. injection E as <-.
  split; [reflexivity|]. split; [exact Hc|]. split; reflexivity.
Defined.

(** ** Matching and scanning *)

Section Matching.

Lemma after_app (prev : option char) (a b : jsstring) :
  after prev (a ++ b) = after (after prev a) b.
Proof. unfold after. apply fold_left_app. Qed.

Lemma after_cons (prev : option char) (c : char) (w : jsstring) :
  after prev (c :: w) = after (Some c) w.
Proof. reflexivity. Qed.

(** A successful repetition read some run [w] of the class and the
    continuation succeeded after it. *)
Lemma star_sound (p : char -> bool) (k : option char -> jsstring -> nat -> outcome) :
  forall s prev n res,
    star p k prev s n = Some res ->
    exists w t,
      s = w ++ t /\ Forall (fun c => p c = true) w
      /\ k (after prev w) t (List.length w + n)%nat = Some res.
Proof.
  induction s as [|c s IH]; intros prev n res H; simpl in H.
  - exists [], []. auto.
  - destruct (p c) eqn:Hc.
    + destruct (star p k (Some c) s (S n)) as [m|] eqn:E.
      * injection H as <-. apply IH in E as (w & t & -> & Hw & Hk).
        exists (c :: w), t. repeat split; auto.
        simpl. now rewrite <- plus_n_Sm in Hk.
      * exists [], (c :: s). auto.
    + exists [], (c :: s). auto.
Qed.

(** When the continuation cannot start on a character of the class, the
    repetition reads the whole run. *)
Lemma star_maximal (p : char -> bool) (k : option char -> jsstring -> nat -> outcome) :
  (forall c t prev n, p c = true -> k prev (c :: t) n = None) ->
  forall s prev n,
    star p k prev s n
    = k (after prev (takeWhile p s)) (dropWhile p s) (List.length (takeWhile p s) + n)%nat.
Proof.
  intros Hk. induction s as [|c s IH]; intros prev n; simpl; auto.
  destruct (p c) eqn:Hc; simpl; auto.
  rewrite IH, <- plus_n_Sm.
  destruct (k _ _ _) eqn:E; auto.
Qed.

(** When the continuation always succeeds, the repetition reads the whole
    run as well. *)
Lemma star_greedy (p : char -> bool) (k : option char -> jsstring -> nat -> outcome) :
  (forall prev t n, k prev t n <> None) ->
  forall s prev n,
    star p k prev s n
    = k (after prev (takeWhile p s)) (dropWhile p s) (List.length (takeWhile p s) + n)%nat.
Proof.
  intros Hk. induction s as [|c s IH]; intros prev n; simpl; auto.
  destruct (p c) eqn:Hc; simpl; auto.
  rewrite IH, <- plus_n_Sm.
  destruct (k _ _ _) eqn:E; auto. now apply Hk in E.
Qed.

(** A match reads a prefix of the input, and a consuming expression reads
    at least one character. *)
Lemma run_consumes (r : regex) :
  forall prev s n g n' g',
    run r prev s n g = Some (n', g') ->
    exists m t,
      s = m ++ t /\ n' = (n + List.length m)%nat
      /\ (consuming r = true -> m <> []).
Proof.
  induction r as [|x r IH]; intros prev s n g n' g' H; simpl in H.
  - injection H as <- <-. exists [], s.
    split; [reflexivity|]. split; [simpl; lia|]. discriminate.
  - destruct x.
    + destruct s as [|y t]; [discriminate|].
      destruct (y =? c)%N; [|discriminate].
      apply IH in H as (m & t' & -> & -> & _).
      exists (y :: m), t'.
      split; [reflexivity|]. split; [simpl; lia|]. discriminate.
    + destruct s as [|y t]; [discriminate|].
      destruct (p y); [|discriminate].
      apply IH in H as (m & t' & -> & -> & _).
      exists (y :: m), t'.
      split; [reflexivity|]. split; [simpl; lia|]. discriminate.
    + apply star_sound in H as (w & t & -> & _ & H).
      apply IH in H as (m & t' & -> & -> & Hm).
      exists (w ++ m), t'. rewrite length_app, <- app_assoc.
      split; [reflexivity|]. split; [lia|].
      intros Hc E. apply app_eq_nil in E as [_ E]. now apply Hm.
    + destruct s as [|y t]; [discriminate|].
      destruct (p y); [|discriminate].
      apply star_sound in H as (w & t' & -> & _ & H).
      apply IH in H as (m & t'' & -> & -> & _).
      exists (y :: w ++ m), t''.
      split; [simpl; now rewrite app_assoc|].
      split; [simpl; rewrite length_app; lia|]. discriminate.
    + destruct (atLineStart prev); [|discriminate]. eauto.
    + destruct (atLineEnd s); [|discriminate]. eauto.
    + eauto.
    + eauto.
Qed.

Lemma replaceFrom_skip (r : regex) (tpl : template) :
  forall m t prev,
    replaceFrom r tpl (List.length m) prev (m ++ t)
    = match m with
      | [] => replaceFrom r tpl 0 prev t
      | _ :: _ => replaceFrom r tpl 0 (after prev m) t
      end.
Proof.
  induction m as [|c m IH]; intros t prev; [reflexivity|].
  simpl. rewrite IH. destruct m; reflexivity.
Qed.

(** The replacement by a consuming expression follows a scan. *)
Lemma replaceFrom_Scan (r : regex) (tpl : template) :
  consuming r = true ->
  forall s prev, Scan r tpl prev s (replaceFrom r tpl 0 prev s).
Proof.
  intros Hr.
  assert (Hend : forall prev, exec r prev [] = None).
  { intro prev. destruct (exec r prev []) as [[n g]|] eqn:E; auto.
    apply run_consumes in E as (m & t & Hs & _ & Hm).
    symmetry in Hs. apply app_eq_nil in Hs as [-> _]. now destruct Hm. }
  assert (H : forall n s prev, (List.length s <= n)%nat ->
                               Scan r tpl prev s (replaceFrom r tpl 0 prev s)).
  { induction n as [|n IH]; intros s prev Hn.
    - destruct s; [|simpl in Hn; lia]. simpl. rewrite Hend. constructor.
    - destruct s as [|c t]; [simpl; rewrite Hend; constructor|].
      simpl. destruct (exec r prev (c :: t)) as [[k g]|] eqn:E.
      + pose proof E as E'.
        apply run_consumes in E' as (m & t' & Hs & -> & Hm).
        destruct m as [|c' m]; [now destruct Hm|].
        simpl in Hs. injection Hs as <- ->. simpl.
        rewrite replaceFrom_skip.
        replace (match m with [] => _ | _ :: _ => _ end)
          with (replaceFrom r tpl 0 (after (Some c) m) t') by (destruct m; reflexivity).
        apply Scan_match; [exact E|].
        apply IH. simpl in Hn. rewrite length_app in Hn. lia.
      + apply Scan_keep; [exact E|]. apply IH. simpl in Hn. lia. }
  intros s prev. now apply (H (List.length s)).
Qed.

Lemma replace_Scan (r : regex) (tpl : template) (s : jsstring) :
  consuming r = true -> Scan r tpl None s (replace r tpl s).
Proof. intro Hr. now apply replaceFrom_Scan. Qed.

End Matching.

(** ** What a match of each rule looks like

    For each kind of rule of the table: the matched text [M], what follows
    it, and the text [X] that replaces it. *)

Section Shapes.

Lemma run_str (a : jsstring) (r : regex) :
  forall prev s n g res,
    run (map Char a ++ r) prev s n g = Some res ->
    exists t, s = a ++ t /\ run r (after prev a) t (List.length a + n)%nat g = Some res.
Proof.
  induction a as [|x a IH]; simpl; intros prev s n g res H; [eauto|].
  destruct s as [|c t]; [discriminate|].
  destruct (N.eqb_spec c x) as [->|]; [|discriminate].
  apply IH in H as (t' & -> & H).
  exists t'. split; [reflexivity|]. now rewrite plus_n_Sm.
Qed.

Lemma substring_middle (a m b : jsstring) :
  substring (a ++ m ++ b) (List.length a, (List.length a + List.length m)%nat) = m.
Proof.
  unfold substring. simpl.
  rewrite skipn_app, skipn_all, Nat.sub_diag. simpl.
  replace (List.length a + List.length m - List.length a)%nat with (List.length m) by lia.
  rewrite firstn_app, firstn_all, Nat.sub_diag. simpl. apply app_nil_r.
Qed.

Lemma substring_at (a m b : jsstring) (i j : nat) :
  i = List.length a -> j = (i + List.length m)%nat ->
  substring (a ++ m ++ b) (i, j) = m.
Proof. intros -> ->. apply substring_middle. Qed.

Lemma firstn_exact (m rest : jsstring) : firstn (List.length m) (m ++ rest) = m.
Proof. rewrite firstn_app, firstn_all, Nat.sub_diag. simpl. apply app_nil_r. Qed.

(** [/\n\s*\n/g -> '\n'] *)
Lemma shape_blank_lines prev s n g :
  exec [Char LF; Star isSpace; Char LF] prev s = Some (n, g) ->
  exists w rest,
    s = (LF :: w ++ [LF]) ++ rest /\ allSpace w
    /\ n = List.length (LF :: w ++ [LF]).
Proof.
  unfold exec. simpl. intro H.
  destruct s as [|c t]; [discriminate|].
  destruct (N.eqb_spec c LF) as [->|]; [|discriminate].
  apply star_sound in H as (w & t' & -> & Hw & H).
  destruct t' as [|c' rest]; [discriminate|].
  destruct (N.eqb_spec c' LF) as [->|]; [|discriminate].
  injection H as <- _.
  exists w, rest. split; [simpl; now rewrite <- app_assoc|].
  split; [exact Hw|]. simpl. rewrite length_app. simpl. lia.
Qed.

(** [/^\s+/gm -> ''] *)
Lemma shape_leading prev s n g :
  exec [Bol; Plus isSpace] prev s = Some (n, g) ->
  atLineStart prev = true
  /\ exists c w rest,
       s = (c :: w) ++ rest /\ allSpace (c :: w) /\ n = List.length (c :: w).
Proof.
  unfold exec. simpl. intro H.
  destruct (atLineStart prev); [|discriminate]. split; [reflexivity|].
  destruct s as [|c t]; [discriminate|].
  destruct (isSpace c) eqn:Hc; [|discriminate].
  apply star_sound in H as (w & rest & -> & Hw & H).
  injection H as <- _.
  exists c, w, rest. split; [reflexivity|].
  split; [constructor; assumption|]. simpl. lia.
Qed.

(** [/\s+$/gm -> ''] *)
Lemma shape_trailing prev s n g :
  exec [Plus isSpace; Eol] prev s = Some (n, g) ->
  exists c w rest,
    s = (c :: w) ++ rest /\ allSpace (c :: w) /\ atLineEnd rest = true
    /\ n = List.length (c :: w).
Proof.
  unfold exec. simpl. intro H.
  destruct s as [|c t]; [discriminate|].
  destruct (isSpace c) eqn:Hc; [|discriminate].
  apply star_sound in H as (w & rest & -> & Hw & H).
  destruct (atLineEnd rest) eqn:He; [|discriminate].
  injection H as <- _.
  exists c, w, rest. split; [reflexivity|].
  split; [constructor; assumption|]. split; [exact He|]. simpl. lia.
Qed.

(** [/\s*([{}:;,=()[\]<>])\s*/g -> '$1'] *)
Lemma shape_punctuation prev s n g :
  exec [Star isSpace; GroupOpen; Class isPunct; GroupClose; Star isSpace] prev s
  = Some (n, g) ->
  exists w1 p w2 rest,
    s = (w1 ++ p :: w2) ++ rest /\ allSpace w1 /\ isPunct p = true /\ allSpace w2
    /\ n = List.length (w1 ++ p :: w2)
    /\ expand [Ref1] s g = [p].
Proof.
  unfold exec. simpl. intro H.
  apply star_sound in H as (w1 & t & -> & Hw1 & H).
  destruct t as [|p t]; [discriminate|].
  destruct (isPunct p) eqn:Hp; [|discriminate].
  apply star_sound in H as (w2 & rest & -> & Hw2 & H).
  injection H as <- <-.
  exists w1, p, w2, rest. split; [now rewrite <- app_assoc|].
  split; [exact Hw1|]. split; [exact Hp|]. split; [exact Hw2|].
  split; [rewrite length_app; simpl; lia|].
  unfold expand. simpl. rewrite app_nil_r, Nat.add_0_r.
  change (p :: w2 ++ rest) with ([p] ++ w2 ++ rest).
  replace (S (List.length w1)) with (List.length w1 + List.length [p])%nat by (simpl; lia).
  apply substring_middle.
Qed.

(** [/a\s*b/g -> 'ab'], for [import {], [} from] and [export {] *)
Lemma shape_adjacent (a b : jsstring) (x : jsstring) prev s n g :
  exec (map Char a ++ Star isSpace :: map Char b) prev s = Some (n, g) ->
  exists w rest,
    s = (a ++ w ++ b) ++ rest /\ allSpace w
    /\ n = List.length (a ++ w ++ b)
    /\ expand [Lit x] s g = x.
Proof.
  unfold exec. intro H.
  apply run_str in H as (t & -> & H). simpl in H.
  apply star_sound in H as (w & t' & -> & Hw & H).
  rewrite <- (app_nil_r (map Char b)) in H.
  apply run_str in H as (rest & -> & H). simpl in H. injection H as <- _.
  exists w, rest. split; [now rewrite <- !app_assoc|].
  split; [exact Hw|]. split; [rewrite !length_app; lia|].
  unfold expand. simpl. apply app_nil_r.
Qed.

(** [/a\s+b/g -> 'a b'], for [export type], [export const], [export enum]
    and [export interface] *)
Lemma shape_spaced (a b : jsstring) (x : jsstring) prev s n g :
  exec (map Char a ++ Plus isSpace :: map Char b) prev s = Some (n, g) ->
  exists c w rest,
    s = (a ++ (c :: w) ++ b) ++ rest /\ allSpace (c :: w)
    /\ n = List.length (a ++ (c :: w) ++ b)
    /\ expand [Lit x] s g = x.
Proof.
  unfold exec. intro H.
  apply run_str in H as (t & -> & H). simpl in H.
  destruct t as [|c t]; [discriminate|].
  destruct (isSpace c) eqn:Hc; [|discriminate].
  apply star_sound in H as (w & t' & -> & Hw & H).
  rewrite <- (app_nil_r (map Char b)) in H.
  apply run_str in H as (rest & -> & H). simpl in H. injection H as <- _.
  exists c, w, rest. split; [rewrite <- !app_assoc; reflexivity|].
  split; [constructor; assumption|].
  split; [rewrite !length_app; simpl; lia|].
  unfold expand. simpl. apply app_nil_r.
Qed.

(** [/type\s+(\w+)\s*=/g -> 'type $1='] *)
Lemma shape_type_alias prev s n g :
  exec (str "type" ++ [Plus isSpace; GroupOpen; Plus isWord; GroupClose; Star isSpace;
                       Char (chr "=")]) prev s = Some (n, g) ->
  exists c w d W w' rest,
    s = (lit "type" ++ (c :: w) ++ (d :: W) ++ w' ++ lit "=") ++ rest
    /\ allSpace (c :: w) /\ Forall (fun x => isWord x = true) (d :: W) /\ allSpace w'
    /\ n = List.length (lit "type" ++ (c :: w) ++ (d :: W) ++ w' ++ lit "=")
    /\ expand [Lit (lit "type "); Ref1; Lit (lit "=")] s g
       = lit "type " ++ (d :: W) ++ lit "=".
Proof.
  unfold exec, str. intro H.
  apply run_str in H as (t & -> & H). simpl in H.
  destruct t as [|c t]; [discriminate|].
  destruct (isSpace c) eqn:Hc; [|discriminate].
  apply star_sound in H as (w & t' & -> & Hw & H). simpl in H.
  destruct t' as [|d t']; [discriminate|].
  destruct (isWord d) eqn:Hd; [|discriminate].
  apply star_sound in H as (W & t'' & -> & HW & H). simpl in H.
  apply star_sound in H as (w' & t3 & -> & Hw' & H).
  destruct t3 as [|e rest]; [discriminate|].
  destruct (N.eqb_spec e 61) as [->|]; [|discriminate].
  injection H as <- <-.
  exists c, w, d, W, w', rest.
  split; [simpl; rewrite <- !app_assoc; simpl; now rewrite <- !app_assoc|].
  split; [constructor; assumption|]. split; [constructor; assumption|].
  split; [exact Hw'|].
  split; [simpl; rewrite !length_app; simpl; rewrite !length_app; simpl; lia|].
  unfold expand. cbn [flat_map]. rewrite app_nil_r. f_equal. f_equal.
  apply (substring_at (lit "type" ++ c :: w) (d :: W) (w' ++ 61%N :: rest));
    simpl; lia.
Qed.

(** [/:\s*([A-Za-z])/g -> ':$1'] *)
Lemma shape_annotation prev s n g :
  exec [Char (chr ":"); Star isSpace; GroupOpen; Class isAlpha; GroupClose] prev s
  = Some (n, g) ->
  exists w a rest,
    s = (lit ":" ++ w ++ [a]) ++ rest /\ allSpace w /\ isAlpha a = true
    /\ n = List.length (lit ":" ++ w ++ [a])
    /\ expand [Lit (lit ":"); Ref1] s g = lit ":" ++ [a].
Proof.
  unfold exec. simpl. intro H.
  destruct s as [|c t]; [discriminate|].
  destruct (N.eqb_spec c 58) as [->|]; [|discriminate].
  apply star_sound in H as (w & t' & -> & Hw & H).
  destruct t' as [|a rest]; [discriminate|].
  destruct (isAlpha a) eqn:Ha; [|discriminate].
  injection H as <- <-.
  exists w, a, rest.
  split; [simpl; now rewrite <- app_assoc|].
  split; [exact Hw|]. split; [exact Ha|].
  split; [simpl; rewrite length_app; simpl; lia|].
  unfold expand. cbn [flat_map]. rewrite app_nil_r. f_equal.
  apply (substring_at (58%N :: w) [a] rest); simpl; lia.
Qed.

End Shapes.

(** ** The normalizer only touches white space (C1) *)

Section NonSpace.

Lemma nonSpace_app (a b : jsstring) : nonSpace (a ++ b) = nonSpace a ++ nonSpace b.
Proof. apply filter_app. Qed.

Lemma nonSpace_cons (c : char) (s : jsstring) :
  nonSpace (c :: s) = if isSpace c then nonSpace s else c :: nonSpace s.
Proof. unfold nonSpace. simpl. now destruct (isSpace c). Qed.

Lemma nonSpace_allSpace (w : jsstring) : allSpace w -> nonSpace w = [].
Proof.
  induction 1 as [|c w Hc _ IH]; [reflexivity|].
  now rewrite nonSpace_cons, Hc.
Qed.

Lemma nonSpace_dropWhile (s : jsstring) : nonSpace (dropWhile isSpace s) = nonSpace s.
Proof.
  induction s as [|c s IH]; [reflexivity|]. cbn [dropWhile].
  destruct (isSpace c) eqn:Hc; [|reflexivity].
  now rewrite nonSpace_cons, Hc.
Qed.

Lemma nonSpace_rev (s : jsstring) : nonSpace (rev s) = rev (nonSpace s).
Proof. unfold nonSpace. apply filter_rev. Qed.

Lemma nonSpace_trim (s : jsstring) : nonSpace (trim s) = nonSpace s.
Proof.
  unfold trim, trimEnd, trimStart.
  rewrite nonSpace_rev, nonSpace_dropWhile, nonSpace_rev, rev_involutive.
  apply nonSpace_dropWhile.
Qed.

Lemma nonSpace_split (s : jsstring) :
  List.concat (map nonSpace (split LF s)) = nonSpace s.
Proof.
  induction s as [|c s IH]; [reflexivity|]. cbn [split].
  destruct (N.eqb_spec c LF) as [->|Hne].
  - cbn [map List.concat]. rewrite IH. reflexivity.
  - rewrite (nonSpace_cons c s), <- IH.
    destruct (split LF s) as [|l ls]; cbn [map List.concat].
    + rewrite nonSpace_cons. destruct (isSpace c); reflexivity.
    + rewrite nonSpace_cons. destruct (isSpace c); reflexivity.
Qed.

Lemma processLines_nonSpace (content : jsstring) :
  nonSpace (processLines content) = nonSpace content.
Proof.
  unfold processLines. rewrite join_empty_concat.
  assert (H : forall lines,
             nonSpace (List.concat (filter (fun line => (0 <? JS.length line)%Z)
                                           (map trim lines)))
             = List.concat (map nonSpace lines)).
  { induction lines as [|l ls IH]; [reflexivity|].
    cbn [map filter List.concat].
    destruct (0 <? JS.length (trim l))%Z eqn:E; cbn [List.concat].
    - rewrite nonSpace_app, IH. now rewrite nonSpace_trim.
    - rewrite IH. rewrite <- (nonSpace_trim l).
      destruct (trim l); [reflexivity|]. discriminate. }
  rewrite H. apply nonSpace_split.
Qed.

(** A scan whose replacements keep the characters that are not white space
    keeps them overall. *)
Lemma Scan_nonSpace (r : regex) (tpl : template) :
  (forall prev s n g,
      exec r prev s = Some (n, g) ->
      nonSpace (expand tpl s g) = nonSpace (firstn n s)) ->
  forall prev s o, Scan r tpl prev s o -> nonSpace o = nonSpace s.
Proof.
  intros Hm prev s o H. induction H as [prev|prev c t o E _ IH|prev c m t o g E _ IH].
  - reflexivity.
  - change (c :: o) with ([c] ++ o). change (c :: t) with ([c] ++ t).
    now rewrite !nonSpace_app, IH.
  - rewrite nonSpace_app, IH, (Hm _ _ _ _ E).
    change (c :: m ++ t) with ((c :: m) ++ t).
    change (S (List.length m)) with (List.length (c :: m)).
    now rewrite firstn_exact, nonSpace_app.
Qed.

Lemma keepsNonSpace_intro (r : regex) (tpl : template) :
  consuming r = true ->
  (forall prev s n g,
      exec r prev s = Some (n, g) ->
      nonSpace (expand tpl s g) = nonSpace (firstn n s)) ->
  keepsNonSpace (r, tpl).
Proof.
  intros Hr Hm s. unfold applyRule.
  eapply Scan_nonSpace; [exact Hm|]. now apply replace_Scan.
Qed.

Lemma rules_keep_nonSpace : Forall keepsNonSpace compressionRules.
Proof.
  unfold compressionRules.
  repeat (apply Forall_cons; [apply keepsNonSpace_intro; [reflexivity|]|]);
    [..|apply Forall_nil]; intros prev s n g H.
  - apply shape_blank_lines in H as (w & rest & -> & Hw & ->).
    rewrite firstn_exact. change (LF :: w ++ [LF]) with ([LF] ++ w ++ [LF]).
    rewrite !nonSpace_app, (nonSpace_allSpace _ Hw). reflexivity.
  - apply shape_leading in H as (_ & c & w & rest & -> & Hw & ->).
    rewrite firstn_exact. now rewrite (nonSpace_allSpace _ Hw).
  - apply shape_trailing in H as (c & w & rest & -> & Hw & _ & ->).
    rewrite firstn_exact. now rewrite (nonSpace_allSpace _ Hw).
  - apply shape_punctuation in H as (w1 & p & w2 & rest & -> & Hw1 & _ & Hw2 & -> & ->).
    rewrite firstn_exact. change (p :: w2) with ([p] ++ w2).
    rewrite !nonSpace_app, (nonSpace_allSpace _ Hw1), (nonSpace_allSpace _ Hw2).
    now rewrite app_nil_r.
  - apply (shape_adjacent (lit "import") (lit "{") (lit "import{")) in H
      as (w & rest & -> & Hw & -> & ->).
    rewrite firstn_exact, !nonSpace_app, (nonSpace_allSpace _ Hw). reflexivity.
  - apply (shape_adjacent (lit "}") (lit "from") (lit "}from")) in H
      as (w & rest & -> & Hw & -> & ->).
    rewrite firstn_exact, !nonSpace_app, (nonSpace_allSpace _ Hw). reflexivity.
  - apply (shape_adjacent (lit "export") (lit "{") (lit "export{")) in H
      as (w & rest & -> & Hw & -> & ->).
    rewrite firstn_exact, !nonSpace_app, (nonSpace_allSpace _ Hw). reflexivity.
  - apply (shape_spaced (lit "export") (lit "type") (lit "export type")) in H
      as (c & w & rest & -> & Hw & -> & ->).
    rewrite firstn_exact, !nonSpace_app, (nonSpace_allSpace _ Hw). reflexivity.
  - apply (shape_spaced (lit "export") (lit "const") (lit "export const")) in H
      as (c & w & rest & -> & Hw & -> & ->).
    rewrite firstn_exact, !nonSpace_app, (nonSpace_allSpace _ Hw). reflexivity.
  - apply (shape_spaced (lit "export") (lit "enum") (lit "export enum")) in H
      as (c & w & rest & -> & Hw & -> & ->).
    rewrite firstn_exact, !nonSpace_app, (nonSpace_allSpace _ Hw). reflexivity.
  - apply (shape_spaced (lit "export") (lit "interface") (lit "export interface")) in H
      as (c & w & rest & -> & Hw & -> & ->).
    rewrite firstn_exact, !nonSpace_app, (nonSpace_allSpace _ Hw). reflexivity.
  - apply shape_type_alias in H
      as (c & w & d & W & w' & rest & -> & Hw & _ & Hw' & -> & ->).
    rewrite firstn_exact, !nonSpace_app, (nonSpace_allSpace _ Hw), (nonSpace_allSpace _ Hw').
    reflexivity.
  - apply shape_annotation in H as (w & a & rest & -> & Hw & _ & -> & ->).
    rewrite firstn_exact, !nonSpace_app, (nonSpace_allSpace _ Hw). reflexivity.
Qed.

Lemma fold_rules_nonSpace (rules : list (regex * template)) :
  Forall keepsNonSpace rules ->
  forall s, nonSpace (fold_left applyRule rules s) = nonSpace s.
Proof.
  induction 1 as [|rule rules Hr _ IH]; intro s; simpl; [reflexivity|].
  now rewrite IH, Hr.
Qed.

Lemma advancedCompress_nonSpace (content : jsstring) :
  nonSpace (advancedCompress content) = nonSpace content.
Proof.
  unfold advancedCompress.
  now rewrite processLines_nonSpace, (fold_rules_nonSpace _ rules_keep_nonSpace).
Qed.

End NonSpace.

(** ** Nothing but white space is rewritten

    The rules and the line step leave out white space or put white space in
    its place; they touch no other character and put nothing between two
    characters. *)

Section Reflowing.








Lemma Reflow_nonSpace (s o : jsstring) : Reflow s o -> nonSpace o = nonSpace s.
Proof.
  induction 1 as [|c s o _ IH|c x s o Hc Hx _ IH].
  - reflexivity.
  - now rewrite !nonSpace_cons, IH.
  - now rewrite nonSpace_app, (nonSpace_allSpace _ Hx), nonSpace_cons, Hc, IH.
Qed.



















End Reflowing.





(** ** The import scenario (C5) *)

(** C5, as stated, fails: the import line is rewritten to
    [import{foo}from 'bar';], with the space between [from] and the quote
    kept, and the text [import{foo}from'bar';] does not occur in the output. *)
Lemma import_line_keeps_the_space_after_from :
  advancedCompress (lit "import { foo } from 'bar';") = lit "import{foo}from 'bar';"
  /\ includes (advancedCompress (lit "import { foo } from 'bar';"))
              (lit "import{foo}from'bar';") = false.
Proof. split; vm_compute; reflexivity. Qed.

(** ** Neighbouring characters *)

Section Chains.

Variable ok : char -> char -> bool.

Lemma chain_cons (x : char) (s : jsstring) :
  chain ok (x :: s)
  = match s with [] => true | y :: _ => ok x y end && chain ok s.
Proof. reflexivity. Qed.

Lemma chain_app (a b : jsstring) :
  chain ok (a ++ b)
  = chain ok a && chain ok b
    && match after None a, hd_error b with
       | Some x, Some y => ok x y
       | _, _ => true
       end.
Proof.
  induction a as [|x a IH].
  - simpl. now rewrite andb_true_r.
  - destruct a as [|y a].
    + simpl. destruct b as [|y b]; simpl; [reflexivity|].
      now rewrite andb_comm.
    + change ((x :: y :: a) ++ b) with (x :: (y :: a) ++ b).
      rewrite chain_cons, IH.
      change (after None (x :: y :: a)) with (after None (y :: a)).
      rewrite (chain_cons x (y :: a)). simpl.
      now rewrite !andb_assoc.
Qed.

Lemma chain_tail (x : char) (s : jsstring) : chain ok (x :: s) = true -> chain ok s = true.
Proof. rewrite chain_cons. intro H. now apply andb_prop in H. Qed.

Lemma chain_app_l (a b : jsstring) : chain ok (a ++ b) = true -> chain ok a = true.
Proof.
  rewrite chain_app. intro H.
  apply andb_prop in H as [H _]. now apply andb_prop in H.
Qed.

Lemma chain_app_r (a b : jsstring) : chain ok (a ++ b) = true -> chain ok b = true.
Proof.
  rewrite chain_app. intro H.
  apply andb_prop in H as [H _]. now apply andb_prop in H.
Qed.

Lemma chain_around (prev : option char) (s : jsstring) :
  chain ok (around prev s) = true -> chain ok s = true.
Proof. destruct prev; simpl; [apply chain_tail|auto]. Qed.

End Chains.

Section CharacterClasses.

Lemma after_last (s : jsstring) (c : char) (prev : option char) :
  after prev (s ++ [c]) = Some c.
Proof. now rewrite after_app. Qed.

Lemma after_nonempty (prev prev' : option char) (s : jsstring) :
  s <> [] -> after prev s = after prev' s.
Proof. destruct s; [congruence|reflexivity]. Qed.

Lemma space_not_punct (c : char) : isSpace c = true -> isPunct c = false.
Proof.
  unfold isPunct. intro H.
  destruct (existsb (N.eqb c) (lit "{}:;,=()[]<>")) eqn:E; [|reflexivity].
  apply existsb_exists in E as (x & Hx & Hc). apply N.eqb_eq in Hc. subst x.
  simpl in Hx.
  repeat (destruct Hx as [<-|Hx]; [discriminate H|]). destruct Hx.
Qed.

Lemma word_not_space (c : char) : isWord c = true -> isSpace c = false.
Proof.
  unfold isWord, isAlpha, isSpace, isWhiteSpace, isLineTerminator. intro H.
  repeat match goal with
         | |- context [(?a =? ?b)%N] => destruct (N.eqb_spec a b); [subst; discriminate H|]
         end.
  simpl.
  destruct (N.leb_spec 8192 c); [|reflexivity].
  destruct (N.leb_spec c 8202); [|reflexivity].
  exfalso.
  repeat match type of H with
         | context [(?a <=? ?b)%N] => destruct (N.leb_spec a b); try lia
         end.
  simpl in H. destruct (N.eqb_spec c 95); [lia|discriminate].
Qed.

Lemma word_not_punct (c : char) : isWord c = true -> isPunct c = false.
Proof.
  unfold isPunct. intro H.
  destruct (existsb (N.eqb c) (lit "{}:;,=()[]<>")) eqn:E; [|reflexivity].
  apply existsb_exists in E as (x & Hx & Hc). apply N.eqb_eq in Hc. subst x.
  simpl in Hx.
  repeat (destruct Hx as [<-|Hx]; [discriminate H|]). destruct Hx.
Qed.

Lemma alpha_is_word (c : char) : isAlpha c = true -> isWord c = true.
Proof. unfold isWord. now intros ->. Qed.

Lemma lineTerminator_is_space (c : char) : isLineTerminator c = true -> isSpace c = true.
Proof. unfold isSpace. intros ->. apply orb_true_r. Qed.

Lemma plain_lineTerminator (c : char) :
  plainSpace c = true -> isLineTerminator c = true -> False.
Proof.
  unfold plainSpace. intros Hp Hl.
  rewrite (lineTerminator_is_space c Hl) in Hp. simpl in Hp.
  apply N.eqb_eq in Hp. subst c. discriminate Hl.
Qed.

End CharacterClasses.

(** ** The punctuation rule leaves no white space next to punctuation *)

Section Punctuation.

Lemma takeWhile_dropWhile (p : char -> bool) (s : jsstring) :
  takeWhile p s ++ dropWhile p s = s.
Proof.
  induction s as [|c s IH]; [reflexivity|]. simpl.
  destruct (p c); simpl; [now rewrite IH|reflexivity].
Qed.

Lemma dropWhile_head (p : char -> bool) (s : jsstring) (c : char) (t : jsstring) :
  dropWhile p s = c :: t -> p c = false.
Proof.
  induction s as [|x s IH]; simpl; [discriminate|].
  destruct (p x) eqn:Hx; [exact IH|]. intro H. injection H as <- _. exact Hx.
Qed.

Lemma dropWhile_fixed (p : char -> bool) (s : jsstring) :
  match s with c :: _ => p c = false | [] => True end -> dropWhile p s = s.
Proof. destruct s as [|c s]; simpl; [reflexivity|]. now intros ->. Qed.

Lemma app_inv_length (a a' b b' : jsstring) :
  a ++ b = a' ++ b' -> List.length a = List.length a' -> a = a' /\ b = b'.
Proof.
  revert a'. induction a as [|x a IH]; intros [|y a'] H Hl; try discriminate Hl.
  - auto.
  - simpl in H. injection H as -> H. injection Hl as Hl.
    destruct (IH a' H Hl) as [-> ->]. auto.
Qed.

Lemma punct_not_space (c : char) : isPunct c = true -> isSpace c = false.
Proof.
  intro H. destruct (isSpace c) eqn:E; [|reflexivity].
  apply space_not_punct in E. congruence.
Qed.

(** The match at a position, exactly: the white space from there, one
    punctuation character, and all the white space after it. *)
Lemma exec_punctuation (prev : option char) (s : jsstring) :
  exec punctuationRule prev s
  = match dropWhile isSpace s with
    | p :: t =>
        if isPunct p
        then Some (List.length (takeWhile isSpace s ++ p :: takeWhile isSpace t),
                   (List.length (takeWhile isSpace s),
                    S (List.length (takeWhile isSpace s))))
        else None
    | [] => None
    end.
Proof.
  unfold exec. simpl. rewrite star_maximal.
  - destruct (dropWhile isSpace s) as [|p t]; [reflexivity|].
    destruct (isPunct p); [|reflexivity].
    rewrite star_greedy; [|discriminate].
    rewrite length_app. simpl. rewrite !Nat.add_0_r. f_equal. f_equal. lia.
  - intros c t prev' n Hc. now rewrite (space_not_punct c Hc).
Qed.

Lemma punctuation_Scan (prev : option char) (s o : jsstring) :
  Scan punctuationRule [Ref1] prev s o ->
  chain tight o = true
  /\ hd_error o
     = match dropWhile isSpace s with
       | p :: _ => if isPunct p then Some p else hd_error s
       | [] => hd_error s
       end.
Proof.
  intro H. induction H as [prev|prev c t o E _ [IHc IHh]|prev c m t o g E _ [IHc IHh]].
  - auto.
  - rewrite exec_punctuation in E.
    assert (Hhd : match dropWhile isSpace (c :: t) with
                  | p :: _ => if isPunct p then Some p else hd_error (c :: t)
                  | [] => hd_error (c :: t)
                  end = Some c).
    { destruct (dropWhile isSpace (c :: t)) as [|p t']; [reflexivity|].
      destruct (isPunct p); [discriminate|reflexivity]. }
    split; [|symmetry; exact Hhd].
    rewrite chain_cons, IHc, andb_true_r.
    destruct o as [|y o]; [reflexivity|]. simpl in IHh.
    unfold tight.
    destruct (isSpace c) eqn:Hc.
    + simpl in E. rewrite Hc in E.
      rewrite (space_not_punct c Hc). rewrite andb_true_r. simpl.
      destruct (isPunct y) eqn:Hy; [|reflexivity]. exfalso.
      destruct (dropWhile isSpace t) as [|p t'] eqn:D.
      * destruct t as [|x t]; [discriminate|].
        simpl in IHh. injection IHh as <-.
        simpl in D. rewrite (punct_not_space y Hy) in D. discriminate.
      * destruct (isPunct p) eqn:Hp; [discriminate|].
        destruct t as [|x t]; [discriminate|].
        simpl in IHh. injection IHh as <-.
        simpl in D. rewrite (punct_not_space y Hy) in D.
        injection D as <- _. congruence.
    + simpl in E. rewrite Hc in E.
      destruct (isPunct c); [discriminate|]. reflexivity.
  - rewrite exec_punctuation in E.
    pose proof (takeWhile_dropWhile isSpace (c :: m ++ t)) as Hs.
    remember (takeWhile isSpace (c :: m ++ t)) as tw eqn:Htw.
    destruct (dropWhile isSpace (c :: m ++ t)) as [|p t2] eqn:D; [discriminate|].
    destruct (isPunct p) eqn:Hp; [|discriminate].
    injection E as En <-.
    assert (Hx : expand [Ref1] (c :: m ++ t) (List.length tw, S (List.length tw)) = [p]).
    { unfold expand. cbn [flat_map]. rewrite app_nil_r.
      rewrite <- Hs.
      apply (substring_at tw [p] t2); simpl; lia. }
    rewrite Hx.
    assert (Ht : t = dropWhile isSpace t2).
    { rewrite <- (takeWhile_dropWhile isSpace t2) in Hs.
      change (c :: m ++ t) with ((c :: m) ++ t) in Hs.
      change (p :: takeWhile isSpace t2 ++ dropWhile isSpace t2)
        with ((p :: takeWhile isSpace t2) ++ dropWhile isSpace t2) in Hs.
      rewrite app_assoc in Hs. symmetry in Hs.
      apply app_inv_length in Hs as [_ Hs]; [exact Hs|].
      simpl. exact (eq_sym En). }
    assert (Hnext : match t with x :: _ => isSpace x = false | [] => True end).
    { destruct t as [|x t']; [exact I|].
      symmetry in Ht. now apply dropWhile_head in Ht. }
    rewrite (dropWhile_fixed isSpace t Hnext) in IHh.
    split; [|reflexivity].
    change ([p] ++ o) with (p :: o). rewrite chain_cons, IHc, andb_true_r.
    destruct o as [|y o]; [reflexivity|].
    assert (Hy : isSpace y = false).
    { destruct t as [|x t']; [destruct (isPunct y); discriminate IHh|].
      simpl in IHh. destruct (isPunct x); injection IHh as <-; exact Hnext. }
    unfold tight. rewrite (punct_not_space p Hp), Hy, Hp. reflexivity.
Qed.

Lemma punctuation_tight (s : jsstring) :
  chain tight (replace punctuationRule [Ref1] s) = true.
Proof.
  apply (punctuation_Scan None s). now apply replace_Scan.
Qed.

End Punctuation.

(** ** The later rules keep punctuation tight *)

Section KeepsTight.

(** A scan whose replacements keep the first and the last character of what
    they replace, and are well-formed inside, keeps a property of
    neighbours. *)
Lemma Scan_chain (ok : char -> char -> bool) (r : regex) (tpl : template) :
  (forall prev s n g,
      exec r prev s = Some (n, g) ->
      chain ok (firstn n s) = true ->
      chain ok (expand tpl s g) = true
      /\ hd_error (expand tpl s g) = hd_error (firstn n s)
      /\ after None (expand tpl s g) = after None (firstn n s)
      /\ expand tpl s g <> []) ->
  forall prev s o,
    Scan r tpl prev s o -> chain ok s = true ->
    chain ok o = true /\ hd_error o = hd_error s.
Proof.
  intros Hm prev s o H.
  induction H as [prev|prev c t o E _ IH|prev c m t o g E _ IH]; intro Hs.
  - auto.
  - rewrite chain_cons in Hs. apply andb_prop in Hs as [Hc Ht].
    destruct (IH Ht) as [IHc IHh]. split; [|reflexivity].
    rewrite chain_cons, IHc, andb_true_r.
    destruct o as [|y o]; [reflexivity|].
    destruct t as [|x t]; [discriminate IHh|].
    simpl in IHh. injection IHh as ->. exact Hc.
  - change (c :: m ++ t) with ((c :: m) ++ t) in Hs.
    rewrite chain_app in Hs.
    apply andb_prop in Hs as [Hs Hb]. apply andb_prop in Hs as [HM Ht].
    destruct (IH Ht) as [IHc IHh].
    specialize (Hm _ _ _ _ E).
    change (c :: m ++ t) with ((c :: m) ++ t) in Hm.
    change (S (List.length m)) with (List.length (c :: m)) in Hm.
    rewrite firstn_exact in Hm.
    destruct (Hm HM) as (HX & Hhd & Hlast & Hne).
    change (c :: m ++ t) with ((c :: m) ++ t).
    split.
    + rewrite chain_app, HX, IHc, Hlast, IHh. exact Hb.
    + destruct (expand tpl ((c :: m) ++ t) g) as [|x X]; [congruence|].
      simpl in Hhd |- *. exact Hhd.
Qed.

Lemma keepsTight_intro (r : regex) (tpl : template) :
  consuming r = true ->
  (forall prev s n g,
      exec r prev s = Some (n, g) ->
      chain tight (firstn n s) = true ->
      chain tight (expand tpl s g) = true
      /\ hd_error (expand tpl s g) = hd_error (firstn n s)
      /\ after None (expand tpl s g) = after None (firstn n s)
      /\ expand tpl s g <> []) ->
  keepsTight (r, tpl).
Proof.
  intros Hr Hm s Hs. unfold applyRule.
  apply (Scan_chain tight r tpl Hm None s); [now apply replace_Scan|exact Hs].
Qed.

Lemma tight_no_space (x y : char) :
  isSpace x = false -> isSpace y = false -> tight x y = true.
Proof. unfold tight. intros -> ->. now rewrite andb_false_r. Qed.

Lemma words_tight (l : jsstring) :
  Forall (fun x => isWord x = true) l -> chain tight l = true.
Proof.
  induction 1 as [|x l Hx Hl IH]; [reflexivity|].
  rewrite chain_cons, IH, andb_true_r.
  destruct Hl as [|y l Hy _]; [reflexivity|].
  apply tight_no_space; now apply word_not_space.
Qed.

Lemma words_last (d : char) (W : jsstring) :
  Forall (fun x => isWord x = true) (d :: W) ->
  exists x, after None (d :: W) = Some x /\ isWord x = true.
Proof.
  revert d. induction W as [|y W IH]; intros d H.
  - exists d. split; [reflexivity|]. now inversion H.
  - inversion H as [|? ? _ H']; subst. apply (IH y H').
Qed.

Lemma adjacent_keepsTight (a b x : jsstring) :
  a <> [] -> b <> [] ->
  chain tight x = true -> hd_error x = hd_error a ->
  after None x = after None b -> x <> [] ->
  keepsTight (map Char a ++ Star isSpace :: map Char b, [Lit x]).
Proof.
  intros Ha Hb Hx Hhd Hlast Hne.
  apply keepsTight_intro.
  { destruct a; [congruence|reflexivity]. }
  intros prev s n g H _.
  apply (shape_adjacent a b x) in H as (w & rest & -> & _ & -> & ->).
  rewrite firstn_exact.
  split; [exact Hx|]. split.
  - rewrite Hhd. destruct a; [congruence|reflexivity].
  - split; [|exact Hne].
    rewrite Hlast, !after_app. now apply after_nonempty.
Qed.

Lemma spaced_keepsTight (a b x : jsstring) :
  a <> [] -> b <> [] ->
  chain tight x = true -> hd_error x = hd_error a ->
  after None x = after None b -> x <> [] ->
  keepsTight (map Char a ++ Plus isSpace :: map Char b, [Lit x]).
Proof.
  intros Ha Hb Hx Hhd Hlast Hne.
  apply keepsTight_intro.
  { destruct a; [congruence|reflexivity]. }
  intros prev s n g H _.
  apply (shape_spaced a b x) in H as (c & w & rest & -> & _ & -> & ->).
  rewrite firstn_exact.
  split; [exact Hx|]. split.
  - rewrite Hhd. destruct a; [congruence|reflexivity].
  - split; [|exact Hne].
    rewrite Hlast, !after_app. now apply after_nonempty.
Qed.

Lemma later_rules_keep_tight : Forall keepsTight (skipn 4 compressionRules).
Proof.
  unfold compressionRules. cbn [skipn].
  repeat apply Forall_cons; [..|apply Forall_nil].
  - apply (adjacent_keepsTight (lit "import") (lit "{") (lit "import{"));
      (reflexivity || discriminate).
  - apply (adjacent_keepsTight (lit "}") (lit "from") (lit "}from"));
      (reflexivity || discriminate).
  - apply (adjacent_keepsTight (lit "export") (lit "{") (lit "export{"));
      (reflexivity || discriminate).
  - apply (spaced_keepsTight (lit "export") (lit "type") (lit "export type"));
      (reflexivity || discriminate).
  - apply (spaced_keepsTight (lit "export") (lit "const") (lit "export const"));
      (reflexivity || discriminate).
  - apply (spaced_keepsTight (lit "export") (lit "enum") (lit "export enum"));
      (reflexivity || discriminate).
  - apply (spaced_keepsTight (lit "export") (lit "interface") (lit "export interface"));
      (reflexivity || discriminate).
  - apply keepsTight_intro; [reflexivity|]. intros prev s n g H _.
    apply shape_type_alias in H
      as (c & w & d & W & w' & rest & -> & _ & HW & _ & -> & ->).
    rewrite firstn_exact.
    destruct (words_last d W HW) as (x & Hx & Hxw).
    assert (Hd : isWord d = true) by now inversion HW.
    split; [|split; [reflexivity|split; [|discriminate]]].
    + rewrite chain_app, chain_app, (words_tight _ HW), Hx. simpl.
      rewrite (tight_no_space x 61%N);
        [|now apply word_not_space|reflexivity].
      unfold tight. rewrite (word_not_punct d Hd). reflexivity.
    + now rewrite !after_app.
  - apply keepsTight_intro; [reflexivity|]. intros prev s n g H _.
    apply shape_annotation in H as (w & a & rest & -> & _ & Ha & -> & ->).
    rewrite firstn_exact.
    split; [|split; [reflexivity|split; [|discriminate]]].
    + simpl. unfold tight.
      rewrite (word_not_space a (alpha_is_word a Ha)). reflexivity.
    + now rewrite !after_app.
Qed.

End KeepsTight.

(** ** Lines, trimmed and joined *)

Section Lines.

Lemma after_rev (s : jsstring) : after None (rev s) = hd_error s.
Proof.
  destruct s as [|c s]; [reflexivity|]. simpl. apply after_last.
Qed.

Lemma hd_rev (s : jsstring) : hd_error (rev s) = after None s.
Proof. rewrite <- (rev_involutive s) at 2. symmetry. apply after_rev. Qed.

Lemma takeWhile_allSpace (s : jsstring) : allSpace (takeWhile isSpace s).
Proof.
  induction s as [|c s IH]; simpl; [constructor|].
  destruct (isSpace c) eqn:Hc; constructor; assumption.
Qed.

Lemma trimEnd_prefix (s : jsstring) : exists b, s = trimEnd s ++ b.
Proof.
  exists (rev (takeWhile isSpace (rev s))). unfold trimEnd.
  rewrite <- rev_app_distr, takeWhile_dropWhile. symmetry. apply rev_involutive.
Qed.

Lemma trim_chain (ok : char -> char -> bool) (s : jsstring) :
  chain ok s = true -> chain ok (trim s) = true.
Proof.
  intro H. unfold trim.
  destruct (trimEnd_prefix (trimStart s)) as [b Hb].
  apply (chain_app_l ok _ b). rewrite <- Hb.
  apply (chain_app_r ok (takeWhile isSpace s)).
  unfold trimStart. now rewrite takeWhile_dropWhile.
Qed.

Lemma trim_trimmed (s : jsstring) : trimmed (trim s) = true.
Proof.
  unfold trim, trimmed.
  set (u := trimStart s).
  assert (Hu : match u with c :: _ => isSpace c = false | [] => True end).
  { subst u. unfold trimStart. destruct (dropWhile isSpace s) as [|c t] eqn:D; [exact I|].
    now apply dropWhile_head in D. }
  destruct (trimEnd_prefix u) as [b Hb].
  apply andb_true_intro. split.
  - destruct (trimEnd u) as [|x v]; [reflexivity|].
    rewrite Hb in Hu. simpl in Hu |- *. now rewrite Hu.
  - unfold trimEnd. rewrite after_rev.
    destruct (dropWhile isSpace (rev u)) as [|c t] eqn:D; [reflexivity|].
    apply dropWhile_head in D. simpl. now rewrite D.
Qed.

Lemma split_chain (ok : char -> char -> bool) (s : jsstring) :
  chain ok s = true ->
  Forall (fun l => chain ok l = true) (split LF s)
  /\ exists l ls b, split LF s = l :: ls /\ s = l ++ b.
Proof.
  induction s as [|c s IH]; intro H.
  - split; [repeat constructor|]. exists [], [], []. auto.
  - pose proof (chain_tail ok c s H) as Hs.
    destruct (IH Hs) as (Hall & l & ls & b & Hsp & Hl).
    cbn [split]. destruct (c =? LF)%N.
    + split; [constructor; [reflexivity|exact Hall]|].
      exists [], (split LF s), (c :: s). auto.
    + rewrite Hsp in Hall |- *. split.
      * assert (Hcl : chain ok (c :: l) = true).
        { apply (chain_app_l ok (c :: l) b). simpl. now rewrite <- Hl. }
        inversion Hall; subst. constructor; assumption.
      * exists (c :: l), ls, b. split; [reflexivity|]. simpl. now rewrite <- Hl.
Qed.

Lemma trimmed_edges (l : jsstring) :
  trimmed l = true -> l <> [] ->
  (exists x, hd_error l = Some x /\ isSpace x = false)
  /\ (exists y, after None l = Some y /\ isSpace y = false).
Proof.
  unfold trimmed. intros H Hne. apply andb_prop in H as [Hh Hl].
  destruct l as [|c l]; [congruence|]. split.
  - exists c. split; [reflexivity|]. simpl in Hh. now destruct (isSpace c).
  - destruct (after None (c :: l)) as [y|] eqn:E.
    + exists y. split; [reflexivity|]. now destruct (isSpace y).
    + exfalso. clear -E. revert c E. induction l as [|x l IH]; intros c E; [discriminate|].
      exact (IH x E).
Qed.

Lemma concat_tight (lines : list jsstring) :
  Forall (fun l => chain tight l = true /\ trimmed l = true /\ l <> []) lines ->
  chain tight (List.concat lines) = true /\ trimmed (List.concat lines) = true.
Proof.
  induction 1 as [|l lines (Hc & Ht & Hne) _ [IHc IHt]]; [auto|].
  cbn [List.concat].
  destruct (trimmed_edges l Ht Hne) as ((x & Hx & Hxs) & (y & Hy & Hys)).
  destruct (List.concat lines) as [|z rest] eqn:E.
  - rewrite app_nil_r. auto.
  - destruct (trimmed_edges (z :: rest) IHt ltac:(discriminate))
      as ((z' & Hz & Hzs) & (q & Hq & Hqs)).
    simpl in Hz. injection Hz as <-.
    split.
    + rewrite chain_app, Hc, IHc, Hy. simpl. now apply tight_no_space.
    + unfold trimmed. destruct l as [|x' l]; [congruence|].
      simpl in Hx. injection Hx as ->.
      rewrite after_app, (after_nonempty _ None (z :: rest)), Hq by discriminate.
      simpl. now rewrite Hxs, Hqs.
Qed.

Lemma processLines_tight (content : jsstring) :
  chain tight content = true ->
  chain tight (processLines content) = true /\ trimmed (processLines content) = true.
Proof.
  intro H. unfold processLines. rewrite join_empty_concat.
  apply concat_tight.
  destruct (split_chain tight content H) as [Hall _].
  induction Hall as [|l ls Hl _ IH]; [constructor|].
  cbn [map filter].
  destruct (0 <? JS.length (trim l))%Z eqn:E; [|exact IH].
  constructor; [|exact IH].
  split; [now apply trim_chain|]. split; [apply trim_trimmed|].
  intro Hnil. rewrite Hnil in E. discriminate.
Qed.

Lemma fold_keepsTight (rules : list (regex * template)) :
  Forall keepsTight rules ->
  forall s, chain tight s = true -> chain tight (fold_left applyRule rules s) = true.
Proof.
  induction 1 as [|rule rules Hr _ IH]; intros s Hs; simpl; [exact Hs|].
  apply IH, Hr, Hs.
Qed.

(** Whatever the input, the output of the normalizer has no white space
    next to punctuation and none at either end. *)
Lemma advancedCompress_tight (content : jsstring) :
  chain tight (advancedCompress content) = true
  /\ trimmed (advancedCompress content) = true.
Proof.
  unfold advancedCompress. apply processLines_tight.
  change compressionRules
    with (firstn 3 compressionRules
          ++ (punctuationRule, [Ref1]) :: skipn 4 compressionRules).
  rewrite fold_left_app. cbn [fold_left].
  apply (fold_keepsTight _ later_rules_keep_tight).
  apply punctuation_tight.
Qed.

End Lines.

(** ** A normalized text is a fixed point of every rule *)

Section FixedPoint.

Lemma singleSpaced_app_l (a b : jsstring) :
  singleSpaced (a ++ b) = true -> singleSpaced a = true.
Proof.
  unfold singleSpaced. intro H. apply andb_prop in H as [Hp Hi].
  rewrite forallb_app in Hp. apply andb_prop in Hp as [Hp _].
  apply chain_app_l in Hi. now rewrite Hp, Hi.
Qed.

Lemma singleSpaced_tail (x : char) (s : jsstring) :
  singleSpaced (x :: s) = true -> singleSpaced s = true.
Proof.
  unfold singleSpaced. intro H. apply andb_prop in H as [Hp Hi].
  cbn [forallb] in Hp. apply andb_prop in Hp as [_ Hp].
  apply chain_tail in Hi. rewrite Hp, Hi. reflexivity.
Qed.

Lemma singleSpaced_app_r (a b : jsstring) :
  singleSpaced (a ++ b) = true -> singleSpaced b = true.
Proof.
  induction a as [|x a IH]; intro H; [exact H|].
  apply IH. now apply singleSpaced_tail in H.
Qed.

Lemma normalAt_step (prev : option char) (c : char) (t : jsstring) :
  normalAt prev (c :: t) -> normalAt (Some c) t.
Proof.
  intros (Ht & Hs & _ & Hl). unfold normalAt.
  apply chain_around in Ht.
  assert (Hs' : singleSpaced (c :: t) = true).
  { destruct prev as [x|]; [|exact Hs]. now apply singleSpaced_tail in Hs. }
  split; [exact Ht|]. split; [exact Hs'|]. split; [discriminate|].
  destruct t as [|x t]; [exact I|]. exact Hl.
Qed.

Lemma normalAt_skip (a t : jsstring) :
  forall prev, normalAt prev (a ++ t) -> normalAt (after prev a) t.
Proof.
  induction a as [|c a IH]; intros prev H; [exact H|].
  simpl in H. apply normalAt_step in H. apply IH in H. exact H.
Qed.

Lemma Scan_identity (r : regex) (tpl : template) :
  (forall prev s n g,
      normalAt prev s -> exec r prev s = Some (n, g) ->
      expand tpl s g = firstn n s) ->
  forall prev s o, Scan r tpl prev s o -> normalAt prev s -> o = s.
Proof.
  intros Hm prev s o H.
  induction H as [prev|prev c t o E _ IH|prev c m t o g E _ IH]; intro Hn.
  - reflexivity.
  - f_equal. apply IH. now apply normalAt_step in Hn.
  - rewrite (Hm _ _ _ _ Hn E).
    change (c :: m ++ t) with ((c :: m) ++ t).
    change (S (List.length m)) with (List.length (c :: m)).
    rewrite firstn_exact. f_equal. apply IH.
    apply (normalAt_skip (c :: m) t prev Hn).
Qed.

Lemma fixesNormal_intro (r : regex) (tpl : template) :
  consuming r = true ->
  (forall prev s n g,
      normalAt prev s -> exec r prev s = Some (n, g) ->
      expand tpl s g = firstn n s) ->
  fixesNormal (r, tpl).
Proof.
  intros Hr Hm s Hs. unfold applyRule.
  apply (Scan_identity r tpl Hm None s); [now apply replace_Scan|exact Hs].
Qed.

(** What the normal form says about a stretch [M] of the text. *)
Lemma normalAt_inside (prev : option char) (M rest : jsstring) :
  normalAt prev (M ++ rest) ->
  chain tight M = true /\ singleSpaced M = true.
Proof.
  intros (Ht & Hs & _). split.
  - apply chain_around in Ht. now apply chain_app_l in Ht.
  - apply singleSpaced_app_l with rest.
    destruct prev; [now apply singleSpaced_tail in Hs|exact Hs].
Qed.

Lemma no_space_before_punct (w : jsstring) (p : char) (r : jsstring) :
  allSpace w -> isPunct p = true -> chain tight (w ++ p :: r) = true -> w = [].
Proof.
  intros Hw Hp. induction Hw as [|x w Hx _ IH]; [reflexivity|].
  intro H. exfalso.
  change ((x :: w) ++ p :: r) with (x :: w ++ p :: r) in H. rewrite chain_cons in H.
  apply andb_prop in H as [Hxy H]. specialize (IH H). subst w.
  simpl in Hxy. unfold tight in Hxy. now rewrite Hx, Hp in Hxy.
Qed.

Lemma no_space_after_punct (p : char) (w r : jsstring) :
  isPunct p = true -> allSpace w -> chain tight (p :: w ++ r) = true -> w = [].
Proof.
  intros Hp Hw H. destruct Hw as [|x w Hx _]; [reflexivity|]. exfalso.
  rewrite chain_cons in H. apply andb_prop in H as [Hxy _].
  simpl in Hxy. unfold tight in Hxy. rewrite Hx, Hp in Hxy.
  now rewrite andb_false_r in Hxy.
Qed.

Lemma one_plain_space (c : char) (w r : jsstring) :
  allSpace (c :: w) -> singleSpaced ((c :: w) ++ r) = true -> c = 32%N /\ w = [].
Proof.
  intros Hw H. inversion Hw as [|? ? Hc Hw']; subst.
  unfold singleSpaced in H. apply andb_prop in H as [Hp Hi]. split.
  - simpl in Hp. apply andb_prop in Hp as [Hp _].
    unfold plainSpace in Hp. rewrite Hc in Hp. now apply N.eqb_eq in Hp.
  - destruct Hw' as [|y w Hy _]; [reflexivity|]. exfalso.
    simpl in Hi. apply andb_prop in Hi as [Hi _].
    unfold isolated in Hi. now rewrite Hc, Hy in Hi.
Qed.

Lemma adjacent_fixes_before (a b' x : jsstring) (p : char) :
  a <> [] -> isPunct p = true -> x = a ++ p :: b' ->
  fixesNormal (map Char a ++ Star isSpace :: map Char (p :: b'), [Lit x]).
Proof.
  intros Ha Hp ->. apply fixesNormal_intro.
  { destruct a; [congruence|reflexivity]. }
  intros prev s n g Hn H.
  apply (shape_adjacent a (p :: b') (a ++ p :: b')) in H as (w & rest & -> & Hw & -> & ->).
  rewrite firstn_exact.
  apply normalAt_inside in Hn as [Ht _].
  apply chain_app_r in Ht.
  change (w ++ p :: b') with (w ++ p :: b') in Ht.
  now rewrite (no_space_before_punct w p b' Hw Hp Ht).
Qed.

Lemma adjacent_fixes_after (p : char) (b x : jsstring) :
  isPunct p = true -> x = p :: b ->
  fixesNormal (map Char [p] ++ Star isSpace :: map Char b, [Lit x]).
Proof.
  intros Hp ->. apply fixesNormal_intro; [reflexivity|].
  intros prev s n g Hn H.
  apply (shape_adjacent [p] b (p :: b)) in H as (w & rest & -> & Hw & -> & ->).
  rewrite firstn_exact.
  apply normalAt_inside in Hn as [Ht _].
  now rewrite (no_space_after_punct p w b Hp Hw Ht).
Qed.

Lemma spaced_fixes (a b x : jsstring) :
  a <> [] -> x = a ++ 32%N :: b ->
  fixesNormal (map Char a ++ Plus isSpace :: map Char b, [Lit x]).
Proof.
  intros Ha ->. apply fixesNormal_intro.
  { destruct a; [congruence|reflexivity]. }
  intros prev s n g Hn H.
  apply (shape_spaced a b (a ++ 32%N :: b)) in H as (c & w & rest & -> & Hw & -> & ->).
  rewrite firstn_exact.
  apply normalAt_inside in Hn as [_ Hs].
  apply singleSpaced_app_r in Hs.
  destruct (one_plain_space c w b Hw Hs) as [-> ->]. reflexivity.
Qed.

Lemma singleSpaced_plain (s : jsstring) (c : char) :
  singleSpaced s = true -> In c s -> plainSpace c = true.
Proof.
  unfold singleSpaced. intros H Hc. apply andb_prop in H as [Hp _].
  rewrite forallb_forall in Hp. now apply Hp.
Qed.

Lemma rules_fix_normal : Forall fixesNormal compressionRules.
Proof.
  unfold compressionRules.
  repeat apply Forall_cons; [..|apply Forall_nil].
  - apply fixesNormal_intro; [reflexivity|]. intros prev s n g Hn H. exfalso.
    apply shape_blank_lines in H as (w & rest & -> & _ & _).
    apply normalAt_inside in Hn as [_ Hs].
    now apply (singleSpaced_plain _ LF) in Hs; [|left].
  - apply fixesNormal_intro; [reflexivity|]. intros prev s n g Hn H. exfalso.
    apply shape_leading in H as (Hb & c & w & rest & -> & Hw & _).
    inversion Hw as [|? ? Hc _]; subst.
    destruct Hn as (_ & Hs & Hstart & _).
    destruct prev as [x|].
    + apply (plain_lineTerminator x); [|exact Hb].
      apply (singleSpaced_plain _ x Hs). now left.
    + specialize (Hstart eq_refl). simpl in Hstart. congruence.
  - apply fixesNormal_intro; [reflexivity|]. intros prev s n g Hn H. exfalso.
    apply shape_trailing in H as (c & w & rest & -> & Hw & He & _).
    destruct rest as [|x rest].
    + destruct Hn as (_ & _ & _ & Hl). rewrite app_nil_r in Hl.
      destruct (after None (c :: w)) as [y|] eqn:E.
      * assert (Hy : In y (c :: w)).
        { clear -E. revert c E. induction w as [|x w IH]; intros c E.
          - injection E as <-. now left.
          - right. exact (IH x E). }
        unfold allSpace in Hw. rewrite Forall_forall in Hw. rewrite (Hw y Hy) in Hl.
        discriminate.
      * clear -E. revert c E. induction w as [|x w IH]; intros c E; [discriminate|].
        exact (IH x E).
    + simpl in He. apply (plain_lineTerminator x); [|exact He].
      destruct Hn as (_ & Hs & _).
      apply (singleSpaced_plain _ x Hs).
      destruct prev; unfold around; [right|]; apply in_or_app; right; now left.
  - apply fixesNormal_intro; [reflexivity|]. intros prev s n g Hn H.
    apply shape_punctuation in H as (w1 & p & w2 & rest & -> & Hw1 & Hp & Hw2 & -> & ->).
    rewrite firstn_exact.
    apply normalAt_inside in Hn as [Ht _].
    pose proof (no_space_before_punct w1 p w2 Hw1 Hp Ht) as ->.
    simpl in Ht. rewrite <- (app_nil_r w2) in Ht.
    now rewrite (no_space_after_punct p w2 [] Hp Hw2 Ht).
  - apply (adjacent_fixes_before (lit "import") [] (lit "import{") 123%N);
      (reflexivity || discriminate).
  - apply (adjacent_fixes_after 125%N (lit "from") (lit "}from")); reflexivity.
  - apply (adjacent_fixes_before (lit "export") [] (lit "export{") 123%N);
      (reflexivity || discriminate).
  - apply (spaced_fixes (lit "export") (lit "type") (lit "export type"));
      (reflexivity || discriminate).
  - apply (spaced_fixes (lit "export") (lit "const") (lit "export const"));
      (reflexivity || discriminate).
  - apply (spaced_fixes (lit "export") (lit "enum") (lit "export enum"));
      (reflexivity || discriminate).
  - apply (spaced_fixes (lit "export") (lit "interface") (lit "export interface"));
      (reflexivity || discriminate).
  - apply fixesNormal_intro; [reflexivity|]. intros prev s n g Hn H.
    apply shape_type_alias in H
      as (c & w & d & W & w' & rest & -> & Hw & HW & Hw' & -> & ->).
    rewrite firstn_exact.
    apply normalAt_inside in Hn as [Ht Hs].
    assert (Hs' : singleSpaced ((c :: w) ++ (d :: W) ++ w' ++ lit "=") = true).
    { simpl in Hs. now do 4 apply singleSpaced_tail in Hs. }
    destruct (one_plain_space c w _ Hw Hs') as [-> ->].
    assert (Ht' : chain tight (w' ++ 61%N :: []) = true).
    { apply (chain_app_r tight (lit "type" ++ [32%N] ++ d :: W)).
      rewrite <- !app_assoc. exact Ht. }
    rewrite (no_space_before_punct w' 61%N [] Hw' eq_refl Ht').
    reflexivity.
  - apply fixesNormal_intro; [reflexivity|]. intros prev s n g Hn H.
    apply shape_annotation in H as (w & a & rest & -> & Hw & Ha & -> & ->).
    rewrite firstn_exact.
    apply normalAt_inside in Hn as [Ht _].
    now rewrite (no_space_after_punct 58%N w [a] eq_refl Hw Ht).
Qed.

End FixedPoint.

(** ** Idempotence (C6) *)

Section Idempotence.

Lemma split_plain (s : jsstring) :
  forallb plainSpace s = true -> split LF s = [s].
Proof.
  induction s as [|c s IH]; intro H; [reflexivity|].
  cbn [forallb] in H. apply andb_prop in H as [Hc Hs].
  cbn [split]. destruct (N.eqb_spec c LF) as [->|_]; [discriminate Hc|].
  now rewrite (IH Hs).
Qed.

Lemma trim_fixed (s : jsstring) : trimmed s = true -> trim s = s.
Proof.
  unfold trimmed. intro H. apply andb_prop in H as [Hh Hl].
  unfold trim, trimStart, trimEnd.
  rewrite (dropWhile_fixed isSpace s).
  - rewrite dropWhile_fixed; [apply rev_involutive|].
    destruct (rev s) as [|c t] eqn:E; [exact I|].
    pose proof (hd_rev s) as Hr. rewrite E in Hr. simpl in Hr.
    rewrite <- Hr in Hl. now destruct (isSpace c).
  - destruct s as [|c t]; [exact I|]. simpl in Hh. now destruct (isSpace c).
Qed.

Lemma normalAt_trimmed (s : jsstring) : normalAt None s -> trimmed s = true.
Proof.
  intros (_ & _ & Hh & Hl). specialize (Hh eq_refl). unfold trimmed.
  destruct s as [|c t]; [reflexivity|]. simpl hd_error. cbv iota. rewrite Hh.
  destruct (after None (c :: t)) as [y|]; [now rewrite Hl|reflexivity].
Qed.

Lemma processLines_fixed (s : jsstring) : normalAt None s -> processLines s = s.
Proof.
  intro H. pose proof (normalAt_trimmed s H) as Ht.
  destruct H as (_ & Hs & _). unfold singleSpaced in Hs.
  apply andb_prop in Hs as [Hp _].
  unfold processLines. rewrite (split_plain s Hp). cbn [map filter].
  rewrite (trim_fixed s Ht). destruct s; reflexivity.
Qed.

Lemma fold_fixesNormal (rules : list (regex * template)) :
  Forall fixesNormal rules ->
  forall s, normalAt None s -> fold_left applyRule rules s = s.
Proof.
  induction 1 as [|rule rules Hr _ IH]; intros s Hs; simpl; [reflexivity|].
  rewrite (Hr s Hs). now apply IH.
Qed.

Lemma advancedCompress_fixed (s : jsstring) : normalAt None s -> advancedCompress s = s.
Proof.
  intro H. unfold advancedCompress.
  rewrite (fold_fixesNormal _ rules_fix_normal s H). now apply processLines_fixed.
Qed.

(** C6. The normalizer is idempotent on ordinary input: whenever the
    normalized text has no white space left but single space characters, as
    for code whose tokens are separated by single spaces, line breaks and
    indentation, normalizing it again changes nothing. *)
Theorem advancedCompress_idempotent :
  forall content : jsstring,
    singleSpaced (advancedCompress content) = true ->
    advancedCompress (advancedCompress content) = advancedCompress content.
Proof.
  intros content Hs. apply advancedCompress_fixed.
  destruct (advancedCompress_tight content) as [Ht Hd].
  unfold normalAt, around. split; [exact Ht|]. split; [exact Hs|].
  unfold trimmed in Hd. apply andb_prop in Hd as [Hh Hl]. split.
  - intros _. destruct (advancedCompress content) as [|c t]; [exact I|].
    simpl in Hh. now destruct (isSpace c).
  - destruct (after None (advancedCompress content)) as [y|]; [|exact I].
    now destruct (isSpace y).
Qed.

Lemma advancedCompress_idempotent_witness :
  singleSpaced (advancedCompress
                  (lit "export   type  Shape = { kind : string } ;" ++ [LF; LF]
                   ++ lit "  import { foo } from 'bar';" ++ [LF])) = true
  /\ advancedCompress
       (advancedCompress
          (lit "export   type  Shape = { kind : string } ;" ++ [LF; LF]
           ++ lit "  import { foo } from 'bar';" ++ [LF]))
     = lit "export type Shape={kind:string};import{foo}from 'bar';".
Proof.
  split; [reflexivity|].
  rewrite (advancedCompress_idempotent
             (lit "export   type  Shape = { kind : string } ;" ++ [LF; LF]
              ++ lit "  import { foo } from 'bar';" ++ [LF]) eq_refl).
  reflexivity.
Defined.

(** The condition cannot be dropped altogether: where a run of spaces
    survives and the join of two lines completes a pattern around it, the
    second pass still rewrites it. In [type  a⏎b=1] the first pass sees no
    [=] after the word [a]; joined, the text reads [type  ab=1]. *)
Remark second_pass_may_still_rewrite :
  advancedCompress (lit "type  a" ++ [LF] ++ lit "b=1") = lit "type  ab=1"
  /\ advancedCompress (lit "type  ab=1") = lit "type ab=1".
Proof. split; vm_compute; reflexivity. Qed.

End Idempotence.

(** ** Rewriting white space around a fragment (C5) *)

Section Windows.

Lemma Respace_keeps (M : jsstring) :
  forall prev t o, Respace (after prev M) t o -> Respace prev (M ++ t) (M ++ o).
Proof.
  induction M as [|c M IH]; intros prev t o H; [exact H|].
  simpl. apply Respace_keep. apply IH. exact H.
Qed.

Lemma allSpace_prefix (w s a : jsstring) (d : char) (b : jsstring) :
  allSpace w -> isSpace d = false -> w ++ s = a ++ d :: b ->
  exists a', a = w ++ a' /\ s = a' ++ d :: b.
Proof.
  intros Hw Hd. revert a. induction Hw as [|x w Hx _ IH]; intros a H.
  - exists a. auto.
  - destruct a as [|y a].
    + simpl in H. injection H as -> _. congruence.
    + simpl in H. injection H as -> H.
      destruct (IH a H) as (a' & -> & ->). exists a'. auto.
Qed.

(** No rewritten run crosses into a text that starts with a character other
    than white space. *)
Lemma Respace_split (d : char) (b : jsstring) :
  isSpace d = false ->
  forall n a prev o,
    (List.length a <= n)%nat ->
    Respace prev (a ++ d :: b) o ->
    exists oa ob, o = oa ++ ob /\ Respace (after prev a) (d :: b) ob.
Proof.
  intros Hd. induction n as [|n IH]; intros a prev o Hn H.
  - destruct a; [|simpl in Hn; lia]. exists [], o. auto.
  - destruct a as [|c a]; [exists [], o; auto|].
    simpl in Hn.
    remember ((c :: a) ++ d :: b) as s eqn:Es.
    destruct H as [prev|prev c' s' o' H'|prev c' w x s' o' Hw Hx Hside H'];
      [discriminate Es| |].
    + simpl in Es. injection Es as -> ->.
      destruct (IH a (Some c) o' ltac:(lia) H') as (oa & ob & -> & Hb).
      exists (c :: oa), ob. auto.
    + simpl in Es. injection Es as -> Heq.
      inversion Hw as [|? ? _ Hw']; subst.
      destruct (allSpace_prefix w s' a d b Hw' Hd Heq) as (a' & -> & ->).
      rewrite length_app in Hn.
      destruct (IH a' (after (Some c) w) o' ltac:(lia) H') as (oa & ob & -> & Hb).
      exists (x ++ oa), ob. split; [now rewrite app_assoc|].
      change (after prev (c :: w ++ a')) with (after (Some c) (w ++ a')).
      now rewrite after_app.
Qed.

(** A solid stretch goes through a rewriting unchanged. *)
Lemma Respace_solid (u : jsstring) :
  forall prev rest o,
    solid (isSpaceBefore prev) u = true ->
    Respace prev (u ++ rest) o ->
    exists o', o = u ++ o' /\ Respace (after prev u) rest o'.
Proof.
  induction u as [|c u IH]; intros prev rest o Hu H; [exists o; auto|].
  cbn [solid] in Hu.
  assert (Hnext : solid (isSpaceBefore (Some c)) u = true).
  { simpl. destruct (isSpace c); [|exact Hu].
    apply andb_prop in Hu as [_ Hu]. exact Hu. }
  remember ((c :: u) ++ rest) as s eqn:Es.
  destruct H as [prev|prev c' s' o' H'|prev c' w x s' o' Hw Hx Hside H'];
    [discriminate Es| |].
  - simpl in Es. injection Es as -> ->.
    destruct (IH (Some c) rest o' Hnext H') as (o'' & -> & Hr).
    exists o''. auto.
  - simpl in Es. injection Es as -> Heq.
    inversion Hw as [|? ? Hc Hw']; subst. rewrite Hc in Hu.
    apply andb_prop in Hu as [Hu _]. apply andb_prop in Hu as [Hu Hd].
    apply andb_prop in Hu as [H32 Hprev]. apply N.eqb_eq in H32. subst c.
    destruct u as [|d u]; [discriminate Hd|].
    apply negb_true_iff in Hd.
    assert (w = []) as ->.
    { destruct Hw' as [|y w Hy _]; [reflexivity|].
      simpl in Heq. injection Heq as -> _. congruence. }
    simpl in Heq. subst s'.
    assert (x = [32%N]) as ->.
    { destruct Hside as [Hs|[Hs|[Hs|Hs]]]; [exact Hs|congruence| |].
      - exfalso. apply negb_true_iff in Hprev.
        destruct prev as [p|]; simpl in Hs, Hprev; congruence.
      - exfalso. simpl in Hs. congruence. }
    destruct (IH (Some 32%N) rest o' Hnext H') as (o'' & -> & Hr).
    exists o''. auto.
Qed.

(** A rewriting of white space keeps a solid fragment in place. *)
Lemma Respace_window (F : jsstring) (pre post o : jsstring) (prev : option char) :
  match F with d :: _ => isSpace d = false | [] => False end ->
  solid true F = true ->
  Respace prev (pre ++ F ++ post) o ->
  exists pre' post', o = pre' ++ F ++ post'.
Proof.
  intros Hd HF H. destruct F as [|d F]; [destruct Hd|].
  change ((d :: F) ++ post) with (d :: F ++ post) in H.
  destruct (Respace_split d (F ++ post) Hd (List.length pre) pre prev o (le_n _) H)
    as (oa & ob & -> & Hb).
  change (d :: F ++ post) with ((d :: F) ++ post) in Hb.
  assert (HF' : solid (isSpaceBefore (after prev pre)) (d :: F) = true).
  { cbn [solid] in HF |- *. now rewrite Hd in HF |- *. }
  destruct (Respace_solid (d :: F) _ post ob HF' Hb) as (o' & -> & _).
  exists oa, o'. reflexivity.
Qed.

(** A scan whose replacements rewrite white space is such a rewriting. *)
Lemma Scan_Respace (Q : option char -> jsstring -> Prop) (r : regex) (tpl : template) :
  (forall prev c t, Q prev (c :: t) -> Q (Some c) t) ->
  respaces Q (r, tpl) ->
  forall prev s o, Scan r tpl prev s o -> Q prev s -> Respace prev s o.
Proof.
  intros Hstep Hm prev s o H.
  assert (Hskip : forall a t prev, Q prev (a ++ t) -> Q (after prev a) t).
  { induction a as [|c a IH]; intros t prev' Hq; [exact Hq|].
    simpl in Hq. apply Hstep in Hq. apply IH in Hq. exact Hq. }
  induction H as [prev|prev c t o E _ IH|prev c m t o g E _ IH]; intro Hq.
  - constructor.
  - apply Respace_keep. apply IH. now apply Hstep in Hq.
  - apply (Hm prev (c :: m ++ t) (S (List.length m)) g Hq E).
    change (c :: m ++ t) with ((c :: m) ++ t).
    change (S (List.length m)) with (List.length (c :: m)).
    rewrite firstn_exact, skipn_app, skipn_all, Nat.sub_diag. simpl.
    apply IH. apply (Hskip (c :: m) t prev Hq).
Qed.

End Windows.

Section RulesRespace.

Lemma respaces_intro (Q : option char -> jsstring -> Prop) (r : regex) (tpl : template) :
  (forall prev s n g,
      Q prev s -> exec r prev s = Some (n, g) ->
      exists M rest X,
        s = M ++ rest /\ n = List.length M /\ expand tpl s g = X
        /\ forall o, Respace (after prev M) rest o -> Respace prev (M ++ rest) (X ++ o)) ->
  respaces Q (r, tpl).
Proof.
  intros H prev s n g Hq E o Ho. cbn [fst snd] in *.
  destruct (H prev s n g Hq E) as (M & rest & X & -> & -> & -> & HR).
  apply HR. now rewrite firstn_exact, skipn_app, skipn_all, Nat.sub_diag in Ho.
Qed.

Lemma allSpace_app (a b : jsstring) : allSpace a -> allSpace b -> allSpace (a ++ b).
Proof. intros Ha Hb. apply Forall_app. now split. Qed.

Lemma tightAt_step (prev : option char) (c : char) (t : jsstring) :
  tightAt prev (c :: t) -> tightAt (Some c) t.
Proof. unfold tightAt. apply chain_around. Qed.

Lemma tightAt_inside (prev : option char) (M rest : jsstring) :
  tightAt prev (M ++ rest) -> chain tight M = true.
Proof.
  unfold tightAt. intro H. apply chain_around in H. now apply chain_app_l in H.
Qed.

(** The three line rules only rewrite white space that touches a line
    terminator or an end of the text. *)
Lemma line_rules_respace :
  Forall (respaces (fun _ _ => True)) (firstn 3 compressionRules).
Proof.
  unfold compressionRules. cbn [firstn].
  repeat apply Forall_cons; [..|apply Forall_nil];
    apply respaces_intro; intros prev s n g _ H.
  - apply shape_blank_lines in H as (w & rest & -> & Hw & ->).
    exists (LF :: w ++ [LF]), rest, [LF]. repeat split.
    intros o Ho.
    apply (Respace_run prev LF (w ++ [LF]) [LF] rest o).
    + constructor; [reflexivity|]. apply allSpace_app; [exact Hw|].
      constructor; [reflexivity|constructor].
    + constructor; [reflexivity|constructor].
    + right. left. now destruct w.
    + exact Ho.
  - apply shape_leading in H as (Hb & c & w & rest & -> & Hw & ->).
    exists (c :: w), rest, []. repeat split.
    intros o Ho.
    apply (Respace_run prev c w [] rest o); [exact Hw|constructor| |exact Ho].
    right. right. left.
    destruct prev as [p|]; [|exact I]. now apply lineTerminator_is_space.
  - apply shape_trailing in H as (c & w & rest & -> & Hw & He & ->).
    exists (c :: w), rest, []. repeat split.
    intros o Ho.
    apply (Respace_run prev c w [] rest o); [exact Hw|constructor| |exact Ho].
    right. right. right.
    destruct rest as [|d rest]; [exact I|]. now apply lineTerminator_is_space.
Qed.

Lemma adjacent_respaces_before (a b' x : jsstring) (p : char) :
  isPunct p = true -> x = a ++ p :: b' ->
  respaces tightAt (map Char a ++ Star isSpace :: map Char (p :: b'), [Lit x]).
Proof.
  intros Hp ->. apply respaces_intro. intros prev s n g Hq H.
  apply (shape_adjacent a (p :: b') (a ++ p :: b')) in H as (w & rest & -> & Hw & -> & ->).
  apply tightAt_inside in Hq. apply chain_app_r in Hq.
  pose proof (no_space_before_punct w p b' Hw Hp Hq) as ->.
  exists (a ++ p :: b'), rest, (a ++ p :: b'). repeat split.
  intros o. apply Respace_keeps.
Qed.

Lemma adjacent_respaces_after (p : char) (b x : jsstring) :
  isPunct p = true -> x = p :: b ->
  respaces tightAt (map Char [p] ++ Star isSpace :: map Char b, [Lit x]).
Proof.
  intros Hp ->. apply respaces_intro. intros prev s n g Hq H.
  apply (shape_adjacent [p] b (p :: b)) in H as (w & rest & -> & Hw & -> & ->).
  apply tightAt_inside in Hq.
  pose proof (no_space_after_punct p w b Hp Hw Hq) as ->.
  exists (p :: b), rest, (p :: b). repeat split.
  intros o. apply (Respace_keeps (p :: b)).
Qed.

Lemma spaced_respaces (a b x : jsstring) :
  x = a ++ 32%N :: b ->
  respaces tightAt (map Char a ++ Plus isSpace :: map Char b, [Lit x]).
Proof.
  intros ->. apply respaces_intro. intros prev s n g _ H.
  apply (shape_spaced a b (a ++ 32%N :: b)) in H as (c & w & rest & -> & Hw & -> & ->).
  exists (a ++ (c :: w) ++ b), rest, (a ++ 32%N :: b). repeat split.
  intros o Ho. rewrite <- !app_assoc.
  apply Respace_keeps.
  apply (Respace_run (after prev a) c w [32%N] (b ++ rest) (b ++ o));
    [exact Hw|constructor; [reflexivity|constructor]|now left|].
  apply Respace_keeps.
  rewrite !after_app in Ho. exact Ho.
Qed.

Lemma later_rules_respace : Forall (respaces tightAt) (skipn 4 compressionRules).
Proof.
  unfold compressionRules. cbn [skipn].
  repeat apply Forall_cons; [..|apply Forall_nil].
  - apply (adjacent_respaces_before (lit "import") [] (lit "import{") 123%N); reflexivity.
  - apply (adjacent_respaces_after 125%N (lit "from") (lit "}from")); reflexivity.
  - apply (adjacent_respaces_before (lit "export") [] (lit "export{") 123%N); reflexivity.
  - apply (spaced_respaces (lit "export") (lit "type") (lit "export type")); reflexivity.
  - apply (spaced_respaces (lit "export") (lit "const") (lit "export const")); reflexivity.
  - apply (spaced_respaces (lit "export") (lit "enum") (lit "export enum")); reflexivity.
  - apply (spaced_respaces (lit "export") (lit "interface") (lit "export interface"));
      reflexivity.
  - apply respaces_intro. intros prev s n g Hq H.
    apply shape_type_alias in H
      as (c & w & d & W & w' & rest & -> & Hw & HW & Hw' & -> & ->).
    apply tightAt_inside in Hq.
    assert (Ht : chain tight (w' ++ 61%N :: []) = true).
    { apply (chain_app_r tight (lit "type" ++ (c :: w) ++ d :: W)).
      rewrite <- !app_assoc. exact Hq. }
    pose proof (no_space_before_punct w' 61%N [] Hw' eq_refl Ht) as ->.
    exists (lit "type" ++ (c :: w) ++ (d :: W) ++ [] ++ lit "="), rest,
      (lit "type " ++ (d :: W) ++ lit "="). repeat split.
    intros o Ho.
    change (lit "type " ++ (d :: W) ++ lit "=")
      with (lit "type" ++ [32%N] ++ (d :: W) ++ lit "=").
    rewrite <- !app_assoc. apply Respace_keeps.
    apply (Respace_run (after prev (lit "type")) c w [32%N]
             ((d :: W) ++ [] ++ lit "=" ++ rest) ((d :: W) ++ lit "=" ++ o));
      [exact Hw|constructor; [reflexivity|constructor]|now left|].
    apply (Respace_keeps (d :: W)). apply (Respace_keeps (lit "=")).
    rewrite !after_app in Ho. exact Ho.
  - apply respaces_intro. intros prev s n g Hq H.
    apply shape_annotation in H as (w & a & rest & -> & Hw & Ha & -> & ->).
    apply tightAt_inside in Hq.
    pose proof (no_space_after_punct 58%N w [a] eq_refl Hw Hq) as ->.
    exists (lit ":" ++ [] ++ [a]), rest, (lit ":" ++ [a]). repeat split.
    intros o. apply (Respace_keeps (lit ":" ++ [a])).
Qed.

End RulesRespace.

Section ImportLine.

Lemma punctuation_stops (M : jsstring) (d : char) :
  Forall (fun x => isSpace x = true \/ isPunct x = true) M ->
  isSpace d = false -> isPunct d = false ->
  forall r1 a r2, M ++ r1 = a ++ d :: r2 -> (List.length M <= List.length a)%nat.
Proof.
  intros HM Hs Hp. induction HM as [|x M Hx _ IH]; intros r1 a r2 H; [simpl; lia|].
  destruct a as [|y a].
  - simpl in H. injection H as -> _. destruct Hx; congruence.
  - simpl in H. injection H as _ H. simpl. apply IH in H. lia.
Qed.

Lemma replaceFrom_cons (r : regex) (tpl : template) (prev : option char)
    (c : char) (t : jsstring) :
  replaceFrom r tpl 0 prev (c :: t)
  = match exec r prev (c :: t) with
    | Some (0, g) => expand tpl (c :: t) g ++ c :: replaceFrom r tpl 0 (Some c) t
    | Some (S k, g) => expand tpl (c :: t) g ++ replaceFrom r tpl k (Some c) t
    | None => c :: replaceFrom r tpl 0 (Some c) t
    end.
Proof. reflexivity. Qed.

Lemma replaceFrom_cons_skip (r : regex) (tpl : template) (prev : option char)
    (k : nat) (c : char) (t : jsstring) :
  replaceFrom r tpl (S k) prev (c :: t) = replaceFrom r tpl k (Some c) t.
Proof. reflexivity. Qed.

(** No match of the punctuation rule that starts before a character which
    is neither white space nor punctuation reaches it. *)
Lemma punctuation_before (d : char) (rest : jsstring) :
  isSpace d = false -> isPunct d = false ->
  forall pre prev skip,
    (skip <= List.length pre)%nat ->
    exists pre',
      replaceFrom punctuationRule [Ref1] skip prev (pre ++ d :: rest)
      = pre' ++ replaceFrom punctuationRule [Ref1] 0 (after prev pre) (d :: rest).
Proof.
  intros Hs Hp. induction pre as [|c pre IH]; intros prev skip Hk.
  - simpl in Hk. replace skip with 0%nat by lia. exists []. reflexivity.
  - simpl in Hk. change ((c :: pre) ++ d :: rest) with (c :: pre ++ d :: rest).
    destruct skip as [|k].
    + rewrite (replaceFrom_cons punctuationRule [Ref1] prev c (pre ++ d :: rest)).
      destruct (exec punctuationRule prev (c :: pre ++ d :: rest)) as [[n g]|] eqn:E.
      * pose proof E as E'.
        apply shape_punctuation in E' as (w1 & p & w2 & rest' & Heq & Hw1 & Hp' & Hw2 & -> & _).
        assert (Hlen : (List.length (w1 ++ p :: w2) <= List.length (c :: pre))%nat).
        { apply (punctuation_stops (w1 ++ p :: w2) d) with rest' rest; try assumption.
          - apply Forall_app. split.
            + eapply Forall_impl; [|exact Hw1]. simpl. auto.
            + constructor; [auto|]. eapply Forall_impl; [|exact Hw2]. simpl. auto.
          - now rewrite <- Heq. }
        destruct (List.length (w1 ++ p :: w2)) as [|k].
        -- destruct (IH (Some c) 0%nat ltac:(lia)) as [pre' Hpre]. rewrite Hpre.
           exists (expand [Ref1] (c :: pre ++ d :: rest) g ++ c :: pre').
           now rewrite <- app_assoc.
        -- simpl in Hlen.
           destruct (IH (Some c) k ltac:(lia)) as [pre' Hpre]. rewrite Hpre.
           exists (expand [Ref1] (c :: pre ++ d :: rest) g ++ pre').
           now rewrite <- app_assoc.
      * destruct (IH (Some c) 0%nat ltac:(lia)) as [pre' Hpre]. rewrite Hpre.
        exists (c :: pre'). reflexivity.
    + rewrite replaceFrom_cons_skip.
      destruct (IH (Some c) k ltac:(lia)) as [pre' Hpre]. rewrite Hpre.
      exists pre'. reflexivity.
Qed.

(** Inside the import line the rule removes the spaces around the braces
    and keeps the one before the quote. *)
Lemma punctuation_inside (prev : option char) (post : jsstring) :
  exists post',
    replaceFrom punctuationRule [Ref1] 0 prev (importLine ++ post)
    = importLineTight ++ post'.
Proof.
  unfold punctuationRule, importLine, importLineTight. cbn.
  rewrite star_greedy by discriminate. rewrite Nat.add_1_r. cbn.
  eexists. reflexivity.
Qed.

Lemma punctuation_window (s : jsstring) :
  Infix importLine s -> Infix importLineTight (replace punctuationRule [Ref1] s).
Proof.
  intros (pre & post & ->). unfold replace.
  destruct (punctuation_before 105%N (lit "mport { foo } from 'bar';" ++ post)
              eq_refl eq_refl pre None 0%nat ltac:(lia)) as [pre' Hpre].
  change (105%N :: lit "mport { foo } from 'bar';" ++ post)
    with (importLine ++ post) in Hpre.
  rewrite Hpre.
  destruct (punctuation_inside (after None pre) post) as [post' Hpost].
  rewrite Hpost. exists pre', post'. reflexivity.
Qed.

End ImportLine.

Section FragmentInLines.

Variable F : jsstring.
Variables first last : char.
Variable inner : jsstring.
Hypothesis F_first : F = first :: inner.
Hypothesis F_last : after None F = Some last.
Hypothesis first_not_space : isSpace first = false.
Hypothesis last_not_space : isSpace last = false.
Hypothesis F_one_line : ~ In LF F.
Hypothesis F_solid : solid true F = true.

Lemma split_not_empty (sep : char) (s : jsstring) : exists l ls, split sep s = l :: ls.
Proof.
  induction s as [|c s (l & ls & IH)]; simpl; [eauto|].
  destruct (c =? sep)%N; [eauto|]. rewrite IH. eauto.
Qed.

Lemma split_fragment (G post : jsstring) :
  ~ In LF G -> exists y ls, split LF (G ++ post) = (G ++ y) :: ls.
Proof.
  induction G as [|c G IH]; intro H.
  - destruct (split_not_empty LF post) as (l & ls & E). exists l, ls. exact E.
  - destruct IH as (y & ls & E); [intro Hc; apply H; now right|].
    simpl. destruct (N.eqb_spec c LF) as [->|_]; [exfalso; apply H; now left|].
    rewrite E. exists y, ls. reflexivity.
Qed.

Lemma split_window (pre post : jsstring) :
  exists ls1 x y ls2, split LF (pre ++ F ++ post) = ls1 ++ (x ++ F ++ y) :: ls2.
Proof.
  induction pre as [|c pre (ls1 & x & y & ls2 & IH)].
  - destruct (split_fragment F post F_one_line) as (y & ls & E).
    exists [], [], y, ls. exact E.
  - simpl. destruct (c =? LF)%N.
    + exists ([] :: ls1), x, y, ls2. now rewrite IH.
    + rewrite IH. destruct ls1 as [|l ls1].
      * exists [], (c :: x), y, ls2. reflexivity.
      * exists ((c :: l) :: ls1), x, y, ls2. reflexivity.
Qed.

Lemma dropWhile_window (p : char -> bool) (x : jsstring) (d : char) (r : jsstring) :
  p d = false -> exists x', dropWhile p (x ++ d :: r) = x' ++ d :: r.
Proof.
  intro Hd. induction x as [|c x [x' IH]]; simpl.
  - rewrite Hd. exists []. reflexivity.
  - destruct (p c); [exists x'; exact IH|]. exists (c :: x). reflexivity.
Qed.

Lemma trim_window (x y : jsstring) :
  exists x' y', trim (x ++ F ++ y) = x' ++ F ++ y'.
Proof.
  unfold trim, trimStart, trimEnd.
  destruct (dropWhile_window isSpace x first (inner ++ y) first_not_space) as [x' Hx].
  rewrite F_first. change ((first :: inner) ++ y) with (first :: inner ++ y).
  rewrite Hx.
  change (x' ++ first :: inner ++ y) with (x' ++ (first :: inner) ++ y).
  rewrite <- F_first, !rev_app_distr, <- app_assoc.
  pose proof (hd_rev F) as Hh. rewrite F_last in Hh.
  destruct (rev F) as [|e G] eqn:E; [discriminate Hh|].
  simpl in Hh. injection Hh as ->.
  change ((last :: G) ++ rev x') with (last :: G ++ rev x').
  destruct (dropWhile_window isSpace (rev y) last (G ++ rev x') last_not_space) as [y' Hy].
  rewrite Hy.
  exists x', (rev y').
  change (y' ++ last :: G ++ rev x') with (y' ++ (last :: G) ++ rev x').
  rewrite <- E, !rev_app_distr, !rev_involutive, <- app_assoc. reflexivity.
Qed.

Lemma processLines_window (s : jsstring) : Infix F s -> Infix F (processLines s).
Proof.
  intros (pre & post & ->). unfold processLines. rewrite join_empty_concat.
  destruct (split_window pre post) as (ls1 & x & y & ls2 & ->).
  rewrite map_app, filter_app, concat_app. cbn [map filter].
  destruct (trim_window x y) as (x' & y' & ->).
  assert (Hne : (0 <? JS.length (x' ++ F ++ y'))%Z = true).
  { apply Z.ltb_lt. unfold JS.length. rewrite F_first, length_app.
    cbn [List.length app]. lia. }
  rewrite Hne. cbn [List.concat].
  set (keep := filter (fun line : jsstring => (0 <? JS.length line)%Z)).
  exists (List.concat (keep (map trim ls1)) ++ x'),
         (y' ++ List.concat (keep (map trim ls2))).
  now rewrite <- !app_assoc.
Qed.

Lemma rule_window (Q : option char -> jsstring -> Prop) (rule : regex * template) :
  (forall prev c t, Q prev (c :: t) -> Q (Some c) t) ->
  consuming (fst rule) = true ->
  respaces Q rule ->
  forall s, Q None s -> Infix F s -> Infix F (applyRule s rule).
Proof.
  intros Hstep Hc Hr s Hq (pre & post & ->).
  destruct rule as [r tpl]. unfold applyRule. simpl in Hc.
  apply (Respace_window F pre post _ None).
  - rewrite F_first. exact first_not_space.
  - exact F_solid.
  - apply (Scan_Respace Q r tpl Hstep Hr); [now apply replace_Scan|exact Hq].
Qed.

Lemma fold_window_free (rules : list (regex * template)) :
  Forall (respaces (fun _ _ => True)) rules ->
  forallb (fun rule => consuming (fst rule)) rules = true ->
  forall s, Infix F s -> Infix F (fold_left applyRule rules s).
Proof.
  induction 1 as [|rule rules Hr _ IH]; intros Hc s Hs; [exact Hs|].
  cbn [forallb] in Hc. apply andb_prop in Hc as [Hc Hcs].
  cbn [fold_left]. apply (IH Hcs).
  now apply (rule_window (fun _ _ => True) rule).
Qed.

Lemma fold_window_tight (rules : list (regex * template)) :
  Forall (respaces tightAt) rules ->
  Forall keepsTight rules ->
  forallb (fun rule => consuming (fst rule)) rules = true ->
  forall s, chain tight s = true -> Infix F s -> Infix F (fold_left applyRule rules s).
Proof.
  induction 1 as [|rule rules Hr _ IH]; intros Hk Hc s Ht Hs; [exact Hs|].
  cbn [forallb] in Hc. apply andb_prop in Hc as [Hc Hcs].
  pose proof (Forall_inv Hk) as Hk1. pose proof (Forall_inv_tail Hk) as Hks.
  cbn [fold_left]. apply (IH Hks Hcs).
  - now apply Hk1.
  - apply (rule_window tightAt rule); try assumption. exact tightAt_step.
Qed.

End FragmentInLines.

(** C5, amended. Wherever the line [import { foo } from 'bar';] stands in
    the input, the output of the normalizer contains
    [import{foo}from 'bar';] in its place: the spaces around the braces are
    removed, and the space between [from] and the quote is kept. *)
Theorem import_line_is_tightened :
  forall pre post : jsstring,
    Infix (lit "import{foo}from 'bar';")
          (advancedCompress (pre ++ lit "import { foo } from 'bar';" ++ post)).
Proof.
  intros pre post. unfold advancedCompress.
  apply (processLines_window importLineTight 105%N 59%N (lit "mport{foo}from 'bar';"));
    try reflexivity.
  { intro H. vm_compute in H. intuition discriminate. }
  change compressionRules
    with (firstn 3 compressionRules
          ++ (punctuationRule, [Ref1]) :: skipn 4 compressionRules).
  rewrite fold_left_app. cbn [fold_left].
  apply (fold_window_tight importLineTight 105%N (lit "mport{foo}from 'bar';"));
    try reflexivity.
  - exact later_rules_respace.
  - exact later_rules_keep_tight.
  - apply punctuation_tight.
  - apply punctuation_window.
    apply (fold_window_free importLine 105%N (lit "mport { foo } from 'bar';"));
      try reflexivity.
    + exact line_rules_respace.
    + exists pre, post. reflexivity.
Qed.

(** ** The normalizer never makes a text longer *)

Section Lengths.

Lemma Scan_length (r : regex) (tpl : template) :
  (forall prev s n g,
      exec r prev s = Some (n, g) -> (List.length (expand tpl s g) <= n)%nat) ->
  forall prev s o, Scan r tpl prev s o -> (List.length o <= List.length s)%nat.
Proof.
  intros Hm prev s o H.
  induction H as [prev|prev c t o E _ IH|prev c m t o g E _ IH]; simpl.
  - lia.
  - lia.
  - apply Hm in E. rewrite !length_app. lia.
Qed.

Lemma rule_length (r : regex) (tpl : template) :
  consuming r = true ->
  (forall prev s n g,
      exec r prev s = Some (n, g) -> (List.length (expand tpl s g) <= n)%nat) ->
  forall s, (List.length (applyRule s (r, tpl)) <= List.length s)%nat.
Proof.
  intros Hr Hm s. unfold applyRule.
  eapply Scan_length; [exact Hm|]. now apply replace_Scan.
Qed.

Lemma rules_length :
  Forall (fun rule => forall s, (List.length (applyRule s rule) <= List.length s)%nat)
         compressionRules.
Proof.
  unfold compressionRules.
  repeat (apply Forall_cons; [apply rule_length; [reflexivity|]|]);
    [..|apply Forall_nil]; intros prev s n g H.
  - apply shape_blank_lines in H as (w & rest & _ & _ & ->). simpl. lia.
  - simpl. lia.
  - simpl. lia.
  - apply shape_punctuation in H as (w1 & p & w2 & rest & _ & _ & _ & _ & -> & ->).
    rewrite length_app. simpl. lia.
  - apply (shape_adjacent (lit "import") (lit "{") (lit "import{")) in H
      as (w & rest & _ & _ & -> & ->).
    rewrite !length_app. simpl. lia.
  - apply (shape_adjacent (lit "}") (lit "from") (lit "}from")) in H
      as (w & rest & _ & _ & -> & ->).
    rewrite !length_app. simpl. lia.
  - apply (shape_adjacent (lit "export") (lit "{") (lit "export{")) in H
      as (w & rest & _ & _ & -> & ->).
    rewrite !length_app. simpl. lia.
  - apply (shape_spaced (lit "export") (lit "type") (lit "export type")) in H
      as (c & w & rest & _ & _ & -> & ->).
    rewrite !length_app. simpl. lia.
  - apply (shape_spaced (lit "export") (lit "const") (lit "export const")) in H
      as (c & w & rest & _ & _ & -> & ->).
    rewrite !length_app. simpl. lia.
  - apply (shape_spaced (lit "export") (lit "enum") (lit "export enum")) in H
      as (c & w & rest & _ & _ & -> & ->).
    rewrite !length_app. simpl. lia.
  - apply (shape_spaced (lit "export") (lit "interface") (lit "export interface")) in H
      as (c & w & rest & _ & _ & -> & ->).
    rewrite !length_app. simpl. lia.
  - apply shape_type_alias in H
      as (c & w & d & W & w' & rest & _ & _ & _ & _ & -> & ->).
    repeat (progress (rewrite ?length_app; simpl)). lia.
  - apply shape_annotation in H as (w & a & rest & _ & _ & _ & -> & ->).
    repeat (progress (rewrite ?length_app; simpl)). lia.
Qed.

Lemma fold_rules_length (rules : list (regex * template)) :
  Forall (fun rule => forall s, (List.length (applyRule s rule) <= List.length s)%nat)
         rules ->
  forall s, (List.length (fold_left applyRule rules s) <= List.length s)%nat.
Proof.
  induction 1 as [|rule rules Hr _ IH]; intro s; simpl; [lia|].
  specialize (IH (applyRule s rule)). specialize (Hr s). lia.
Qed.

Lemma dropWhile_length (p : char -> bool) (s : jsstring) :
  (List.length (dropWhile p s) <= List.length s)%nat.
Proof.
  induction s as [|c s IH]; simpl; [lia|]. destruct (p c); simpl; lia.
Qed.

Lemma trim_length (s : jsstring) : (List.length (trim s) <= List.length s)%nat.
Proof.
  unfold trim, trimEnd, trimStart. rewrite length_rev.
  etransitivity; [apply dropWhile_length|]. rewrite length_rev.
  apply dropWhile_length.
Qed.

Lemma split_length (sep : char) (s : jsstring) :
  (List.length (List.concat (split sep s)) <= List.length s)%nat.
Proof.
  induction s as [|c s IH]; simpl; [lia|].
  destruct (c =? sep)%N; simpl; [lia|].
  destruct (split sep s) as [|l ls]; simpl in *; lia.
Qed.

Lemma processLines_length (content : jsstring) :
  (List.length (processLines content) <= List.length content)%nat.
Proof.
  unfold processLines. rewrite join_empty_concat.
  etransitivity; [|apply (split_length LF)].
  induction (split LF content) as [|l ls IH]; simpl; [lia|].
  pose proof (trim_length l).
  destruct (0 <? JS.length (trim l))%Z; simpl; rewrite !length_app; lia.
Qed.

End Lengths.

(** X1. The normalizer never makes a text longer: no rule replaces a match
    by a longer text, and the line step only drops characters. *)
Theorem advancedCompress_never_lengthens :
  forall content : jsstring,
    (JS.length (advancedCompress content) <= JS.length content)%Z.
Proof.
  intro content. unfold JS.length, advancedCompress.
  apply Nat2Z.inj_le.
  etransitivity; [apply processLines_length|].
  apply (fold_rules_length _ rules_length).
Qed.

(** ** What the output of the normalizer looks like *)

Section OutputShape.

Lemma chain_pair (ok : char -> char -> bool) (a : jsstring) (x y : char) (b : jsstring) :
  chain ok (a ++ x :: y :: b) = true -> ok x y = true.
Proof.
  intro H. apply chain_app_r in H. rewrite chain_cons in H.
  now apply andb_prop in H as [H _].
Qed.

Lemma allSpace_nonSpace (s : jsstring) : nonSpace s = [] <-> allSpace s.
Proof.
  split.
  - induction s as [|c s IH]; intro H; [constructor|].
    rewrite nonSpace_cons in H. destruct (isSpace c) eqn:Hc; [|discriminate].
    constructor; [exact Hc|exact (IH H)].
  - apply nonSpace_allSpace.
Qed.

End OutputShape.

(** X2. Whatever the input, the output of the normalizer neither starts nor
    ends with white space, and no white space is left next to one of the
    punctuation characters [{}:;,=()[]<>]. *)
Theorem advancedCompress_output_is_tight :
  forall content : jsstring,
    (forall c rest, advancedCompress content = c :: rest -> isSpace c = false)
    /\ (forall init c, advancedCompress content = init ++ [c] -> isSpace c = false)
    /\ (forall a x y b,
           advancedCompress content = a ++ x :: y :: b ->
           (isPunct x = true -> isSpace y = false)
           /\ (isPunct y = true -> isSpace x = false)).
Proof.
  intro content. destruct (advancedCompress_tight content) as [Ht Hd].
  unfold trimmed in Hd. apply andb_prop in Hd as [Hh Hl].
  split; [|split].
  - intros c rest E. rewrite E in Hh. simpl in Hh. now destruct (isSpace c).
  - intros init c E. rewrite E, after_app in Hl. simpl in Hl. now destruct (isSpace c).
  - intros a x y b E. rewrite E in Ht. apply chain_pair in Ht.
    unfold tight in Ht. apply andb_prop in Ht as [H1 H2].
    split; intro Hp; rewrite Hp in *.
    + rewrite andb_true_l in H2. now destruct (isSpace y).
    + rewrite andb_true_r in H1. now destruct (isSpace x).
Qed.

Lemma advancedCompress_output_is_tight_witness :
  advancedCompress (lit "  const  x : number = f ( 1 , 2 ) ;  ")
  = lit "c" ++ lit "onst  x:number=f(1,2);"
  /\ isSpace (chr "c") = false
  /\ (isPunct (chr ":") = true -> isSpace (chr "n") = false).
Proof.
  split; [reflexivity|].
  destruct (advancedCompress_output_is_tight (lit "  const  x : number = f ( 1 , 2 ) ;  "))
    as (Hfirst & _ & Hpair).
  split.
  - exact (Hfirst (chr "c") (lit "onst  x:number=f(1,2);") eq_refl).
  - exact (proj1 (Hpair (lit "const  x") (chr ":") (chr "n") (lit "umber=f(1,2);") eq_refl)).
Defined.

(** X3. The output is empty exactly when the input is white space only. *)
Theorem advancedCompress_empty_iff_blank :
  forall content : jsstring,
    advancedCompress content = [] <-> allSpace content.
Proof.
  intro content. rewrite <- allSpace_nonSpace, <- advancedCompress_nonSpace. split.
  - now intros ->.
  - intro H. destruct (advancedCompress_tight content) as [_ Hd].
    destruct (advancedCompress content) as [|c rest]; [reflexivity|].
    rewrite nonSpace_cons in H. unfold trimmed in Hd. simpl in Hd.
    destruct (isSpace c); [discriminate|discriminate].
Qed.

(** X4. A text that is already normalized is returned as it is: no white
    space at either end, none next to punctuation, and no white space but
    single space characters. *)
Theorem normalized_text_is_unchanged :
  forall s : jsstring,
    trimmed s = true -> chain tight s = true -> singleSpaced s = true ->
    advancedCompress s = s.
Proof.
  intros s Hd Ht Hs. apply advancedCompress_fixed.
  unfold normalAt, around. split; [exact Ht|]. split; [exact Hs|].
  unfold trimmed in Hd. apply andb_prop in Hd as [Hh Hl]. split.
  - intros _. destruct s as [|c t]; [exact I|].
    simpl in Hh. now destruct (isSpace c).
  - destruct (after None s) as [y|]; [|exact I].
    now destruct (isSpace y).
Qed.

Lemma normalized_text_is_unchanged_witness :
  advancedCompress (lit "export type Shape={kind:string};import{foo}from 'bar';")
  = lit "export type Shape={kind:string};import{foo}from 'bar';".
Proof.
  apply (normalized_text_is_unchanged
           (lit "export type Shape={kind:string};import{foo}from 'bar';"));
    reflexivity.
Defined.

(** ** Replacing one character everywhere *)

Section OneCharacter.

(** [s.replace(/x/g, y)] for a single character [x] and a text [y] without
    [$]: every [x] becomes [y], the other characters stay. *)
Lemma replace_char (x : char) (y s : jsstring) :
  replace [Char x] [Lit y] s
  = flat_map (fun c => if (c =? x)%N then y else [c]) s.
Proof.
  unfold replace. generalize (@None char).
  induction s as [|c t IH]; intro prev; [reflexivity|].
  cbn [replaceFrom flat_map]. unfold exec. cbn [run].
  destruct (c =? x)%N.
  - unfold expand. cbn [flat_map]. rewrite app_nil_r. now rewrite IH.
  - now rewrite IH.
Qed.

Lemma flat_map_singletons {A B} (f : A -> B) (l : list A) :
  flat_map (fun a => [f a]) l = map f l.
Proof. induction l as [|a l IH]; simpl; [reflexivity|]. now rewrite IH. Qed.

End OneCharacter.

(** X5. The relative path that tags a file is the one of [node:path] with
    every backslash turned into a slash: it has the same length, the other
    characters are untouched, and no backslash is left. *)
Theorem getRelativePath_uses_slashes :
  forall (P : Platform) (filePath baseDir : jsstring),
    getRelativePath filePath baseDir
    = map (fun c => if (c =? chr "\")%N then chr "/" else c) (relative baseDir filePath)
    /\ ~ In (chr "\") (getRelativePath filePath baseDir).
Proof.
  intros P filePath baseDir.
  assert (E : getRelativePath filePath baseDir
              = map (fun c => if (c =? chr "\")%N then chr "/" else c)
                    (relative baseDir filePath)).
  { unfold getRelativePath. rewrite replace_char, <- flat_map_singletons.
    apply flat_map_ext. intro c. now destruct (c =? chr "\")%N. }
  split; [exact E|].
  rewrite E. intro H. apply in_map_iff in H as (c & Hc & _).
  destruct (c =? chr "\")%N eqn:Ec; [discriminate|].
  rewrite Hc, N.eqb_refl in Ec. discriminate.
Qed.

(** X6. The source text of the regular expression of a pattern is the
    pattern with [.*] in the place of every [*]; every other character,
    the other metacharacters of regular expressions included, is handed
    over as it is. *)
Theorem patternToRegex_source :
  forall (P : Platform) (pattern : jsstring),
    patternToRegex pattern
    = newRegExp (flat_map (fun c => if (c =? chr "*")%N then lit ".*" else [c]) pattern).
Proof.
  intros P pattern. unfold patternToRegex. now rewrite replace_char.
Qed.

(** ** What the discovery finds *)

Section DiscoveryFacts.
Context {P : Platform}.

Lemma traverse_In {A B} (f : A -> result B) (l : list A) (bs : list B) (a : A) :
  traverse f l = Ok bs -> In a l -> exists b, f a = Ok b.
Proof.
  intro H. apply traverse_Ok in H.
  induction H as [|a' b l' bs' Hf _ IH]; intro Hin; [destruct Hin|].
  destruct Hin as [<-|Hin]; eauto.
Qed.

Lemma traverse_Throw {A B} (f : A -> result B) (l : list A) (e : exn) :
  traverse f l = Throw e -> exists a, In a l /\ f a = Throw e.
Proof.
  induction l as [|a t IH]; simpl; intro H; [discriminate|].
  destruct (f a) as [b|e'] eqn:Ea; simpl in H.
  - destruct (traverse f t) as [bs|e'']; simpl in H; [discriminate|].
    destruct (IH H) as (a' & Hin & Ha'). exists a'. auto.
  - injection H as ->. exists a. auto.
Qed.

(** What is found at or below an entry is what is listed there. *)
Lemma filesOfEntry_Listed (filter : FileFilter) :
  forall (entry : Dirent) (dir : jsstring) (found : list jsstring),
    filesOfEntry dir filter entry = Ok found ->
    forall p, In p found <-> Listed filter dir entry p.
Proof.
  induction entry as [name|name e|name entries IH] using Dirent_nested_ind;
    intros dir found H p; cbn [filesOfEntry] in H.
  - injection H as <-. split.
    + destruct (filter name) eqn:E; [|intros []].
      intros [<-|[]]. now constructor.
    + intro HL. inversion HL as [d n Hn|]; subst. rewrite Hn. now left.
  - destruct (shouldSkipDirectory name) eqn:Hs; [|discriminate H].
    injection H as <-. split; [intros []|intro HL; inversion HL].
  - destruct (shouldSkipDirectory name) eqn:Hs.
    + injection H as <-. split; [intros []|].
      intro HL. inversion HL; subst. congruence.
    + cbn [bind] in H. apply bind_Ok in H as (results & Hr & H). injection H as <-.
      rewrite (found_below _ _ _ _ Hr). rewrite Forall_forall in IH. split.
      * intros (entry & below & Hin & Hf & Hp).
        apply (Listed_below filter dir name entries entry p Hs Hin).
        now apply (IH entry Hin _ _ Hf).
      * intro HL. inversion HL as [|d n es entry q _ Hin Hbelow]; subst.
        destruct (traverse_In _ _ _ entry Hr Hin) as [below Hf].
        exists entry, below. split; [exact Hin|]. split; [exact Hf|].
        now apply (IH entry Hin _ _ Hf).
Qed.

(** An entry fails exactly when a directory that is read at or below it
    cannot be, and with the error of such a directory. *)
Lemma filesOfEntry_Unreadable (filter : FileFilter) :
  forall (entry : Dirent) (dir : jsstring),
    match filesOfEntry dir filter entry with
    | Ok _ => forall e, ~ Unreadable entry e
    | Throw e => Unreadable entry e
    end.
Proof.
  induction entry as [name|name e|name entries IH] using Dirent_nested_ind;
    intro dir; cbn [filesOfEntry].
  - intros e H. inversion H.
  - destruct (shouldSkipDirectory name) eqn:Hs.
    + intros e' H. inversion H; subst. congruence.
    + cbn [bind]. now constructor.
  - destruct (shouldSkipDirectory name) eqn:Hs.
    + intros e' H. inversion H; subst. congruence.
    + cbn [bind]. rewrite Forall_forall in IH.
      destruct (traverse (filesOfEntry (pathJoin dir name) filter) entries)
        as [results|e] eqn:Hr; cbn [bind].
      * intros e H. inversion H as [|n es entry e' _ Hin Hbelow]; subst.
        destruct (traverse_In _ _ _ entry Hr Hin) as [below Hf].
        specialize (IH entry Hin (pathJoin dir name)). rewrite Hf in IH.
        exact (IH e Hbelow).
      * apply traverse_Throw in Hr as (entry & Hin & Hf).
        specialize (IH entry Hin (pathJoin dir name)). rewrite Hf in IH.
        exact (Unreadable_below name entries entry e Hs Hin IH).
Qed.

Lemma ltb_asym (a b : jsstring) : ltb a b = true -> ltb b a = false.
Proof.
  revert b. induction a as [|x a IH]; intros [|y b] H; simpl in *;
    try reflexivity; try discriminate.
  apply orb_true_iff in H as [H|H].
  - apply N.ltb_lt in H.
    replace (y <? x)%N with false by (symmetry; apply N.ltb_ge; lia).
    replace (y =? x)%N with false by (symmetry; apply N.eqb_neq; lia).
    reflexivity.
  - apply andb_prop in H as [E H]. apply N.eqb_eq in E. subst y.
    rewrite N.ltb_irrefl, N.eqb_refl. simpl. now apply IH.
Qed.

Lemma insertPath_sorted (p : jsstring) (l : list jsstring) :
  Sorted pathLe l -> Sorted pathLe (insertPath p l).
Proof.
  induction 1 as [|q t Ht IH Hq]; cbn [insertPath].
  - repeat constructor.
  - destruct (ltb q p) eqn:E.
    + constructor; [exact IH|].
      destruct t as [|r t']; cbn [insertPath].
      * constructor. now apply ltb_asym.
      * destruct (ltb r p); constructor.
        -- now inversion Hq.
        -- now apply ltb_asym.
    + constructor; [now constructor|]. constructor. exact E.
Qed.

Lemma sortPaths_sorted (l : list jsstring) : Sorted pathLe (sortPaths l).
Proof.
  induction l as [|p l IH]; cbn; [constructor|]. now apply insertPath_sorted.
Qed.

End DiscoveryFacts.

(** X7. The discovery returns a list exactly when the [readdir] of the
    directory and of every directory it reads below it succeed, none of
    them below a directory named [node_modules] or [dist] or starting with
    a dot. The list then holds exactly the files of the tree whose name
    passes the filter and that are not below such a directory. Otherwise the
    discovery fails, with the error of a [readdir] that was rejected. *)
Theorem discovery_lists_the_reachable_files :
  forall (P : Platform) (dir : jsstring) (filter : FileFilter),
    match getFilesRecursiveIO dir filter with
    | Ok found =>
        exists entries,
          readdir dir = Ok entries
          /\ (forall entry e, In entry entries -> ~ Unreadable entry e)
          /\ forall p, In p found
                       <-> exists entry, In entry entries /\ Listed filter dir entry p
    | Throw e =>
        readdir dir = Throw e
        \/ exists entries entry,
             readdir dir = Ok entries /\ In entry entries /\ Unreadable entry e
    end.
Proof.
  intros P dir filter. unfold getFilesRecursiveIO.
  destruct (readdir dir) as [entries|e]; cbn [bind]; [|now left].
  destruct (traverse (filesOfEntry dir filter) entries) as [results|e] eqn:Hr;
    cbn [bind].
  - exists entries. split; [reflexivity|]. split.
    + intros entry e Hin H.
      destruct (traverse_In _ _ _ entry Hr Hin) as [below Hf].
      pose proof (filesOfEntry_Unreadable filter entry dir) as Hu.
      rewrite Hf in Hu. exact (Hu e H).
    + intro p. rewrite (found_below _ _ _ _ Hr). split.
      * intros (entry & below & Hin & Hf & Hp). exists entry.
        split; [exact Hin|]. now apply (filesOfEntry_Listed filter entry dir below Hf).
      * intros (entry & Hin & HL).
        destruct (traverse_In _ _ _ entry Hr Hin) as [below Hf].
        exists entry, below. split; [exact Hin|]. split; [exact Hf|].
        now apply (filesOfEntry_Listed filter entry dir below Hf).
  - right. apply traverse_Throw in Hr as (entry & Hin & Hf).
    exists entries, entry. split; [reflexivity|]. split; [exact Hin|].
    pose proof (filesOfEntry_Unreadable filter entry dir) as Hu.
    now rewrite Hf in Hu.
Qed.

(** X8. The discovery returns its paths in ascending order of code units. *)
Theorem discovery_is_sorted :
  forall (P : Platform) (dir : jsstring)
         (includePatterns excludePatterns : option (list jsstring))
         (found : list jsstring),
    getTypeScriptFiles dir includePatterns excludePatterns = Ok found ->
    Sorted pathLe found.
Proof.
  intros P dir inc exc found H. unfold getTypeScriptFiles in H.
  apply bind_Ok in H as (filter & _ & H). unfold getFilesRecursiveIO in H.
  apply bind_Ok in H as (entries & _ & H).
  apply bind_Ok in H as (results & _ & H). injection H as <-.
  apply sortPaths_sorted.
Qed.

Lemma discovery_is_sorted_witness :
  @getTypeScriptFiles Sample.host (lit "src") None None
  = Ok [lit "src/a.ts"; lit "src/b.ts"; lit "src/lib/c.ts"]
  /\ Sorted pathLe [lit "src/a.ts"; lit "src/b.ts"; lit "src/lib/c.ts"].
Proof.
  split; [reflexivity|].
  exact (discovery_is_sorted Sample.host (lit "src") None None _ eq_refl).
Defined.

Section BatchRun.
Context {P : Platform}.

Lemma processFile_Ok (filePath : jsstring) (file : ProcessedFile) :
  processFile filePath None = Ok file ->
  Compressor.path file = filePath
  /\ readFile filePath = Ok (originalContent file)
  /\ compressedContent file = defaultCompressionPipeline (originalContent file).
Proof.
  unfold processFile. intro H.
  apply bind_Ok in H as (content & Hr & H). injection H as <-. auto.
Qed.

End BatchRun.

(** X9. When the batch run returns, it holds one processed file for each
    discovered path, in the order of the discovery: the file's content as
    read, the default pipeline's output for it, and the output built from
    these files in the mode asked for. *)
Theorem batch_result_follows_the_discovery :
  forall (P : Platform) (options : CompressOptions) (result : CompressResult),
    compressTypeScriptFiles options = Ok result ->
    getTypeScriptFiles (targetDir options) (includePatterns options)
                       (excludePatterns options)
    = Ok (map Compressor.path (files result))
    /\ Forall (fun f =>
                 readFile (Compressor.path f) = Ok (originalContent f)
                 /\ compressedContent f = defaultCompressionPipeline (originalContent f))
              (files result)
    /\ output result
       = generateOutput (files result) (targetDir options)
                        (orDefault (preserveStructure options) false).
Proof.
  intros P options result H. unfold compressTypeScriptFiles in H.
  apply bind_Ok in H as (paths & Hp & H).
  destruct (JS.length paths =? 0)%Z; [discriminate|].
  apply bind_Ok in H as (processed & Htr & H). injection H as <-.
  cbn [files Compressor.output]. apply traverse_Ok in Htr.
  split; [|split; [|reflexivity]].
  - rewrite Hp. f_equal. clear Hp.
    induction Htr as [|p f ps fs Hf _ IH]; [reflexivity|].
    cbn [map]. apply processFile_Ok in Hf as (Hpath & _). now rewrite Hpath, <- IH.
  - clear Hp. induction Htr as [|p f ps fs Hf _ IH]; [constructor|].
    constructor; [|exact IH].
    apply processFile_Ok in Hf as (-> & Hr & Hc). auto.
Qed.

Lemma batch_result_follows_the_discovery_witness :
  exists result,
    @compressTypeScriptFiles Sample.host (Sample.options "src" false) = Ok result
    /\ map Compressor.path (files result)
       = [lit "src/a.ts"; lit "src/b.ts"; lit "src/lib/c.ts"]
    /\ @getTypeScriptFiles Sample.host (lit "src") None None
       = Ok (map Compressor.path (files result)).
Proof.
  eexists. split; [reflexivity|]. split; [reflexivity|].
  exact (proj1 (batch_result_follows_the_discovery
                  Sample.host (Sample.options "src" false) _ eq_refl)).
Defined.

(** X10. The batch run is all or nothing. When the discovery fails, the run
    fails with the error of the discovery; when one of the discovered files
    cannot be read, wherever it is in the list, the run fails and gives no
    partial result. So a result is returned only if the discovery found at
    least one path and every file it found was read. *)
Theorem batch_run_is_all_or_nothing :
  forall (P : Platform) (options : CompressOptions),
    (forall error,
        getTypeScriptFiles (targetDir options) (includePatterns options)
                           (excludePatterns options) = Throw error ->
        compressTypeScriptFiles options = Throw error)
    /\ (forall paths p error,
           getTypeScriptFiles (targetDir options) (includePatterns options)
                              (excludePatterns options) = Ok paths ->
           In p paths ->
           readFile p = Throw error ->
           exists error', compressTypeScriptFiles options = Throw error')
    /\ (forall result,
           compressTypeScriptFiles options = Ok result ->
           exists paths,
             getTypeScriptFiles (targetDir options) (includePatterns options)
                                (excludePatterns options) = Ok paths
             /\ paths <> []
             /\ forall p, In p paths -> exists content, readFile p = Ok content).
Proof.
  intros P options.
  assert (Hall : forall result,
             compressTypeScriptFiles options = Ok result ->
             exists paths,
               getTypeScriptFiles (targetDir options) (includePatterns options)
                                  (excludePatterns options) = Ok paths
               /\ paths <> []
               /\ forall p, In p paths -> exists content, readFile p = Ok content).
  { intros result H. unfold compressTypeScriptFiles in H.
    apply bind_Ok in H as (paths & Hp & H). exists paths.
    split; [exact Hp|].
    destruct paths as [|p0 ps]; [discriminate|]. split; [discriminate|].
    change (JS.length (p0 :: ps) =? 0)%Z with false in H.
    apply bind_Ok in H as (processed & Htr & _).
    intros p Hin. destruct (traverse_In _ _ _ p Htr Hin) as [file Hf].
    apply processFile_Ok in Hf as (_ & Hr & _). eauto. }
  split; [|split; [|exact Hall]].
  - intros error H. unfold compressTypeScriptFiles. now rewrite H.
  - intros paths p error Hp Hin Hr.
    destruct (compressTypeScriptFiles options) as [result|error'] eqn:E; [|eauto].
    destruct (Hall result eq_refl) as (paths' & Hp' & _ & Hread).
    rewrite Hp in Hp'. injection Hp' as <-.
    destruct (Hread p Hin) as [content Hc]. rewrite Hr in Hc. discriminate.
Qed.

(** ** The compact output is one line *)

Section CompactOutput.
Context {P : Platform}.

Lemma concat_no_LF (parts : list jsstring) :
  Forall (fun part => ~ In LF part) parts -> ~ In LF (List.concat parts).
Proof.
  intros H Hin. apply in_concat in Hin as (part & Hpart & Hc).
  rewrite Forall_forall in H. exact (H part Hpart Hc).
Qed.

End CompactOutput.

(** X11. In compact mode the output of the batch run is a single line, as
    long as no relative path holds a line feed: the tags hold none and no
    compressed content does. *)
Theorem compact_batch_output_is_one_line :
  forall (P : Platform) (options : CompressOptions) (result : CompressResult),
    compressTypeScriptFiles options = Ok result ->
    orDefault (preserveStructure options) false = false ->
    (forall f, In f (files result) ->
               ~ In LF (getRelativePath (Compressor.path f) (targetDir options))) ->
    ~ In LF (output result).
Proof.
  intros P options result H Hmode Hpaths. unfold compressTypeScriptFiles in H.
  apply bind_Ok in H as (paths & _ & H).
  destruct (JS.length paths =? 0)%Z; [discriminate|].
  apply bind_Ok in H as (processed & Htr & H). injection H as <-.
  cbn [files Compressor.output] in *. rewrite Hmode.
  unfold generateOutput. rewrite join_empty_concat. apply concat_no_LF.
  apply Forall_map. apply Forall_forall. intros f Hf.
  assert (Hc : ~ In LF (compressedContent f)).
  { apply traverse_Ok in Htr. clear - Htr Hf.
    induction Htr as [|p f0 ps fs Hf0 _ IH]; [destruct Hf|].
    destruct Hf as [->|Hf]; [|now apply IH].
    apply processFile_Ok in Hf0 as (_ & _ & ->).
    apply processLines_no_LF. }
  unfold formatFileOutput. intro Hin.
  apply in_app_or in Hin as [Hin|Hin]; [cbn in Hin; intuition discriminate|].
  apply in_app_or in Hin as [Hin|Hin]; [exact (Hpaths f Hf Hin)|].
  apply in_app_or in Hin as [Hin|Hin]; [cbn in Hin; intuition discriminate|].
  exact (Hc Hin).
Qed.

Lemma compact_batch_output_is_one_line_witness :
  exists result,
    @compressTypeScriptFiles Sample.host (Sample.options "src" false) = Ok result
    /\ ~ In LF (output result).
Proof.
  eexists. split; [reflexivity|].
  apply (compact_batch_output_is_one_line Sample.host (Sample.options "src" false) _ eq_refl).
  - reflexivity.
  - intros f Hf Hin. vm_compute in Hf.
    destruct Hf as [<-|[<-|[<-|[]]]]; vm_compute in Hin; intuition discriminate.
Defined.

(** ** Selections *)

Section Selections.

Lemma has_In (s : Interactive.SelectionState) (i : nat) : has s i = true <-> In i s.
Proof.
  unfold has. rewrite existsb_exists. split.
  - intros (j & Hj & E). apply Nat.eqb_eq in E. now subst.
  - intro H. exists i. split; [exact H|apply Nat.eqb_refl].
Qed.

Lemma has_app (a b : Interactive.SelectionState) (k : nat) :
  has (a ++ b) k = has a k || has b k.
Proof. apply existsb_app. Qed.

Lemma has_delete (s : Interactive.SelectionState) (i k : nat) :
  has (delete s i) k = has s k && negb (k =? i)%nat.
Proof.
  unfold has, delete. induction s as [|j s IH]; [reflexivity|]. cbn [filter existsb].
  destruct (Nat.eqb_spec j i) as [->|Hji]; cbn [negb existsb]; rewrite IH.
  - destruct (Nat.eqb_spec k i); [now rewrite andb_false_r|].
    simpl. reflexivity.
  - destruct (Nat.eqb_spec k j) as [->|Hkj]; [|reflexivity].
    destruct (Nat.eqb_spec j i); [contradiction|]. reflexivity.
Qed.

Lemma has_add (s : Interactive.SelectionState) (i k : nat) :
  has (add s i) k = has s k || (k =? i)%nat.
Proof.
  unfold add. destruct (has s i) eqn:E.
  - destruct (Nat.eqb_spec k i) as [->|]; [now rewrite E|now rewrite orb_false_r].
  - rewrite has_app. simpl. now rewrite orb_false_r.
Qed.

Lemma toggle_one (s : Interactive.SelectionState) (i k : nat) :
  has (if has s i then delete s i else add s i) k = xorb (has s k) (k =? i)%nat.
Proof.
  destruct (has s i) eqn:E.
  - rewrite has_delete. destruct (Nat.eqb_spec k i) as [->|].
    + now rewrite E.
    + now rewrite andb_true_r, xorb_false_r.
  - rewrite has_add. destruct (Nat.eqb_spec k i) as [->|].
    + now rewrite E.
    + now rewrite orb_false_r, xorb_false_r.
Qed.

Lemma toggle_one_NoDup (s : Interactive.SelectionState) (i : nat) :
  NoDup s -> NoDup (if has s i then delete s i else add s i).
Proof.
  intro H. destruct (has s i) eqn:E.
  - now apply NoDup_filter.
  - unfold add. rewrite E. apply NoDup_app; [exact H|repeat constructor; auto|].
    intros x Hx [<-|[]]. apply has_In in Hx. congruence.
Qed.

End Selections.

(** X12. After [toggleSelection], an index is selected exactly when it was
    selected before and is named an even number of times, or was not and is
    named an odd number of times; and a selection without repetition stays
    one. *)
Theorem toggleSelection_flips_by_parity :
  forall (indices : list nat) (currentSelection : Interactive.SelectionState) (k : nat),
    has (toggleSelection currentSelection indices) k
    = xorb (has currentSelection k) (Nat.odd (count_occ Nat.eq_dec indices k))
    /\ (NoDup currentSelection -> NoDup (toggleSelection currentSelection indices)).
Proof.
  unfold toggleSelection.
  induction indices as [|i indices IH]; intros s k; cbn [fold_left count_occ].
  - split; [now rewrite xorb_false_r|auto].
  - destruct (IH (if has s i then delete s i else add s i) k) as [IHh IHn].
    split.
    + rewrite IHh, toggle_one.
      destruct (Nat.eq_dec i k) as [->|Hne].
      * rewrite Nat.eqb_refl, Nat.odd_succ, <- Nat.negb_odd.
        now destruct (has s k), (Nat.odd (count_occ Nat.eq_dec indices k)).
      * replace (k =? i)%nat with false by (symmetry; apply Nat.eqb_neq; congruence).
        now rewrite xorb_false_r.
    + intro H. apply IHn. now apply toggle_one_NoDup.
Qed.

Section SortedIndices.

Import Interactive.

Lemma insertIndex_comm (a b : nat) (l : list nat) :
  insertIndex a (insertIndex b l) = insertIndex b (insertIndex a l).
Proof.
  induction l as [|j l IH]; cbn [insertIndex];
    repeat match goal with
           | |- context [(?x <=? ?y)%nat] =>
               destruct (Nat.leb_spec x y); cbn [insertIndex]
           end;
    try lia; try reflexivity.
  - replace b with a by lia. reflexivity.
  - now rewrite IH.
  - replace b with a by lia. reflexivity.
Qed.

Lemma sortIndices_Permutation (l l' : list nat) :
  Permutation l l' -> sortIndices l = sortIndices l'.
Proof.
  unfold sortIndices.
  induction 1 as [|x l l' _ IH|x y l|l l' l'' _ IH1 _ IH2]; cbn [fold_right].
  - reflexivity.
  - now rewrite IH.
  - apply insertIndex_comm.
  - now rewrite IH1.
Qed.

Lemma insertIndex_In (i k : nat) (l : list nat) :
  In k (insertIndex i l) <-> k = i \/ In k l.
Proof.
  induction l as [|j l IH]; cbn [insertIndex]; [simpl; intuition congruence|].
  destruct (j <=? i)%nat; simpl; [rewrite IH|]; intuition congruence.
Qed.

Lemma insertIndex_sorted (i : nat) (l : list nat) :
  StronglySorted le l -> StronglySorted le (insertIndex i l).
Proof.
  induction 1 as [|j l Hl IH Hj]; cbn [insertIndex].
  - repeat constructor.
  - destruct (Nat.leb_spec j i).
    + constructor; [exact IH|].
      apply Forall_forall. intros k Hk. apply insertIndex_In in Hk as [->|Hk]; [exact H|].
      rewrite Forall_forall in Hj. now apply Hj.
    + constructor; [now constructor|].
      constructor; [lia|]. eapply Forall_impl; [|exact Hj]. simpl. intros. lia.
Qed.

Lemma sortIndices_sorted (l : list nat) : StronglySorted le (sortIndices l).
Proof.
  induction l as [|i l IH]; cbn; [constructor|]. now apply insertIndex_sorted.
Qed.

Lemma insertIndex_front (i : nat) (l : list nat) :
  Forall (fun k => i < k)%nat l -> insertIndex i l = i :: l.
Proof.
  destruct 1 as [|k l Hk _]; cbn [insertIndex]; [reflexivity|].
  destruct (Nat.leb_spec k i); [lia|reflexivity].
Qed.

Lemma filter_insertIndex (p : nat -> bool) (i : nat) (l : list nat) :
  StronglySorted le l ->
  filter p (insertIndex i l)
  = if p i then insertIndex i (filter p l) else filter p l.
Proof.
  induction 1 as [|j l Hl IH Hj]; cbn [insertIndex filter].
  - now destruct (p i).
  - destruct (Nat.leb_spec j i) as [Hji|Hji]; cbn [filter]; [rewrite IH|].
    + destruct (p j), (p i); cbn [insertIndex]; try reflexivity.
      destruct (Nat.leb_spec j i); [reflexivity|lia].
    + destruct (p i) eqn:Hi; [|reflexivity].
      symmetry. apply insertIndex_front.
      assert (Hall : Forall (fun k => i < k)%nat (j :: l)).
      { constructor; [exact Hji|].
        eapply Forall_impl; [|exact Hj]. simpl. intros. lia. }
      apply Forall_forall. intros k Hk.
      change (In k (filter p (j :: l))) in Hk. apply filter_In in Hk as [Hk _].
      rewrite Forall_forall in Hall. now apply Hall.
Qed.

Lemma filter_sortIndices (p : nat -> bool) (l : list nat) :
  filter p (sortIndices l) = sortIndices (filter p l).
Proof.
  induction l as [|i l IH]; [reflexivity|].
  change (sortIndices (i :: l)) with (insertIndex i (sortIndices l)).
  rewrite (filter_insertIndex p i _ (sortIndices_sorted l)), IH. cbn [filter].
  now destruct (p i).
Qed.

Lemma filterBoolean_inside (files : list jsstring) (l : list nat) :
  filterBoolean (map (fun i => nth_error files i) l)
  = filterBoolean
      (map (fun i => nth_error files i)
           (filter (fun i => i <? List.length files)%nat l)).
Proof.
  unfold filterBoolean. induction l as [|i l IH]; [reflexivity|].
  cbn [map flat_map filter]. destruct (Nat.ltb_spec i (List.length files)) as [Hi|Hi].
  - cbn [map flat_map]. now rewrite IH.
  - apply nth_error_None in Hi. rewrite Hi. exact IH.
Qed.

End SortedIndices.

(** X13. The order in which the files were selected does not matter to the
    selection run: the indices are sorted first. *)
Theorem selection_order_does_not_matter :
  forall (P : Platform) (files : list jsstring)
         (selectedIndices selectedIndices' : Interactive.SelectionState)
         (baseDir : jsstring) (preserveStructure : option bool),
    Permutation selectedIndices selectedIndices' ->
    Interactive.compressSelectedFiles files selectedIndices baseDir preserveStructure
    = Interactive.compressSelectedFiles files selectedIndices' baseDir preserveStructure.
Proof.
  intros P files sel sel' baseDir preserve H.
  unfold Interactive.compressSelectedFiles, Interactive.selectedFiles.
  now rewrite (sortIndices_Permutation sel sel' H).
Qed.

Lemma selection_order_does_not_matter_witness :
  Permutation [2; 0]%nat [0; 2]%nat
  /\ @Interactive.compressSelectedFiles
       Sample.host [lit "src/a.ts"; lit "src/b.ts"; lit "src/lib/c.ts"] [2; 0]%nat
       (lit "src") None
     = @Interactive.compressSelectedFiles
         Sample.host [lit "src/a.ts"; lit "src/b.ts"; lit "src/lib/c.ts"] [0; 2]%nat
         (lit "src") None.
Proof.
  split; [apply perm_swap|].
  apply (selection_order_does_not_matter Sample.host). apply perm_swap.
Defined.

(** X14. An index beyond the end of the file list is ignored by the
    selection run; it is no error. *)
Theorem indices_beyond_the_list_are_ignored :
  forall (P : Platform) (files : list jsstring)
         (selectedIndices : Interactive.SelectionState)
         (baseDir : jsstring) (preserveStructure : option bool),
    Interactive.compressSelectedFiles files selectedIndices baseDir preserveStructure
    = Interactive.compressSelectedFiles
        files (filter (fun i => i <? List.length files)%nat selectedIndices)
        baseDir preserveStructure.
Proof.
  intros P files sel baseDir preserve.
  unfold Interactive.compressSelectedFiles, Interactive.selectedFiles.
  now rewrite <- filter_sortIndices, <- filterBoolean_inside.
Qed.

(** ** The selection run and the batch run *)

Section SelectionRun.
Context {P : Platform}.

Import Interactive.

Lemma traverse_selected (l : list jsstring) :
  traverse (fun file =>
              content <- readFile file ;;
              Ok {| path := file;
                    original := content;
                    compressed := defaultCompressionPipeline content |}) l
  = processed <- traverse (fun file => processFile file None) l ;;
    Ok (map asSelected processed).
Proof.
  induction l as [|a l IH]; [reflexivity|]. cbn [traverse].
  rewrite IH. set (rest := traverse (fun file => processFile file None) l).
  unfold processFile. cbn [orDefault].
  destruct (readFile a) as [content|e]; [|reflexivity]. cbn [bind].
  destruct rest; reflexivity.
Qed.

Lemma traverse_length {A B} (f : A -> result B) (l : list A) (bs : list B) :
  traverse f l = Ok bs -> List.length bs = List.length l.
Proof.
  intro H. apply traverse_Ok in H. induction H; simpl; congruence.
Qed.

Lemma fold_sum (results : list Selected) (z : Z) :
  fold_left (fun sum r => (sum + JS.length (original r))%Z) results z
  = (z + sumZ (map (fun r => JS.length (original r)) results))%Z.
Proof.
  revert z. induction results as [|r rs IH]; intro z; simpl; [lia|].
  rewrite IH. unfold sumZ. lia.
Qed.

Lemma processed_original_sizes (l : list jsstring) (processed : list ProcessedFile) :
  traverse (fun file => processFile file None) l = Ok processed ->
  map (fun f => originalSize (Compressor.stats f)) processed
  = map (fun f => JS.length (originalContent f)) processed.
Proof.
  intro H. apply traverse_Ok in H.
  induction H as [|p f ps fs Hf _ IH]; [reflexivity|]. cbn [map].
  rewrite IH. now rewrite (processFile_stats p f Hf).
Qed.

Lemma selected_output (processed : list ProcessedFile) (baseDir : jsstring)
    (preserve : bool) :
  join (if preserve then [LF] else [])
       (map (fun r =>
               let relativePath := getRelativePath (path r) baseDir in
               if preserve
               then [LF] ++ lit "/*=== " ++ relativePath ++ lit " ===*/" ++ [LF]
                    ++ compressed r ++ [LF]
               else lit "/*" ++ relativePath ++ lit "*/" ++ compressed r)
            (map asSelected processed))
  = generateOutput processed baseDir preserve.
Proof. unfold generateOutput. now rewrite map_map. Qed.

Lemma selected_total (l : list jsstring) (processed : list ProcessedFile) :
  traverse (fun file => processFile file None) l = Ok processed ->
  fold_left (fun sum r => (sum + JS.length (original r))%Z) (map asSelected processed) 0%Z
  = totalOriginalSize (aggregateStats processed).
Proof.
  intro Htr. rewrite fold_sum, map_map. simpl.
  destruct (aggregateStats_sums processed) as [-> _].
  now rewrite (processed_original_sizes _ _ Htr).
Qed.

(** The selection run once the selected files are known. *)
Lemma selection_run_on (files : list jsstring) (selectedIndices : SelectionState)
    (baseDir : jsstring) (preserveStructure : option bool) (processed : list ProcessedFile) :
  (JS.length (selectedFiles files selectedIndices) =? 0)%Z = false ->
  traverse (fun file => processFile file None) (selectedFiles files selectedIndices)
  = Ok processed ->
  compressSelectedFiles files selectedIndices baseDir preserveStructure
  = Ok {| output := generateOutput processed baseDir (orDefault preserveStructure false);
          stats :=
            calculateStats
              (totalOriginalSize (aggregateStats processed))
              (JS.length (generateOutput processed baseDir
                                         (orDefault preserveStructure false)));
          fileCount := JS.length processed |}.
Proof.
  intros Hne Htr.
  assert (Hlen : JS.length (selectedFiles files selectedIndices) = JS.length processed).
  { unfold JS.length. now rewrite (traverse_length _ _ _ Htr). }
  unfold compressSelectedFiles.
  rewrite Hne, traverse_selected, Htr. cbn [bind].
  now rewrite selected_output, (selected_total _ _ Htr), Hlen.
Qed.

Lemma selection_run_fails (files : list jsstring) (selectedIndices : SelectionState)
    (baseDir : jsstring) (preserveStructure : option bool) (e : exn) :
  (JS.length (selectedFiles files selectedIndices) =? 0)%Z = false ->
  traverse (fun file => processFile file None) (selectedFiles files selectedIndices)
  = Throw e ->
  compressSelectedFiles files selectedIndices baseDir preserveStructure = Throw e.
Proof.
  intros Hne Htr. unfold compressSelectedFiles.
  now rewrite Hne, traverse_selected, Htr.
Qed.

Lemma sortIndices_seq (n a : nat) : sortIndices (seq a n) = seq a n.
Proof.
  revert a. induction n as [|n IH]; intro a; [reflexivity|].
  cbn [seq]. change (sortIndices (a :: seq (S a) n))
    with (insertIndex a (sortIndices (seq (S a) n))).
  rewrite IH. apply insertIndex_front.
  apply Forall_forall. intros k Hk. apply in_seq in Hk. lia.
Qed.

Lemma every_index (l : list jsstring) :
  map (fun i => nth_error l i) (seq 0 (List.length l)) = map Some l.
Proof.
  induction l as [|x l IH]; [reflexivity|].
  cbn [List.length seq map nth_error]. f_equal.
  rewrite <- seq_shift, map_map. exact IH.
Qed.

Lemma filterBoolean_Some (l : list jsstring) :
  Forall (fun p => p <> []) l -> filterBoolean (map Some l) = l.
Proof.
  unfold filterBoolean. induction 1 as [|p l Hp _ IH]; [reflexivity|].
  cbn [map flat_map]. rewrite IH. destruct p; [contradiction|reflexivity].
Qed.

End SelectionRun.

(** X15. The selection run is the batch run's own steps on the selected
    files: it fails with "No files selected" when nothing is selected, and
    otherwise each file goes through [processFile], the output is that of
    [generateOutput], and the statistics are those of the originals' total
    and the output's length. *)
Theorem selection_run_follows_the_batch_steps :
  forall (P : Platform) (files : list jsstring)
         (selectedIndices : Interactive.SelectionState)
         (baseDir : jsstring) (preserveStructure : option bool),
    Interactive.compressSelectedFiles files selectedIndices baseDir preserveStructure
    = let selected := Interactive.selectedFiles files selectedIndices in
      if (JS.length selected =? 0)%Z
      then Throw (Error (lit "No files selected"))
      else
        processed <- traverse (fun file => processFile file None) selected ;;
        let output :=
          generateOutput processed baseDir (orDefault preserveStructure false) in
        Ok {| Interactive.output := output;
              Interactive.stats :=
                calculateStats (totalOriginalSize (aggregateStats processed))
                               (JS.length output);
              Interactive.fileCount := JS.length processed |}.
Proof.
  intros P files selectedIndices baseDir preserveStructure. cbv zeta.
  destruct (JS.length (Interactive.selectedFiles files selectedIndices) =? 0)%Z eqn:Hne.
  - unfold Interactive.compressSelectedFiles. now rewrite Hne.
  - destruct (traverse (fun file => processFile file None)
                       (Interactive.selectedFiles files selectedIndices))
      as [processed|e] eqn:Htr; cbn [bind].
    + now apply selection_run_on.
    + now apply selection_run_fails.
Qed.

(** X16. Compressing one file from the menu gives the text that the batch
    run gives for it in compact mode, but counts the tag into the compressed
    size: the size is that of [processFile] plus the four characters of the
    comment delimiters and the length of the relative path. *)
Theorem single_file_counts_its_tag :
  forall (P : Platform) (T : Terminal) (filePath baseDir : jsstring) (single : Single),
    processSingleFile filePath baseDir = Ok single ->
    exists file,
      processFile filePath None = Ok file
      /\ content single = formatFileOutput file baseDir false
      /\ originalSize (singleStats single) = originalSize (Compressor.stats file)
      /\ compressedSize (singleStats single)
         = (compressedSize (Compressor.stats file) + 4
            + JS.length (getRelativePath filePath baseDir))%Z.
Proof.
  intros P T filePath baseDir single H. unfold processSingleFile in H.
  apply bind_Ok in H as (original & Hr & H). injection H as <-.
  unfold processFile. rewrite Hr. cbn [bind orDefault]. eexists.
  split; [reflexivity|]. split; [reflexivity|]. split; [reflexivity|].
  cbn. unfold JS.length. rewrite !length_app. cbn [List.length lit map list_ascii_of_string].
  lia.
Qed.

Lemma single_file_counts_its_tag_witness :
  exists single file,
    @processSingleFile Sample.host (lit "src/b.ts") (lit "src") = Ok single
    /\ @processFile Sample.host (lit "src/b.ts") None = Ok file
    /\ content single = lit "/*b.ts*/const x=1;"
    /\ compressedSize (Compressor.stats file) = 10%Z
    /\ compressedSize (singleStats single) = 18%Z.
Proof.
  destruct (single_file_counts_its_tag
              Sample.host Desk.terminal (lit "src/b.ts") (lit "src") _ eq_refl)
    as (file & Hf & Hc & _ & Hs).
  eexists. exists file. split; [reflexivity|]. split; [exact Hf|].
  split; [reflexivity|].
  injection Hf as <-. split; reflexivity.
Defined.

(** X17. Compressing all files from the menu is compressing the selection of
    every discovered file. *)
Theorem compressing_all_is_selecting_all :
  forall (P : Platform) (T : Terminal) (options : CompressOptions) (paths : list jsstring),
    getTypeScriptFiles (targetDir options) (includePatterns options)
                       (excludePatterns options) = Ok paths ->
    paths <> [] ->
    Forall (fun p => p <> []) paths ->
    compressAllFiles options
    = Interactive.compressSelectedFiles paths (seq 0 (List.length paths))
                                        (targetDir options) (preserveStructure options).
Proof.
  intros P T options paths Hp Hne Hpaths.
  assert (Hsel : Interactive.selectedFiles paths (seq 0 (List.length paths)) = paths).
  { unfold Interactive.selectedFiles.
    now rewrite sortIndices_seq, every_index, (filterBoolean_Some _ Hpaths). }
  assert (Hlen : (JS.length paths =? 0)%Z = false).
  { destruct paths; [now destruct Hne|reflexivity]. }
  unfold compressAllFiles, compressTypeScriptFiles. rewrite Hp. cbn [bind].
  rewrite Hlen.
  destruct (traverse (fun file => processFile file None) paths)
    as [processed|e] eqn:Htr; cbn [bind files Compressor.output totalStats].
  - symmetry. apply selection_run_on; now rewrite Hsel.
  - symmetry. apply selection_run_fails; now rewrite Hsel.
Qed.

Lemma compressing_all_is_selecting_all_witness :
  @compressAllFiles Sample.host (Sample.options "src" true)
  = @Interactive.compressSelectedFiles
      Sample.host [lit "src/a.ts"; lit "src/b.ts"; lit "src/lib/c.ts"] [0; 1; 2]%nat
      (lit "src") (Some true).
Proof.
  apply (compressing_all_is_selecting_all
           Sample.host Desk.terminal (Sample.options "src" true)
           [lit "src/a.ts"; lit "src/b.ts"; lit "src/lib/c.ts"]).
  - reflexivity.
  - discriminate.
  - repeat constructor; discriminate.
Defined.

(** ** Reading a choice from the keyboard *)

(** *** Numbers in text *)

Section Numerals.

Ltac read_digit :=
  match goal with
  | |- context [lit (String ?a ?s)] =>
      change (lit (String a s)) with (N_of_ascii a :: lit s)
  end;
  cbn [digits];
  match goal with
  | |- context [digitValue 10 ?c] =>
      let v := eval vm_compute in (digitValue 10 c) in
      change (digitValue 10 c) with v
  end;
  cbv iota beta.

Lemma digits_acc (d : Decimal.uint) :
  forall acc : positive,
    digits 10 (lit (NilEmpty.string_of_uint d)) (Some (Z.pos acc))
    = Some (Z.pos (Pos.of_uint_acc d acc)).
Proof.
  induction d; intro acc; cbn [NilEmpty.string_of_uint Pos.of_uint_acc];
    try reflexivity;
    (rewrite <- IHd; read_digit; f_equal; f_equal; lia).
Qed.

Lemma digits_zero (d : Decimal.uint) :
  digits 10 (lit (NilEmpty.string_of_uint d)) (Some 0%Z)
  = Some (Z.of_N (Pos.of_uint d)).
Proof.
  induction d; cbn [NilEmpty.string_of_uint Pos.of_uint]; try reflexivity;
    read_digit; [exact IHd|..]; apply digits_acc.
Qed.

Lemma digits_of_uint (d : Decimal.uint) :
  d <> Decimal.Nil ->
  digits 10 (lit (NilEmpty.string_of_uint d)) None = Some (Z.of_N (Pos.of_uint d)).
Proof.
  destruct d; intro H; [now destruct H|..];
    cbn [NilEmpty.string_of_uint Pos.of_uint]; read_digit;
    [apply digits_zero|..]; apply digits_acc.
Qed.

Lemma uint_digits (d : Decimal.uint) :
  Forall (fun c => isDigit c = true) (lit (NilEmpty.string_of_uint d)).
Proof.
  induction d; cbn [NilEmpty.string_of_uint]; try constructor;
    solve [reflexivity | exact IHd].
Qed.

Lemma digit_not_space (c : char) : isDigit c = true -> isSpace c = false.
Proof.
  unfold isDigit, isSpace, isWhiteSpace, isLineTerminator. intro H.
  apply andb_prop in H as [H1 H2]. apply N.leb_le in H1, H2.
  repeat match goal with
         | |- context [(c =? ?k)%N] =>
             replace (c =? k)%N with false by (symmetry; apply N.eqb_neq; lia)
         | |- context [(?k <=? c)%N] =>
             replace (k <=? c)%N with false by (symmetry; apply N.leb_gt; lia)
         end.
  reflexivity.
Qed.

Lemma decimal_positive (p : positive) :
  decimal (Z.pos p) = lit (NilEmpty.string_of_uint (Pos.to_uint p)).
Proof.
  unfold decimal. cbn [Z.to_int NilZero.string_of_int].
  pose proof (Unsigned.to_uint_nonnil p) as Hnil.
  destruct (Pos.to_uint p); [now destruct Hnil|reflexivity..].
Qed.

Lemma after_In (s : jsstring) (prev : option char) (y : char) :
  after prev s = Some y -> s <> [] -> In y s.
Proof.
  intros H Hne. destruct (exists_last Hne) as (init & z & ->).
  rewrite after_last in H. injection H as ->. apply in_or_app. right. now left.
Qed.

Lemma digits_trimmed (s : jsstring) :
  Forall (fun c => isDigit c = true) s -> trim s = s.
Proof.
  intro Hd. apply trim_fixed. unfold trimmed.
  destruct s as [|c t]; [reflexivity|]. cbn [hd_error].
  rewrite Forall_forall in Hd.
  rewrite (digit_not_space c (Hd c (or_introl eq_refl))). cbn [negb andb].
  destruct (after None (c :: t)) as [y|] eqn:Ey; [|reflexivity].
  apply after_In in Ey; [|discriminate].
  now rewrite (digit_not_space y (Hd y Ey)).
Qed.

(** The integer read from [String(n)] is [n], for a natural number [n]. *)
Lemma mathInt_positive (p : positive) : mathInt (decimal (Z.pos p)) = Some (Z.pos p).
Proof.
  unfold decimal. cbn [Z.to_int NilZero.string_of_int].
  pose proof (Unsigned.to_uint_nonnil p) as Hnil.
  pose proof (Unsigned.of_to p) as Hval.
  pose proof (uint_digits (Pos.to_uint p)) as Hd.
  pose proof (digits_of_uint (Pos.to_uint p) Hnil) as Hv.
  assert (E : NilZero.string_of_uint (Pos.to_uint p)
              = NilEmpty.string_of_uint (Pos.to_uint p)).
  { destruct (Pos.to_uint p); [now destruct Hnil|reflexivity..]. }
  rewrite E. rewrite Hval in Hv.
  destruct (lit (NilEmpty.string_of_uint (Pos.to_uint p))) as [|c t] eqn:El.
  - discriminate.
  - unfold mathInt, trimStart. cbn [dropWhile].
    inversion Hd as [|? ? Hc Ht]; subst.
    rewrite (digit_not_space c Hc).
    assert (Hminus : (c =? chr "-")%N = false).
    { unfold isDigit in Hc. apply andb_prop in Hc as [H1 H2].
      apply N.leb_le in H1, H2. apply N.eqb_neq. cbn. lia. }
    assert (Hplus : (c =? chr "+")%N = false).
    { unfold isDigit in Hc. apply andb_prop in Hc as [H1 H2].
      apply N.leb_le in H1, H2. apply N.eqb_neq. cbn. lia. }
    rewrite Hminus, Hplus.
    cbv beta iota zeta.
    assert (Hend : option_map (Z.mul 1) (digits 10 (c :: t) None) = Some (Z.pos p)).
    { rewrite Hv. cbn [option_map Z.of_N]. now rewrite Z.mul_1_l. }
    destruct t as [|b t']; [exact Hend|].
    inversion Ht as [|? ? Hb _]; subst.
    unfold isDigit in Hb. apply andb_prop in Hb as [H1 H2].
    apply N.leb_le in H1, H2.
    replace (b =? chr "x")%N with false by (symmetry; apply N.eqb_neq; cbn; lia).
    replace (b =? chr "X")%N with false by (symmetry; apply N.eqb_neq; cbn; lia).
    rewrite andb_false_r. exact Hend.
Qed.

Lemma toNumber_exact (z : Z) : (Z.abs z <= 2 ^ 53)%Z -> toNumber z = Integer z.
Proof.
  intro H. unfold toNumber. cbv zeta.
  now replace (Z.abs z <=? 2 ^ 53)%Z with true by (symmetry; now apply Z.leb_le).
Qed.

(** [parseInt(String(n)) - 1] is [n - 1] for a natural number [n] up to
    2^53. *)
Lemma parseInt_positive (p : positive) :
  (Z.pos p <= 2 ^ 53)%Z ->
  minusOne (parseInt (decimal (Z.pos p))) = Integer (Z.pos p - 1).
Proof.
  intro H. unfold parseInt. rewrite mathInt_positive.
  rewrite toNumber_exact by lia. cbn [minusOne]. apply toNumber_exact. lia.
Qed.

End Numerals.

(** *** Choices *)

Section Choices.
Context {T : Terminal}.

Lemma inRange_index (fileCount : Z) (n : integral) :
  inRange fileCount n = true -> (Z.of_nat (asIndex n) < fileCount)%Z.
Proof.
  destruct n as [|negative|z]; [discriminate..|]. cbn [inRange asIndex]. intro H.
  apply andb_prop in H as [H0 H1]. apply Z.leb_le in H0. apply Z.ltb_lt in H1.
  rewrite Z2Nat.id; assumption.
Qed.

Lemma parseChoice_cases (choice : jsstring) (fileCount : Z)
    (isMultiSelectMode hasSelection : bool) :
  let lowerChoice := trim (toLowerCase choice) in
  parseChoice choice fileCount isMultiSelectMode hasSelection
  = if list_eq_b lowerChoice (lit "q") then Choice Quit
    else if list_eq_b lowerChoice (lit "a") then Choice All
    else if list_eq_b lowerChoice (lit "m") && negb isMultiSelectMode then Choice Multi
    else if list_eq_b lowerChoice (lit "c") && hasSelection then Choice CompressSelected
    else if list_eq_b lowerChoice (lit "x") && hasSelection then Choice Clear
    else if isMultiSelectMode then
      match filter (inRange fileCount)
                   (map (fun s => minusOne (parseInt (trim s)))
                        (splitRegExp [Plus isSeparator] choice)) with
      | [] => Null
      | n :: indices => Indices (map asIndex (n :: indices))
      end
    else
      if inRange fileCount (minusOne (parseInt choice))
      then Choice (File (asIndex (minusOne (parseInt choice))))
      else Null.
Proof.
  unfold parseChoice. cbv zeta.
  repeat match goal with
         | |- (if ?b then _ else _) = (if ?b then _ else _) =>
             destruct b; [reflexivity|]
         end.
  destruct isMultiSelectMode; [|reflexivity].
  now destruct (filter _ _).
Qed.

Lemma parseChoice_File (choice : jsstring) (fileCount : Z)
    (isMultiSelectMode hasSelection : bool) (index : nat) :
  parseChoice choice fileCount isMultiSelectMode hasSelection = Choice (File index) ->
  isMultiSelectMode = false /\ (Z.of_nat index < fileCount)%Z.
Proof.
  rewrite parseChoice_cases. cbv zeta.
  repeat match goal with
         | |- (if ?b then _ else _) = _ -> _ => destruct b; [discriminate|]
         end.
  destruct isMultiSelectMode.
  - destruct (filter _ _); discriminate.
  - destruct (inRange fileCount _) eqn:E; [|discriminate].
    intro H. injection H as <-. split; [reflexivity|]. now apply inRange_index.
Qed.

Lemma parseChoice_Indices (choice : jsstring) (fileCount : Z)
    (isMultiSelectMode hasSelection : bool) (indices : list nat) :
  parseChoice choice fileCount isMultiSelectMode hasSelection = Indices indices ->
  isMultiSelectMode = true /\ indices <> []
  /\ Forall (fun i => (Z.of_nat i < fileCount)%Z) indices.
Proof.
  rewrite parseChoice_cases. cbv zeta.
  repeat match goal with
         | |- (if ?b then _ else _) = _ -> _ => destruct b; [discriminate|]
         end.
  destruct isMultiSelectMode.
  - destruct (filter _ _) as [|n kept] eqn:E; [discriminate|].
    intro H. injection H as <-. split; [reflexivity|]. split; [discriminate|].
    change (asIndex n :: map asIndex kept) with (map asIndex (n :: kept)).
    apply Forall_map. apply Forall_forall. intros a Ha. apply inRange_index.
    rewrite <- E in Ha. now apply filter_In in Ha as [_ Ha].
  - destruct (inRange fileCount _); discriminate.
Qed.

Lemma parseChoice_Multi (choice : jsstring) (fileCount : Z)
    (isMultiSelectMode hasSelection : bool) :
  parseChoice choice fileCount isMultiSelectMode hasSelection = Choice Multi ->
  isMultiSelectMode = false.
Proof.
  rewrite parseChoice_cases. cbv zeta.
  destruct (list_eq_b _ (lit "q")); [discriminate|].
  destruct (list_eq_b _ (lit "a")); [discriminate|].
  destruct (list_eq_b _ (lit "m") && negb isMultiSelectMode) eqn:Em.
  { intros _. apply andb_prop in Em as [_ Em]. now destruct isMultiSelectMode. }
  repeat match goal with
         | |- (if ?b then _ else _) = _ -> _ => destruct b; [discriminate|]
         end.
  destruct isMultiSelectMode.
  - destruct (filter _ _); discriminate.
  - destruct (inRange fileCount _); discriminate.
Qed.

Lemma parseChoice_selection (choice : jsstring) (fileCount : Z)
    (isMultiSelectMode hasSelection : bool) :
  parseChoice choice fileCount isMultiSelectMode hasSelection = Choice CompressSelected
  \/ parseChoice choice fileCount isMultiSelectMode hasSelection = Choice Clear ->
  hasSelection = true.
Proof.
  rewrite parseChoice_cases. cbv zeta.
  destruct (list_eq_b _ (lit "q")); [intros [|]; discriminate|].
  destruct (list_eq_b _ (lit "a")); [intros [|]; discriminate|].
  destruct (list_eq_b _ (lit "m") && negb isMultiSelectMode);
    [intros [|]; discriminate|].
  destruct (list_eq_b _ (lit "c") && hasSelection) eqn:Ec.
  { intros _. now apply andb_prop in Ec as [_ Ec]. }
  destruct (list_eq_b _ (lit "x") && hasSelection) eqn:Ex.
  { intros _. now apply andb_prop in Ex as [_ Ex]. }
  destruct isMultiSelectMode.
  - destruct (filter _ _); intros [|]; discriminate.
  - destruct (inRange fileCount _); intros [|]; discriminate.
Qed.

End Choices.

(** X18. What [parseChoice] returns can be acted upon: a file index, and
    every index of a multiple choice, is below the file count, and a
    multiple choice is not empty; a single file is chosen in single mode
    only and several in multi-select mode only, the multi-select mode is
    entered from single mode only, and compressing or clearing the selection
    is offered only when there is one. *)
Theorem parseChoice_stays_within_bounds :
  forall (T : Terminal) (choice : jsstring) (fileCount : Z)
         (isMultiSelectMode hasSelection : bool),
    match parseChoice choice fileCount isMultiSelectMode hasSelection with
    | Choice (File index) =>
        isMultiSelectMode = false /\ (Z.of_nat index < fileCount)%Z
    | Indices indices =>
        isMultiSelectMode = true /\ indices <> []
        /\ Forall (fun i => (Z.of_nat i < fileCount)%Z) indices
    | Choice Multi => isMultiSelectMode = false
    | Choice CompressSelected | Choice Clear => hasSelection = true
    | Choice All | Choice Quit | Null => True
    end.
Proof.
  intros T choice fileCount isMultiSelectMode hasSelection.
  destruct (parseChoice choice fileCount isMultiSelectMode hasSelection)
    as [[index| | | | |]|indices|] eqn:E.
  - now apply parseChoice_File in E.
  - exact I.
  - now apply parseChoice_Multi in E.
  - apply (parseChoice_selection choice fileCount isMultiSelectMode). now left.
  - apply (parseChoice_selection choice fileCount isMultiSelectMode). now right.
  - exact I.
  - now apply parseChoice_Indices in E.
  - exact I.
Qed.

(** X19. In single mode, typing the number under which the menu lists a file
    (its index plus one, in decimal digits) chooses that file, on a host
    whose case mapping leaves these digits alone and as long as there are
    at most 2^53 files: up to there every number typed is read exactly. *)
Theorem typed_number_chooses_the_file :
  forall (T : Terminal) (fileCount : Z) (index : nat) (hasSelection : bool),
    toLowerCase (decimal (Z.of_nat index + 1)) = decimal (Z.of_nat index + 1) ->
    (Z.of_nat index < fileCount)%Z ->
    (fileCount <= 2 ^ 53)%Z ->
    parseChoice (decimal (Z.of_nat index + 1)) fileCount false hasSelection
    = Choice (File index).
Proof.
  intros T fileCount index hasSelection Hcase Hlt Hmax.
  destruct (Z.of_nat index + 1)%Z as [|p|p] eqn:Ep; try lia.
  pose proof (parseInt_positive p ltac:(lia)) as Hparse.
  assert (Hd : Forall (fun c => isDigit c = true) (decimal (Z.pos p))).
  { rewrite decimal_positive. apply uint_digits. }
  unfold parseChoice. rewrite Hcase, Hparse, (digits_trimmed _ Hd).
  destruct (decimal (Z.pos p)) as [|c t] eqn:E; [discriminate|].
  inversion Hd as [|? ? Hc _]; subst.
  unfold isDigit in Hc. apply andb_prop in Hc as [H1 H2].
  apply N.leb_le in H1, H2.
  assert (Hletter : forall k : char, (97 <= k)%N -> list_eq_b (c :: t) [k] = false).
  { intros k Hk. cbn [list_eq_b].
    replace (c =? k)%N with false by (symmetry; apply N.eqb_neq; lia). reflexivity. }
  change (lit "q") with [113%N]. change (lit "a") with [97%N].
  change (lit "m") with [109%N]. change (lit "c") with [99%N].
  change (lit "x") with [120%N].
  rewrite !Hletter by lia. cbn [andb inRange asIndex].
  replace (0 <=? Z.pos p - 1)%Z with true by (symmetry; apply Z.leb_le; lia).
  replace (Z.pos p - 1 <? fileCount)%Z with true by (symmetry; apply Z.ltb_lt; lia).
  cbn [andb]. do 2 f_equal. lia.
Qed.

Lemma typed_number_chooses_the_file_witness :
  @parseChoice Desk.terminal (lit "12") 20 false false = Choice (File 11).
Proof.
  apply (typed_number_chooses_the_file Desk.terminal 20 11 false);
    [reflexivity|lia|now vm_compute].
Defined.

(** *** Several numbers in one line *)

Section SeveralNumbers.

Lemma digit_not_separator (c : char) : isDigit c = true -> isSeparator c = false.
Proof.
  intro H. unfold isSeparator. rewrite (digit_not_space c H), orb_false_r.
  unfold isDigit in H. apply andb_prop in H as [H1 H2]. apply N.leb_le in H1, H2.
  apply N.eqb_neq. cbn. lia.
Qed.

Lemma exec_separators_none (prev : option char) (c : char) (t : jsstring) :
  isSeparator c = false -> exec [Plus isSeparator] prev (c :: t) = None.
Proof. intro H. unfold exec. cbn [run]. now rewrite H. Qed.

Lemma exec_separators_run (prev : option char) (c : char) (w : jsstring) (d : char)
    (t : jsstring) :
  isSeparator c = true -> Forall (fun x => isSeparator x = true) w ->
  isSeparator d = false ->
  exists g, exec [Plus isSeparator] prev (c :: w ++ d :: t) = Some (S (List.length w), g).
Proof.
  intros Hc Hw Hd. unfold exec. cbn [run]. rewrite Hc.
  rewrite star_greedy by discriminate.
  assert (Ht : takeWhile isSeparator (w ++ d :: t) = w).
  { clear - Hw Hd. induction Hw as [|x w Hx _ IH]; cbn [app takeWhile].
    - now rewrite Hd.
    - now rewrite Hx, IH. }
  rewrite Ht. cbn [run]. rewrite Nat.add_comm. eauto.
Qed.

Lemma splitFrom_skip (r : regex) (m t : jsstring) :
  forall prev cur,
    splitFrom r (List.length m) prev cur (m ++ t)
    = splitFrom r 0 (after prev m) cur t.
Proof.
  induction m as [|c m IH]; intros prev cur; [reflexivity|].
  cbn [List.length app splitFrom]. apply IH.
Qed.

Lemma splitFrom_item (item : jsstring) :
  Forall (fun c => isDigit c = true) item ->
  forall rest prev cur,
    splitFrom [Plus isSeparator] 0 prev cur (item ++ rest)
    = splitFrom [Plus isSeparator] 0 (after prev item) (rev item ++ cur) rest.
Proof.
  induction 1 as [|c item Hc _ IH]; intros rest prev cur; [reflexivity|].
  cbn [app splitFrom].
  rewrite (exec_separators_none prev c _ (digit_not_separator c Hc)).
  rewrite IH. cbn [rev]. now rewrite <- app_assoc.
Qed.

Lemma splitFrom_join (sep : jsstring) (items : list jsstring) :
  sep <> [] -> Forall (fun x => isSeparator x = true) sep ->
  Forall (fun item => item <> [] /\ Forall (fun c => isDigit c = true) item) items ->
  forall first prev cur,
    Forall (fun c => isDigit c = true) first ->
    splitFrom [Plus isSeparator] 0 prev cur (join sep (first :: items))
    = (rev cur ++ first) :: items.
Proof.
  intros Hne Hsep. induction 1 as [|item items [Hitem Hd] _ IH];
    intros first prev cur Hfirst.
  - cbn [join]. rewrite <- (app_nil_r first) at 1. rewrite (splitFrom_item first Hfirst).
    cbn [splitFrom]. now rewrite rev_app_distr, rev_involutive.
  - change (join sep (first :: item :: items))
      with (first ++ sep ++ join sep (item :: items)).
    rewrite (splitFrom_item first Hfirst).
    destruct sep as [|c w]; [now destruct Hne|].
    inversion Hsep as [|? ? Hc Hw]; subst.
    assert (Hnext : exists d t, join (c :: w) (item :: items) = d :: t
                                /\ isSeparator d = false).
    { destruct item as [|d t]; [now destruct Hitem|].
      inversion Hd as [|? ? Hd0 _]; subst.
      destruct items; cbn [join app]; eexists; eexists;
        (split; [reflexivity|now apply digit_not_separator]). }
    destruct Hnext as (d & t & Ej & Hdsep).
    cbn [app splitFrom]. rewrite Ej.
    destruct (exec_separators_run (after prev first) c w d t Hc Hw Hdsep) as (g & ->).
    f_equal; [now rewrite rev_app_distr, rev_involutive|].
    rewrite splitFrom_skip, <- Ej. rewrite IH by exact Hd. reflexivity.
Qed.

End SeveralNumbers.

Section MultipleChoice.
Context {T : Terminal}.

Lemma trim_keeps_first (c : char) (t : jsstring) :
  isSpace c = false -> exists t', trim (c :: t) = c :: t'.
Proof.
  intro Hc. unfold trim, trimStart, trimEnd. cbn [dropWhile]. rewrite Hc.
  destruct (trimEnd_prefix (c :: t)) as (b & Hb). unfold trimEnd in Hb.
  destruct (rev (dropWhile isSpace (rev (c :: t)))) as [|x t'] eqn:E.
  - exfalso. apply (f_equal (@rev char)) in E. rewrite rev_involutive in E.
    cbn [rev] in E.
    assert (Hin : In c (rev t ++ [c])) by (apply in_or_app; right; now left).
    clear Hb. revert E Hin. generalize (rev t ++ [c]). intro l.
    induction l as [|y l IH]; cbn [dropWhile]; [intros _ []|].
    destruct (isSpace y) eqn:Hy; [|discriminate].
    intros E [->|Hin]; [congruence|now apply IH].
  - cbn [app] in Hb. injection Hb as <- _. now exists t'.
Qed.

Lemma typed_items (fileCount : Z) (indices : list nat) :
  (fileCount <= 2 ^ 53)%Z ->
  Forall (fun i => (Z.of_nat i < fileCount)%Z) indices ->
  map asIndex
      (filter (inRange fileCount)
              (map (fun s => minusOne (parseInt (trim s)))
                   (map (fun i => decimal (Z.of_nat i + 1)) indices)))
  = indices.
Proof.
  intro Hmax. induction 1 as [|i indices Hi _ IH]; [reflexivity|]. cbn [map].
  destruct (Z.of_nat i + 1)%Z as [|p|p] eqn:Ep; try lia.
  assert (Hd : Forall (fun c => isDigit c = true) (decimal (Z.pos p))).
  { rewrite decimal_positive. apply uint_digits. }
  rewrite (digits_trimmed _ Hd), parseInt_positive by lia. cbn [filter inRange].
  replace (0 <=? Z.pos p - 1)%Z with true by (symmetry; apply Z.leb_le; lia).
  replace (Z.pos p - 1 <? fileCount)%Z with true by (symmetry; apply Z.ltb_lt; lia).
  cbn [andb map asIndex]. rewrite IH. f_equal. lia.
Qed.

End MultipleChoice.

(** X20. In multi-select mode, typing the numbers under which the menu
    lists some files, separated by commas or white space, is the choice of
    exactly these files, in the order typed, on a host whose case mapping
    leaves the line alone and as long as there are at most 2^53 files. *)
Theorem typed_numbers_choose_the_files :
  forall (T : Terminal) (fileCount : Z) (indices : list nat) (sep : jsstring)
         (hasSelection : bool),
    let choice := join sep (map (fun i => decimal (Z.of_nat i + 1)) indices) in
    toLowerCase choice = choice ->
    indices <> [] ->
    Forall (fun i => (Z.of_nat i < fileCount)%Z) indices ->
    (fileCount <= 2 ^ 53)%Z ->
    sep <> [] ->
    Forall (fun c => isSeparator c = true) sep ->
    parseChoice choice fileCount true hasSelection = Indices indices.
Proof.
  intros T fileCount indices sep hasSelection choice Hcase Hne Hrange Hmax Hsep Hseps.
  destruct indices as [|i indices]; [now destruct Hne|].
  assert (Hitems : forall l : list nat,
             Forall (fun item => item <> [] /\ Forall (fun c => isDigit c = true) item)
                    (map (fun i => decimal (Z.of_nat i + 1)) l)).
  { intro l. apply Forall_map. apply Forall_forall. intros k _.
    destruct (Z.of_nat k + 1)%Z as [|p|p] eqn:Ep; try lia.
    pose proof (mathInt_positive p) as Hp.
    split; [intro E; rewrite E in Hp; discriminate|].
    rewrite decimal_positive. apply uint_digits. }
  pose proof (Hitems [i]) as Hfirst. cbn [map] in Hfirst.
  apply Forall_inv in Hfirst as [Hfirst_ne Hfirst].
  assert (Hsplit : splitRegExp [Plus isSeparator] choice
                   = map (fun i => decimal (Z.of_nat i + 1)) (i :: indices)).
  { subst choice. cbn [map].
    destruct (join sep (decimal (Z.of_nat i + 1)
                        :: map (fun i => decimal (Z.of_nat i + 1)) indices))
      as [|c t] eqn:Ej.
    - exfalso. destruct (decimal (Z.of_nat i + 1)); [now destruct Hfirst_ne|].
      destruct (map _ indices); discriminate.
    - change (splitRegExp [Plus isSeparator] (c :: t))
        with (splitFrom [Plus isSeparator] 0 None [] (c :: t)).
      rewrite <- Ej.
      exact (splitFrom_join sep _ Hsep Hseps (Hitems indices) _ None [] Hfirst). }
  assert (Hstart : exists c t, trim choice = c :: t /\ isDigit c = true).
  { subst choice. cbn [map].
    destruct (decimal (Z.of_nat i + 1)) as [|c t] eqn:Ed; [now destruct Hfirst_ne|].
    inversion Hfirst as [|? ? Hc _]; subst.
    match goal with
    | |- context [join sep ?l] => assert (Ej : exists t', join sep l = c :: t')
    end.
    { destruct (map _ indices); cbn [join app]; eauto. }
    destruct Ej as (t' & ->).
    destruct (trim_keeps_first c t' (digit_not_space c Hc)) as (t'' & ->). eauto. }
  destruct Hstart as (c & t & Etrim & Hc).
  rewrite parseChoice_cases. cbv zeta. rewrite Hcase, Etrim, Hsplit.
  unfold isDigit in Hc. apply andb_prop in Hc as [H1 H2]. apply N.leb_le in H1, H2.
  assert (Hletter : forall k : char, (97 <= k)%N -> list_eq_b (c :: t) [k] = false).
  { intros k Hk. cbn [list_eq_b].
    replace (c =? k)%N with false by (symmetry; apply N.eqb_neq; lia). reflexivity. }
  change (lit "q") with [113%N]. change (lit "a") with [97%N].
  change (lit "m") with [109%N]. change (lit "c") with [99%N].
  change (lit "x") with [120%N].
  rewrite !Hletter by lia. cbn [andb].
  pose proof (typed_items fileCount (i :: indices) Hmax Hrange) as Hall.
  destruct (filter (inRange fileCount) _) as [|n kept]; [discriminate|].
  now rewrite Hall.
Qed.

Lemma typed_numbers_choose_the_files_witness :
  @parseChoice Desk.terminal (lit "3, 1, 12") 20 true false = Indices [2; 0; 11]%nat.
Proof.
  apply (typed_numbers_choose_the_files
           Desk.terminal 20 [2; 0; 11]%nat (lit ", ") false).
  - reflexivity.
  - discriminate.
  - repeat constructor; lia.
  - now vm_compute.
  - discriminate.
  - repeat constructor.
Defined.

(** ** The menu loop *)

Section MenuLoop.
Context {P : Platform} {T : Terminal}.

Lemma toggle_one_In (s : Interactive.SelectionState) (i k : nat) :
  In k (if has s i then delete s i else add s i) -> In k s \/ k = i.
Proof.
  destruct (has s i) eqn:E.
  - unfold delete. intro H. apply filter_In in H as [H _]. now left.
  - unfold add. rewrite E. intro H. apply in_app_or in H as [H|[<-|[]]]; auto.
Qed.

Lemma toggleSelection_valid (files : list jsstring) (indices : list nat) :
  Forall (fun i => (i < List.length files)%nat) indices ->
  forall selection,
    valid files selection -> valid files (toggleSelection selection indices).
Proof.
  unfold toggleSelection.
  induction 1 as [|i indices Hi _ IH]; intros s Hs; [exact Hs|].
  cbn [fold_left]. apply IH. destruct Hs as [Hn Hr]. split.
  - now apply toggle_one_NoDup.
  - apply Forall_forall. intros k Hk. apply toggle_one_In in Hk as [Hk| ->]; [|exact Hi].
    rewrite Forall_forall in Hr. now apply Hr.
Qed.

Lemma valid_nil (files : list jsstring) : valid files [].
Proof. split; constructor. Qed.

Lemma copyAndReport_facts (text : jsstring) (success : list Event) (next : Next) :
  forallb (fun e => negb (isMenu e)) success = true ->
  forallb (fun e => negb (isClose e)) success = true ->
  forallb (fun e => negb (isMenu e)) (fst (copyAndReport text success next)) = true
  /\ forallb (fun e => negb (isClose e)) (fst (copyAndReport text success next)) = true
  /\ (snd (copyAndReport text success next) = next
      \/ exists error,
           copyAndReport text success next = ([ClipboardWrite text], Stop (Crashed error))
           /\ runChild (getClipboardCommand processPlatform) text = Broken error).
Proof.
  intros Hquiet Hopen. unfold copyAndReport, copyToClipboard.
  destruct (runChild (getClipboardCommand processPlatform) text)
    as [|[[|code|code]|]|error|error]; cbn [fst snd forallb isMenu isClose negb andb];
    auto.
  split; [reflexivity|]. split; [reflexivity|]. right. now exists error.
Qed.

Lemma compressAndCopy_facts (compressed : result Interactive.Compressed)
    (action : jsstring) (next : Next) :
  forallb (fun e => negb (isMenu e)) (fst (compressAndCopy compressed action next)) = true
  /\ forallb (fun e => negb (isClose e)) (fst (compressAndCopy compressed action next))
     = true
  /\ (snd (compressAndCopy compressed action next) = next
      \/ exists error text,
           compressAndCopy compressed action next
           = ([ClipboardWrite text], Stop (Crashed error))
           /\ runChild (getClipboardCommand processPlatform) text = Broken error).
Proof.
  unfold compressAndCopy. destruct compressed as [result|error].
  - destruct (copyAndReport_facts
                (Interactive.output result)
                [ConsoleLog (SuccessMessage action);
                 ConsoleLog (StatsDisplay (Interactive.stats result)
                                          (Some (Interactive.fileCount result)))]
                next eq_refl eq_refl) as (Hquiet & Hopen & [Hnext|(error & Hc & Hb)]).
    + auto.
    + split; [exact Hquiet|]. split; [exact Hopen|]. right. eauto.
  - cbn. auto.
Qed.

(** What a turn does to the loop: it shows no menu and does not close the
    interface; it is not rejected; it ends the process only where the
    clipboard command cannot be written to; and it keeps the selection
    within the list. *)
Lemma menuTurn_facts (files : list jsstring) (options : CompressOptions)
    (state : State) (choice : jsstring) :
  valid files (selectedIndices state) ->
  forallb (fun e => negb (isMenu e)) (fst (menuTurn files options state choice)) = true
  /\ forallb (fun e => negb (isClose e)) (fst (menuTurn files options state choice)) = true
  /\ match snd (menuTurn files options state choice) with
     | Stop Returned => True
     | Stop (Crashed error) =>
         exists events text,
           fst (menuTurn files options state choice) = events ++ [ClipboardWrite text]
           /\ runChild (getClipboardCommand processPlatform) text = Broken error
     | Stop (Rejected _) | Stop Waiting => False
     | Again _ state' => valid files (selectedIndices state')
     end.
Proof.
  intro Hv. unfold menuTurn. cbv zeta.
  destruct (parseChoice choice (JS.length files) (isMultiSelectMode state)
                        (0 <? JS.length (selectedIndices state))%Z)
    as [[index| | | | |]|indices|] eqn:E.
  - apply parseChoice_File in E as [Hm Hi]. rewrite Hm.
    destruct (nth_error files index) as [filePath|] eqn:En.
    + destruct (processSingleFile filePath (targetDir options)) as [single|error].
      * match goal with
        | |- context [copyAndReport ?text ?success ?next] =>
            destruct (copyAndReport_facts text success next eq_refl eq_refl)
              as (Hquiet & Hopen & [Hnext|(error & Hc & Hb)]);
            [destruct (copyAndReport text success next) as [events next'];
             cbn [fst snd] in *; subst next'
            |rewrite Hc; cbn [fst snd]]
        end.
        -- cbn [forallb isMenu isClose negb andb]. auto.
        -- split; [reflexivity|]. split; [reflexivity|].
           exists [ConsoleLog (CompressingFile
                                 (getRelativePath filePath (targetDir options)))],
                  (content single).
           auto.
      * cbn [fst snd forallb isMenu isClose negb andb]. auto.
    + apply nth_error_None in En. unfold JS.length in Hi. lia.
  - match goal with
    | |- context [compressAndCopy ?c ?a ?next] =>
        destruct (compressAndCopy_facts c a next)
          as (Hquiet & Hopen & [Hnext|(error & text & Hc & Hb)]);
        [destruct (compressAndCopy c a next) as [events next'];
         cbn [fst snd] in *; subst next'
        |rewrite Hc; cbn [fst snd]]
    end.
    + cbn [forallb isMenu isClose negb andb]. auto.
    + split; [reflexivity|]. split; [reflexivity|].
      exists [ConsoleLog CompressingAll], text. auto.
  - cbn [fst snd]. split; [reflexivity|]. split; [reflexivity|exact Hv].
  - match goal with
    | |- context [compressAndCopy ?c ?a ?next] =>
        destruct (compressAndCopy_facts c a next)
          as (Hquiet & Hopen & [Hnext|(error & text & Hc & Hb)]);
        [destruct (compressAndCopy c a next) as [events next'];
         cbn [fst snd] in *; subst next'
        |rewrite Hc; cbn [fst snd]]
    end.
    + cbn [forallb isMenu isClose negb andb selectedIndices].
      split; [exact Hquiet|]. split; [exact Hopen|apply valid_nil].
    + split; [reflexivity|]. split; [reflexivity|].
      exists [ConsoleLog (CompressingSelected (JS.length (selectedIndices state)))], text.
      auto.
  - cbn [fst snd]. split; [reflexivity|]. split; [reflexivity|apply valid_nil].
  - cbn [fst snd]. auto.
  - apply parseChoice_Indices in E as (_ & _ & Hr). cbn [fst snd].
    split; [reflexivity|]. split; [reflexivity|]. cbn [selectedIndices].
    apply toggleSelection_valid; [|exact Hv].
    eapply Forall_impl; [|exact Hr]. unfold JS.length. intros. lia.
  - cbn [fst snd]. split; [reflexivity|]. split; [reflexivity|exact Hv].
Qed.

Lemma menus_of_app (a b : list Event) (e : Event) :
  isMenu e = true -> forallb (fun e => negb (isMenu e)) a = true ->
  In e (a ++ b) -> In e b.
Proof.
  intros He Ha H. apply in_app_or in H as [H|H]; [|exact H].
  rewrite forallb_forall in Ha. specialize (Ha e H). now rewrite He in Ha.
Qed.

Lemma menuLoop_facts (files : list jsstring) (options : CompressOptions) :
  forall (n : nat) (answers : list jsstring) (state : State),
    (List.length answers <= n)%nat ->
    valid files (selectedIndices state) ->
    (forall error, snd (menuLoop files options answers state) <> Rejected error)
    /\ (forall error,
           snd (menuLoop files options answers state) = Crashed error ->
           exists events text,
             fst (menuLoop files options answers state) = events ++ [ClipboardWrite text]
             /\ runChild (getClipboardCommand processPlatform) text = Broken error)
    /\ forallb (fun e => negb (isClose e)) (fst (menuLoop files options answers state))
       = true
    /\ forall shown baseDir selection mode,
         In (ConsoleLog (MenuDisplay shown baseDir selection mode))
            (fst (menuLoop files options answers state)) ->
         shown = files /\ baseDir = targetDir options /\ valid files selection.
Proof.
  assert (Hbase : forall state,
             valid files (selectedIndices state) ->
             forall shown baseDir selection mode,
               In (ConsoleLog (MenuDisplay shown baseDir selection mode))
                  (showMenu files options state) ->
               shown = files /\ baseDir = targetDir options /\ valid files selection).
  { intros state Hv shown baseDir selection mode [H|[H|[H|[]]]]; try discriminate.
    injection H as <- <- <- <-. auto. }
  induction n as [|n IH]; intros answers state Hn Hv.
  - destruct answers; [|simpl in Hn; lia]. cbn [menuLoop fst snd].
    split; [discriminate|]. split; [discriminate|]. split; [reflexivity|].
    now apply Hbase.
  - destruct answers as [|choice rest].
    { cbn [menuLoop fst snd].
      split; [discriminate|]. split; [discriminate|]. split; [reflexivity|].
      now apply Hbase. }
    cbn [menuLoop].
    destruct (menuTurn_facts files options state choice Hv) as (Hquiet & Hopen & Hnext).
    destruct (menuTurn files options state choice) as [events next].
    cbn [fst snd] in Hquiet, Hopen, Hnext.
    assert (Hshown : forall later shown baseDir selection mode,
               In (ConsoleLog (MenuDisplay shown baseDir selection mode))
                  ((showMenu files options state ++ events) ++ later) ->
               (shown = files /\ baseDir = targetDir options /\ valid files selection)
               \/ In (ConsoleLog (MenuDisplay shown baseDir selection mode)) later).
    { intros later shown baseDir selection mode H.
      rewrite <- app_assoc in H. apply in_app_or in H as [H|H].
      - left. exact (Hbase state Hv shown baseDir selection mode H).
      - right. now apply (menus_of_app events later) in H. }
    assert (Hturn : forallb (fun e => negb (isClose e))
                            (showMenu files options state ++ events) = true).
    { rewrite forallb_app, Hopen. reflexivity. }
    destruct next as [outcome|[|] state'].
    + cbn [fst snd].
      assert (Hmenus : forall shown baseDir selection mode,
                 In (ConsoleLog (MenuDisplay shown baseDir selection mode))
                    (showMenu files options state ++ events) ->
                 shown = files /\ baseDir = targetDir options /\ valid files selection).
      { intros shown baseDir selection mode H.
        rewrite <- (app_nil_r (_ ++ events)) in H.
        apply (Hshown [] shown baseDir selection mode) in H as [H|[]]. exact H. }
      destruct outcome as [|error|error|]; try contradiction.
      * split; [discriminate|]. split; [discriminate|]. auto.
      * split; [discriminate|]. split; [|auto].
        intros error' H. injection H as <-.
        destruct Hnext as (before & text & -> & Hb).
        exists (showMenu files options state ++ before), text.
        split; [now rewrite app_assoc|exact Hb].
    + destruct rest as [|pause rest'].
      * cbn [fst snd]. split; [discriminate|]. split; [discriminate|].
        split; [rewrite forallb_app, Hturn; reflexivity|].
        intros shown baseDir selection mode H.
        apply (Hshown _ shown baseDir selection mode) in H as [H|[H|[]]];
          [exact H|discriminate].
      * destruct (IH rest' state') as (H1 & H2 & H3 & H4);
          [simpl in Hn; lia|exact Hnext|].
        destruct (menuLoop files options rest' state') as [later outcome].
        cbn [fst snd] in *. split; [exact H1|]. split; [|split].
        -- intros error Hc. destruct (H2 error Hc) as (before & text & -> & Hb).
           exists ((showMenu files options state ++ events)
                   ++ Question PressEnter :: before), text.
           split; [now rewrite <- !app_assoc|exact Hb].
        -- rewrite forallb_app, Hturn. cbn [forallb isClose negb andb]. exact H3.
        -- intros shown baseDir selection mode H.
           change (?a ++ Question PressEnter :: later)
             with (a ++ [Question PressEnter] ++ later) in H.
           apply (Hshown _ shown baseDir selection mode) in H as [H|[H|H]];
             [exact H|discriminate|].
           exact (H4 shown baseDir selection mode H).
    + destruct (IH rest state') as (H1 & H2 & H3 & H4);
        [simpl in Hn; lia|exact Hnext|].
      destruct (menuLoop files options rest state') as [later outcome].
      cbn [fst snd] in *. split; [exact H1|]. split; [|split].
      * intros error Hc. destruct (H2 error Hc) as (before & text & -> & Hb).
        exists ((showMenu files options state ++ events) ++ before), text.
        split; [now rewrite <- !app_assoc|exact Hb].
      * now rewrite forallb_app, Hturn.
      * intros shown baseDir selection mode H.
        apply (Hshown _ shown baseDir selection mode) in H as [H|H]; [exact H|].
        exact (H4 shown baseDir selection mode H).
Qed.


End MenuLoop.

(** X21. Whatever is typed, every menu that the loop shows lists the files
    it was given, with a selection of indices of that list, none twice: no
    choice selects a file that is not there. *)
Theorem menu_selection_stays_within_the_list :
  forall (P : Platform) (T : Terminal) (files : list jsstring)
         (options : CompressOptions) (answers : list jsstring)
         (shown : list jsstring) (baseDir : jsstring)
         (selection : Interactive.SelectionState) (mode : bool),
    In (ConsoleLog (MenuDisplay shown baseDir selection mode))
       (fst (menuLoop files options answers
                      {| selectedIndices := []; isMultiSelectMode := false |})) ->
    shown = files /\ NoDup selection
    /\ Forall (fun i => (i < List.length files)%nat) selection.
Proof.
  intros P T files options answers shown baseDir selection mode H.
  destruct (menuLoop_facts files options (List.length answers) answers
              {| selectedIndices := []; isMultiSelectMode := false |}
              (le_n _) (valid_nil files)) as (_ & _ & _ & Hm).
  destruct (Hm shown baseDir selection mode H) as (Hs & _ & Hn & Hr). auto.
Qed.

Lemma menu_selection_stays_within_the_list_witness :
  In (ConsoleLog (MenuDisplay [lit "src/a.ts"; lit "src/b.ts"] (lit "src") [1]%nat true))
     (fst (@menuLoop Sample.host Desk.terminal [lit "src/a.ts"; lit "src/b.ts"]
                     (Sample.options "src" false)
                     [lit "m"; lit "1, 2 9"; lit ""; lit "1"; lit ""]
                     {| selectedIndices := []; isMultiSelectMode := false |}))
  /\ NoDup [1]%nat.
Proof.
  assert (H : In (ConsoleLog (MenuDisplay [lit "src/a.ts"; lit "src/b.ts"] (lit "src")
                                          [1]%nat true))
                 (fst (@menuLoop Sample.host Desk.terminal
                                 [lit "src/a.ts"; lit "src/b.ts"]
                                 (Sample.options "src" false)
                                 [lit "m"; lit "1, 2 9"; lit ""; lit "1"; lit ""]
                                 {| selectedIndices := []; isMultiSelectMode := false |}))).
  { vm_compute. tauto. }
  split; [exact H|].
  exact (proj1 (proj2 (menu_selection_stays_within_the_list
                         Sample.host Desk.terminal _ _ _ _ _ _ _ H))).
Defined.

(** X22. A turn in multi-select mode leaves the mode only by compressing the
    selection: every other choice, [m] included, keeps it or ends the
    loop. *)
Theorem multi_select_mode_is_left_by_compressing :
  forall (P : Platform) (T : Terminal) (files : list jsstring)
         (options : CompressOptions) (state state' : State) (choice : jsstring)
         (pause : bool),
    isMultiSelectMode state = true ->
    snd (menuTurn files options state choice) = Again pause state' ->
    isMultiSelectMode state' = false ->
    parseChoice choice (JS.length files) true
                (0 <? JS.length (selectedIndices state))%Z
    = Choice CompressSelected
    /\ selectedIndices state' = [].
Proof.
  intros P T files options state state' choice pause Hm Hturn Hleft.
  unfold menuTurn in Hturn. cbv zeta in Hturn. rewrite Hm in Hturn.
  destruct (parseChoice choice (JS.length files) true
                        (0 <? JS.length (selectedIndices state))%Z)
    as [[index| | | | |]|indices|] eqn:E;
    try match type of Hturn with
        | context [compressAndCopy ?c ?a ?next] =>
            destruct (compressAndCopy_facts c a next)
              as (_ & _ & [Hnext|(error & text & Hc & _)]);
            [destruct (compressAndCopy c a next) as [events next'];
             cbn [snd] in Hnext; subst next'
            |rewrite Hc in Hturn; discriminate Hturn]
        end;
    cbn [snd] in Hturn.
  - injection Hturn as _ <-. congruence.
  - injection Hturn as _ <-. congruence.
  - apply parseChoice_Multi in E. discriminate.
  - injection Hturn as _ <-. split; reflexivity.
  - injection Hturn as _ <-. cbn [isMultiSelectMode] in Hleft. congruence.
  - discriminate.
  - injection Hturn as _ <-. cbn [isMultiSelectMode] in Hleft. congruence.
  - injection Hturn as _ <-. congruence.
Qed.

Lemma multi_select_mode_is_left_by_compressing_witness :
  @parseChoice Desk.terminal (lit "C") 2 true true = Choice CompressSelected.
Proof.
  exact (proj1 (multi_select_mode_is_left_by_compressing
                  Sample.host Desk.terminal [lit "src/a.ts"; lit "src/b.ts"]
                  (Sample.options "src" false)
                  {| selectedIndices := [1]%nat; isMultiSelectMode := true |}
                  {| selectedIndices := []; isMultiSelectMode := false |}
                  (lit "C") true eq_refl eq_refl eq_refl)).
Defined.


(** ** Patterns *)

Section PatternFacts.

Lemma star_complete (p : char -> bool) (k : option char -> jsstring -> nat -> outcome) :
  forall w t prev n,
    Forall (fun c => p c = true) w ->
    k (after prev w) t (List.length w + n)%nat <> None ->
    star p k prev (w ++ t) n <> None.
Proof.
  induction w as [|x w IH]; intros t prev n Hw Hk.
  - destruct t as [|c t']; [exact Hk|]. cbn [app star].
    destruct (p c); [|exact Hk].
    destruct (star p k (Some c) t' (S n)); [discriminate|exact Hk].
  - inversion Hw as [|? ? Hx Hw']; subst. cbn [app star]. rewrite Hx.
    specialize (IH t (Some x) (S n) Hw').
    destruct (star p k (Some x) (w ++ t) (S n)); [discriminate|].
    exfalso. apply IH; [|reflexivity].
    cbn [List.length] in Hk. now rewrite <- plus_n_Sm.
Qed.

Lemma Fits_run (r : regex) (m : jsstring) :
  Fits r m -> forall prev t n g, run r prev (m ++ t) n g <> None.
Proof.
  induction 1 as [|c r m _ IH|p r x m Hx _ IH|p r w m Hw _ IH];
    intros prev t n g; cbn [run app].
  - discriminate.
  - rewrite N.eqb_refl. apply IH.
  - rewrite Hx. apply IH.
  - rewrite <- app_assoc. apply star_complete; [exact Hw|]. apply IH.
Qed.

Lemma run_Fits (r : regex) :
  plain r = true ->
  forall prev s n g res,
    run r prev s n g = Some res -> exists m t, s = m ++ t /\ Fits r m.
Proof.
  induction r as [|node r IH]; intros Hr prev s n g res H.
  - exists [], s. split; [reflexivity|constructor].
  - cbn [plain forallb] in Hr. apply andb_prop in Hr as [Hnode Hr].
    destruct node; try discriminate; cbn [run] in H.
    + destruct s as [|x t]; [discriminate|].
      destruct (N.eqb_spec x c) as [->|]; [|discriminate].
      apply (IH Hr) in H as (m & t' & -> & Hm).
      exists (c :: m), t'. split; [reflexivity|now constructor].
    + destruct s as [|x t]; [discriminate|].
      destruct (p x) eqn:Hx; [|discriminate].
      apply (IH Hr) in H as (m & t' & -> & Hm).
      exists (x :: m), t'. split; [reflexivity|now constructor].
    + apply star_sound in H as (w & t & -> & Hw & H).
      apply (IH Hr) in H as (m & t' & -> & Hm).
      exists (w ++ m), t'. split; [now rewrite app_assoc|now constructor].
Qed.

Lemma parse_plain (source : jsstring) (r : regex) :
  parse source = Some r -> plain r = true.
Proof.
  assert (H : forall n source r,
             (List.length source <= n)%nat -> parse source = Some r -> plain r = true).
  { clear. induction n as [|n IH]; intros [|c t] r Hn H; cbn [parse] in H;
      try (now injection H as <-); try (simpl in Hn; lia).
    destruct (c =? chr ".")%N.
    - destruct t as [|q t'].
      + now injection H as <-.
      + destruct (q =? chr "*")%N.
        * destruct (parse t') as [r'|] eqn:E; [|discriminate].
          injection H as <-. cbn [plain forallb andb].
          apply (IH t' r'); [simpl in Hn; lia|exact E].
        * destruct (parse (q :: t')) as [r'|] eqn:E; [|discriminate].
          injection H as <-. cbn [plain forallb andb].
          apply (IH (q :: t') r'); [simpl in Hn |- *; lia|exact E].
    - destruct (isSyntaxCharacter c); [discriminate|].
      destruct (parse t) as [r'|] eqn:E; [|discriminate].
      injection H as <-. cbn [plain forallb andb].
      apply (IH t r'); [simpl in Hn; lia|exact E]. }
  now apply (H (List.length source)).
Qed.

Lemma search_Occurs (r : regex) :
  plain r = true ->
  forall s, search r s = true <-> Occurs r s.
Proof.
  intros Hr s. unfold search, Occurs. generalize (@None char).
  induction s as [|c s IH]; intro prev; cbn [searchFrom].
  - destruct (exec r prev []) as [res|] eqn:E.
    + split; [intros _|reflexivity].
      apply (run_Fits r Hr) in E as (m & t & Hs & Hm).
      exists [], m, t. auto.
    + split; [discriminate|]. intros (a & m & b & Hs & Hm). exfalso.
      symmetry in Hs. apply app_eq_nil in Hs as [-> Hs].
      apply app_eq_nil in Hs as [-> ->].
      apply (Fits_run r [] Hm prev [] 0%nat (0, 0)%nat). exact E.
  - destruct (exec r prev (c :: s)) as [res|] eqn:E.
    + split; [intros _|reflexivity].
      apply (run_Fits r Hr) in E as (m & t & Hs & Hm).
      exists [], m, t. auto.
    + rewrite IH. split.
      * intros (a & m & b & -> & Hm). exists (c :: a), m, b. auto.
      * intros (a & m & b & Hs & Hm).
        destruct a as [|x a].
        -- exfalso. cbn [app] in Hs. rewrite Hs in E.
           apply (Fits_run r m Hm prev b 0%nat (0, 0)%nat). exact E.
        -- injection Hs as -> ->. exists a, m, b. auto.
Qed.

End PatternFacts.

Section Filters.
Context {P : Platform}.
Hypothesis host_follows_the_language : EcmaScript P.

Lemma patternToRegex_parsed (pattern : jsstring) (r : regex) :
  parse (sourceOf pattern) = Some r ->
  exists object,
    patternToRegex pattern = Ok object /\ forall s, test object s = search r s.
Proof.
  intro H. unfold patternToRegex. rewrite replace_char.
  exact (host_follows_the_language _ _ H).
Qed.

Lemma patterns_compile (patterns : list jsstring) :
  Forall (fun p => parse (sourceOf p) <> None) patterns ->
  exists objects,
    traverse patternToRegex patterns = Ok objects
    /\ forall name,
         existsb (fun regex => test regex name) objects = true
         <-> Exists (fun p => Matches p name) patterns.
Proof.
  induction 1 as [|p ps Hp _ (objects & Htr & Hobjects)].
  - exists []. split; [reflexivity|]. intro name. cbn [existsb].
    split; [discriminate|]. intro H. inversion H.
  - destruct (parse (sourceOf p)) as [r|] eqn:Er; [|now destruct Hp].
    destruct (patternToRegex_parsed p r Er) as (object & Ho & Htest).
    exists (object :: objects). cbn [traverse]. rewrite Ho, Htr. cbn [bind].
    split; [reflexivity|]. intro name. cbn [existsb].
    rewrite orb_true_iff, Hobjects, Htest, Exists_cons.
    rewrite (search_Occurs r (parse_plain _ _ Er)).
    unfold Matches. rewrite Er. split.
    + intros [H|H]; [left; eauto|now right].
    + intros [(r' & E & H)|H]; [left; now injection E as <-|now right].
Qed.

End Filters.

Section DefaultPatterns.

Lemma startsWith_app (s p : jsstring) : startsWith s p = true -> exists t, s = p ++ t.
Proof.
  revert s. induction p as [|x p IH]; intros s H; [now exists s|].
  destruct s as [|c s]; [discriminate|]. cbn [startsWith] in H.
  apply andb_prop in H as [E H]. apply N.eqb_eq in E. subst c.
  destruct (IH s H) as (t & ->). now exists t.
Qed.

Lemma endsWith_app (s p : jsstring) : endsWith s p = true -> exists a, s = a ++ p.
Proof.
  unfold endsWith. intro H. apply startsWith_app in H as (t & H).
  exists (rev t). apply (f_equal (@rev char)) in H.
  now rewrite rev_involutive, rev_app_distr, rev_involutive in H.
Qed.

Lemma Fits_literal (w : jsstring) (r : regex) (m : jsstring) :
  Fits (map Char w ++ r) m <-> exists m', m = w ++ m' /\ Fits r m'.
Proof.
  revert m. induction w as [|c w IH]; intro m; cbn [map app].
  - split; [eauto|]. now intros (m' & -> & H).
  - split.
    + intro H. inversion H as [|? ? m0 H0| |]; subst.
      apply IH in H0 as (m' & -> & H'). eauto.
    + intros (m' & -> & H). cbn [app]. constructor. apply IH. eauto.
Qed.

(** The expression of [*.w.ts] for a word [w]. *)
Lemma Occurs_Between (w name : jsstring) :
  Occurs (Star isDot :: Class isDot :: map Char w ++ [Class isDot] ++ map Char (lit "ts"))
         name
  <-> Between w name.
Proof.
  unfold Occurs, Between. split.
  - intros (a & m & b & -> & H).
    inversion H as [| | |? ? run m1 Hrun H1]; subst.
    inversion H1 as [| |? ? x m2 Hx H2|]; subst.
    apply Fits_literal in H2 as (m3 & -> & H3).
    inversion H3 as [| |? ? y m4 Hy H4|]; subst.
    inversion H4 as [|? ? m5 H5| |]; subst.
    inversion H5 as [|? ? m6 H6| |]; subst.
    inversion H6; subst.
    exists (a ++ run), x, y, b. split; [|auto].
    change (lit "ts") with [116%N; 115%N].
    rewrite <- !app_assoc. cbn [app]. now rewrite <- !app_assoc.
  - intros (a & x & y & b & -> & Hx & Hy).
    exists a, ([x] ++ w ++ [y] ++ lit "ts"), b. split.
    + now rewrite <- !app_assoc.
    + apply (Fits_star isDot _ [] _ (Forall_nil _)). cbn [app].
      constructor; [exact Hx|]. apply Fits_literal. eexists. split; [reflexivity|].
      cbn [app]. constructor; [exact Hy|]. repeat constructor.
Qed.

Lemma Matches_default_exclude (w name : jsstring) :
  parse (sourceOf (lit "*." ++ w ++ lit ".ts"))
  = Some (Star isDot :: Class isDot :: map Char w ++ [Class isDot] ++ map Char (lit "ts")) ->
  Matches (lit "*." ++ w ++ lit ".ts") name <-> Between w name.
Proof.
  intro E. unfold Matches. rewrite E, <- Occurs_Between. split.
  - now intros (r & Er & H); injection Er as <-.
  - eauto.
Qed.

Lemma Matches_default_include (name : jsstring) :
  endsWith name (lit ".ts") = true -> Matches (lit "*.ts") name.
Proof.
  intro H. apply endsWith_app in H as (stem & ->).
  exists [Star isDot; Class isDot; Char (chr "t"); Char (chr "s")].
  split; [reflexivity|]. exists stem, (lit ".ts"), []. split; [now rewrite app_nil_r|].
  apply (Fits_star isDot _ [] _ (Forall_nil _)). repeat constructor.
Qed.

End DefaultPatterns.

Lemma Script_host_follows : EcmaScript Script.host.
Proof.
  intros source r H. exists r. cbn. rewrite H. split; reflexivity.
Qed.

(** X24. Patterns written with ordinary characters, [.] and [*] are searched
    for anywhere in the file name, a [.] standing for any character and a
    [*] for any run of characters: the filter accepts a name exactly when
    it ends in [.ts], no exclude pattern occurs in it and some include
    pattern does. *)
Theorem patterns_are_searched_in_the_name :
  forall (P : Platform) (includePatterns excludePatterns : list jsstring),
    EcmaScript P ->
    Forall (fun p => parse (sourceOf p) <> None) includePatterns ->
    Forall (fun p => parse (sourceOf p) <> None) excludePatterns ->
    exists filter,
      createFileFilter includePatterns excludePatterns = Ok filter
      /\ forall name,
           filter name = true
           <-> endsWith name (lit ".ts") = true
               /\ ~ Exists (fun p => Matches p name) excludePatterns
               /\ Exists (fun p => Matches p name) includePatterns.
Proof.
  intros P inc exc HP Hinc Hexc.
  destruct (patterns_compile HP inc Hinc) as (incs & Hi & Hincs).
  destruct (patterns_compile HP exc Hexc) as (excs & He & Hexcs).
  unfold createFileFilter. rewrite Hi, He. cbn [bind]. eexists.
  split; [reflexivity|]. intro name. cbv beta.
  rewrite <- Hincs, <- Hexcs.
  destruct (endsWith name (lit ".ts")); cbn [negb].
  - destruct (existsb (fun regex => test regex name) excs).
    + split; [discriminate|]. now intros (_ & H & _).
    + split; [|tauto]. intro H. split; [reflexivity|]. split; [discriminate|exact H].
  - split; [discriminate|]. now intros (H & _).
Qed.

Lemma patterns_are_searched_in_the_name_witness :
  exists filter,
    @createFileFilter Script.host [lit "*.ts"] [lit "*.d.ts"] = Ok filter
    /\ filter (lit "index.ts") = true
    /\ filter (lit "types.d.ts") = false.
Proof.
  destruct (patterns_are_searched_in_the_name
              Script.host [lit "*.ts"] [lit "*.d.ts"] Script_host_follows)
    as (filter & Hf & _).
  - repeat constructor; discriminate.
  - repeat constructor; discriminate.
  - exists filter. split; [exact Hf|]. injection Hf as <-. split; reflexivity.
Defined.

(** X25. With the default patterns, the filter accepts a name exactly when
    it ends in [.ts] and holds none of [d], [test] and [spec] between two
    characters and followed by [ts]: the dots of [*.d.ts], [*.test.ts]
    and [*.spec.ts] stand for any character, and the patterns are not tied
    to the end of the name. *)
Theorem default_patterns_accept :
  forall P : Platform,
    EcmaScript P ->
    exists filter,
      createFileFilter defaultInclude defaultExclude = Ok filter
      /\ forall name,
           filter name = true
           <-> endsWith name (lit ".ts") = true
               /\ ~ Between (lit "d") name
               /\ ~ Between (lit "test") name
               /\ ~ Between (lit "spec") name.
Proof.
  intros P HP.
  destruct (patterns_compile HP defaultInclude) as (incs & Hi & Hincs).
  { repeat constructor; discriminate. }
  destruct (patterns_compile HP defaultExclude) as (excs & He & Hexcs).
  { repeat constructor; discriminate. }
  unfold createFileFilter. rewrite Hi, He. cbn [bind]. eexists.
  split; [reflexivity|]. intro name. cbv beta.
  assert (Hex : existsb (fun regex => test regex name) excs = true
                <-> Between (lit "d") name \/ Between (lit "test") name
                    \/ Between (lit "spec") name).
  { rewrite Hexcs. unfold defaultExclude. rewrite !Exists_cons, Exists_nil.
    rewrite (Matches_default_exclude (lit "d") name eq_refl).
    rewrite (Matches_default_exclude (lit "test") name eq_refl).
    rewrite (Matches_default_exclude (lit "spec") name eq_refl). tauto. }
  destruct (endsWith name (lit ".ts")) eqn:Ets; cbn [negb].
  - assert (Hin : existsb (fun regex => test regex name) incs = true).
    { apply Hincs. constructor. now apply Matches_default_include. }
    rewrite Hin.
    destruct (existsb (fun regex => test regex name) excs).
    + split; [discriminate|]. intros (_ & H). exfalso.
      destruct (proj1 Hex eq_refl) as [Hd|[Ht|Hs]]; tauto.
    + split; [|reflexivity]. intros _. split; [reflexivity|].
      assert (Hno : ~ (Between (lit "d") name \/ Between (lit "test") name
                       \/ Between (lit "spec") name)).
      { intro H. apply Hex in H. discriminate. }
      tauto.
  - split; [discriminate|]. now intros (H & _).
Qed.

Lemma default_patterns_accept_witness :
  exists filter,
    @createFileFilter Script.host defaultInclude defaultExclude = Ok filter
    /\ filter (lit "index.ts") = true
    /\ filter (lit "index.test.ts") = false.
Proof.
  destruct (default_patterns_accept Script.host Script_host_follows)
    as (filter & Hf & _).
  exists filter. split; [exact Hf|]. injection Hf as <-. split; reflexivity.
Defined.

(** X26. With the default patterns, a file whose name ends in [d.ts] after
    at least one other character, such as [add.ts], is excluded like a
    declaration file. *)
Theorem default_patterns_exclude_names_in_d :
  forall (P : Platform) (filter : FileFilter) (stem : jsstring) (x : char),
    EcmaScript P ->
    createFileFilter defaultInclude defaultExclude = Ok filter ->
    isLineTerminator x = false ->
    filter (stem ++ [x] ++ lit "d.ts") = false.
Proof.
  intros P filter stem x HP Hf Hx.
  destruct (patterns_compile HP defaultExclude) as (excs & He & Hexcs).
  { repeat constructor; discriminate. }
  unfold createFileFilter in Hf.
  apply bind_Ok in Hf as (incs & _ & Hf). rewrite He in Hf. cbn [bind] in Hf.
  injection Hf as <-.
  assert (Hex : existsb (fun regex => test regex (stem ++ [x] ++ lit "d.ts")) excs = true).
  { apply Hexcs. constructor.
    apply (Matches_default_exclude (lit "d") _ eq_refl).
    exists stem, x, (chr "."), []. split; [reflexivity|].
    unfold isDot. rewrite Hx. split; reflexivity. }
  rewrite Hex. now destruct (negb _).
Qed.

Lemma default_patterns_exclude_names_in_d_witness :
  exists filter,
    @createFileFilter Script.host defaultInclude defaultExclude = Ok filter
    /\ filter (lit "add.ts") = false.
Proof.
  eexists. split; [reflexivity|].
  apply (default_patterns_exclude_names_in_d
           Script.host _ (lit "a") (chr "d") Script_host_follows eq_refl eq_refl).
Defined.

(** ** The combinators *)

(** X27. [concat] puts the arrays one after the other, in order: it is the
    flattening of its argument list. *)
Theorem concat_flattens :
  forall (T : Type) (arrays : list (list T)),
    Combinators.concat arrays = List.concat arrays.
Proof.
  intros T arrays. unfold Combinators.concat.
  assert (H : forall acc, fold_left (fun acc arr => acc ++ arr) arrays acc
                          = acc ++ List.concat arrays).
  { induction arrays as [|a arrays IH]; intro acc; cbn [fold_left List.concat].
    - now rewrite app_nil_r.
    - now rewrite IH, app_assoc. }
  apply H.
Qed.

(** X28. In the object that [merge] returns, a key other than [__proto__]
    has the value that the last object holding it gives it, and a key that
    no object holds is absent. *)
Theorem merge_takes_the_last_value :
  forall (V : Type) (objects : list (Combinators.object V)) (key : jsstring),
    list_eq_b key (lit "__proto__") = false ->
    match Combinators.merge objects key with
    | Some v =>
        exists before o after_,
          objects = before ++ o :: after_ /\ o key = Some v
          /\ Forall (fun o' : Combinators.object V => o' key = None) after_
    | None => Forall (fun o : Combinators.object V => o key = None) objects
    end.
Proof.
  intros V objects key Hkey. unfold Combinators.merge.
  induction objects as [|o objects IH] using rev_ind.
  - constructor.
  - rewrite fold_left_app. cbn [fold_left]. unfold Combinators.assign at 1.
    rewrite Hkey. destruct (o key) as [v|] eqn:Eo.
    + exists objects, o, []. auto.
    + destruct (fold_left Combinators.assign objects Combinators.empty key) as [v|].
      * destruct IH as (before & o' & rest & -> & Ho' & Hrest).
        exists before, o', (rest ++ [o]). split; [now rewrite <- app_assoc|].
        split; [exact Ho'|]. apply Forall_app. split; [exact Hrest|]. now constructor.
      * apply Forall_app. split; [exact IH|]. now constructor.
Qed.

Lemma merge_takes_the_last_value_witness :
  Combinators.merge
    [ (fun key => if list_eq_b key (lit "mode") then Some 1%Z else None);
      (fun key => if list_eq_b key (lit "mode") then Some 2%Z else None);
      (fun key => if list_eq_b key (lit "dir") then Some 3%Z else None) ]
    (lit "mode")
  = Some 2%Z
  /\ True.
Proof.
  split; [reflexivity|].
  pose proof (merge_takes_the_last_value
                Z
                [ (fun key => if list_eq_b key (lit "mode") then Some 1%Z else None);
                  (fun key => if list_eq_b key (lit "mode") then Some 2%Z else None);
                  (fun key => if list_eq_b key (lit "dir") then Some 3%Z else None) ]
                (lit "mode") eq_refl) as H.
  exact I.
Defined.

(** X29. A pipeline over the stages of two lists is the pipeline of the
    first followed by the pipeline of the second. *)
Theorem pipeline_of_a_concatenation :
  forall (first second : list CompressFunction) (p q : CompressFunction),
    createCompressionPipeline first = Ok p ->
    createCompressionPipeline second = Ok q ->
    exists pipeline,
      createCompressionPipeline (first ++ second) = Ok pipeline
      /\ forall text, pipeline text = q (p text).
Proof.
  intros first second p q Hp Hq.
  destruct first as [|f fs]; [discriminate|]. destruct second as [|g gs]; [discriminate|].
  cbn [createCompressionPipeline app] in *. injection Hp as <-. injection Hq as <-.
  eexists. split; [reflexivity|]. intro text.
  rewrite !fold_pipe. unfold applyInOrder. rewrite fold_left_app. cbn [fold_left].
  reflexivity.
Qed.

Lemma pipeline_of_a_concatenation_witness :
  exists pipeline,
    createCompressionPipeline ([advancedCompress] ++ [trim; advancedCompress])
    = Ok pipeline
    /\ pipeline (lit " a : b ") = lit "a:b".
Proof.
  destruct (pipeline_of_a_concatenation
              [advancedCompress] [trim; advancedCompress] _ _ eq_refl eq_refl)
    as (pipeline & H & Hp).
  exists pipeline. split; [exact H|]. rewrite Hp. reflexivity.
Defined.

(** ** index.ts *)

(** X30. [compressToClipboard] returns a result exactly when [compress]
    returns it and the clipboard command of the platform, fed with the
    output, exits with code 0; when the command fails, the result of the
    compression is lost with it. *)
Theorem compressToClipboard_succeeds_iff :
  forall (P : Platform) (T : Terminal) (targetDir : jsstring)
         (options : option Api.CompressApiOptions) (result : CompressResult),
    Api.compressToClipboard targetDir options = Settled (Ok result)
    <-> Api.compress targetDir options = Ok result
        /\ runChild (getClipboardCommand processPlatform) (Compressor.output result)
           = Exited (Some 0%Z).
Proof.
  intros P T targetDir options result.
  unfold Api.compressToClipboard, copyToClipboard.
  destruct (Api.compress targetDir options) as [r|e].
  - split.
    + intro H.
      destruct (runChild _ (Compressor.output r)) as [|[[|code|code]|]|e|e] eqn:Hc;
        try discriminate.
      injection H as <-. auto.
    + intros [H Hr]. injection H as ->. now rewrite Hr.
  - split; [discriminate|]. now intros [H _].
Qed.
